(** * merge-translations: the merge of translation files, embedded and verified

    The repository holds four revisions of one command-line program:
    - [Index]: [src/index.ts], the earliest one (no options);
    - the revision with [--ignore-errors] only, which reads [program] before
      it is initialised and is not modelled;
    - [Merge]: the revision with [--ignore-errors], [--no-sort] and
      [--no-merge-context];
    - [Md5]: the revision that adds [--no-md5-check].

    The program is embedded shallowly.  Writes to the error stream and thrown
    exceptions are threaded through a small writer/exception monad [M]; the
    plain object [allItems] is a list of own properties in creation order,
    read through the prototype chain and enumerated in the order
    [Object.values] uses.  Input is taken at the declared interface: the
    elements of a [translations] array are [TranslationItem]s whose [key] and
    [value] are strings, [context] being a string or absent.  A
    [translations] that is no array is outside that interface: [Index],
    [Merge] and [Md5] take it as the loop statement is written, and
    [Unchecked] follows the program over parsed values that include strings,
    for both ways a build compiles the loop; it agrees with [Index] and
    [Merge] on the declared interface. *)

From Stdlib Require Import List String Ascii Bool ZArith NArith Lia.
From Stdlib Require Import Permutation Sorted DecimalString.
From Stdlib Require OrderedTypeEx.
Import ListNotations.

Local Set Warnings "-register-all".
Local Open Scope string_scope.
Local Open Scope list_scope.

(** ** Data model *)

(** [interface TranslationItem]; [context = None] is an item read from JSON
    without the property. *)
Record TranslationItem : Type := mkItem {
  key : string;
  value : string;
  context : option string
}.

(** [interface TranslationObject]. *)
Record TranslationObject : Type := mkObject {
  language : string;
  translations : list TranslationItem
}.

(** What [JSON.parse] returned, as far as [main] looks into it: the value
    itself, its own property [translations], and the elements of that array.
    A number is kept only up to being zero or not.  Properties that [main]
    never reads, such as [language], are not recorded, and string values are
    left out at this level ([Unchecked.JsonValue] has them): in input of the
    declared interface the program reads strings inside items only. *)
Inductive json : Type :=
| JNull
| JBool (b : bool)
| JNum (n : Z)
| JArr (items : list TranslationItem)
| JObj (fields : list (string * json)).

(** What [fs.readFile(path).then(buffer => JSON.parse(buffer.toString()))]
    settles to for a path: a rejection carrying [err.message], or the parsed
    value. *)
Inductive Loaded : Type :=
| Rejected (message : string)
| Parsed (j : json).

(** ** JavaScript values *)

(** Truthiness of a string-or-undefined ([!x], [x && ...]). *)
Definition truthy_string (s : option string) : bool :=
  match s with
  | None => false
  | Some s => negb (s =? "")
  end.

(** Truthiness of a parsed value (the left operand of [||]). *)
Definition truthy (j : json) : bool :=
  match j with
  | JNull => false
  | JBool b => b
  | JNum n => negb (n =? 0)%Z
  | JArr _ => true
  | JObj _ => true
  end.

(** [===] on string-or-undefined. *)
Definition strict_eq (a b : option string) : bool :=
  match a, b with
  | None, None => true
  | Some x, Some y => x =? y
  | _, _ => false
  end.

(** Template-literal interpolation of a string-or-undefined. *)
Definition interpolate (s : option string) : string :=
  match s with
  | None => "undefined"
  | Some s => s
  end.

(** Own property lookup in the field list of a parsed object. *)
Fixpoint field (name : string) (fields : list (string * json)) : option json :=
  match fields with
  | [] => None
  | (n, v) :: rest => if n =? name then Some v else field name rest
  end.

(** ** The plain object [allItems]

    [const allItems: Record<string, TranslationItem> = {}] is an ordinary
    object: its own properties are kept here in creation order, and a read
    that finds no own property goes on to [Object.prototype]. *)
Definition ItemRecord : Type := list (string * TranslationItem).

(** The property names of [Object.prototype]; each holds a function, except
    the accessor [__proto__] that yields [Object.prototype] itself. *)
Definition Object_prototype : list string :=
  [ "constructor"; "__defineGetter__"; "__defineSetter__"; "hasOwnProperty";
    "__lookupGetter__"; "__lookupSetter__"; "isPrototypeOf";
    "propertyIsEnumerable"; "toString"; "valueOf"; "__proto__";
    "toLocaleString" ].

Definition inherited (k : string) : bool :=
  existsb (String.eqb k) Object_prototype.

Fixpoint getOwn (o : ItemRecord) (k : string) : option TranslationItem :=
  match o with
  | [] => None
  | (k', it) :: o' => if k' =? k then Some it else getOwn o' k
  end.

(** The result of [allItems[key]]. *)
Inductive Property : Type :=
| Own (item : TranslationItem)
| Inherited
| Undefined.

Definition Get (o : ItemRecord) (k : string) : Property :=
  match getOwn o k with
  | Some it => Own it
  | None => if inherited k then Inherited else Undefined
  end.

(** [allItems[key].value] and [allItems[key].context]: a member of
    [Object.prototype] has neither property. *)
Definition Property_value (p : Property) : option string :=
  match p with
  | Own it => Some (value it)
  | _ => None
  end.

Definition Property_context (p : Property) : option string :=
  match p with
  | Own it => context it
  | _ => None
  end.

(** [allItems[key] = item]: the own property is overwritten in place, or
    created after the existing ones. *)
Fixpoint Set_ (o : ItemRecord) (k : string) (item : TranslationItem) : ItemRecord :=
  match o with
  | [] => [(k, item)]
  | (k', it) :: o' =>
      if k' =? k then (k', item) :: o' else (k', it) :: Set_ o' k item
  end.

(** [allItems[key].context = c]: the stored item is mutated where it is.
    When [allItems[key]] is a member of [Object.prototype] the write lands on
    that member and [allItems] keeps its own properties. *)
Fixpoint setContext (o : ItemRecord) (k : string) (c : option string) : ItemRecord :=
  match o with
  | [] => []
  | (k', it) :: o' =>
      if k' =? k
      then (k', mkItem (key it) (value it) c) :: o'
      else (k', it) :: setContext o' k c
  end.

(** An array index is a canonical decimal numeral below [2^32 - 1]. *)
Definition array_index (s : string) : option N :=
  match NilEmpty.uint_of_string s with
  | Some d =>
      let n := N.of_uint d in
      if (NilEmpty.string_of_uint (N.to_uint n) =? s) && (n <? 4294967295)%N
      then Some n
      else None
  | None => None
  end.

Definition is_array_index (s : string) : bool :=
  match array_index s with
  | Some _ => true
  | None => false
  end.

(** [Array.prototype.sort(comparefn)]: for a consistent comparison function
    the result is the stable sorted permutation, computed here by insertion. *)
Section ArraySort.
Context {A : Type}.
Variable comparefn : A -> A -> Z.

Fixpoint insert (x : A) (l : list A) : list A :=
  match l with
  | [] => [x]
  | y :: l' => if (comparefn x y <=? 0)%Z then x :: l else y :: insert x l'
  end.

Fixpoint Array_sort (l : list A) : list A :=
  match l with
  | [] => []
  | x :: l' => insert x (Array_sort l')
  end.
End ArraySort.

Definition compare_index (p q : string * TranslationItem) : Z :=
  match array_index (fst p), array_index (fst q) with
  | Some m, Some n => Z.of_N m - Z.of_N n
  | _, _ => 0
  end.

(** [Object.values(allItems)]: the values of the own properties, those named
    by an array index first, in ascending numeric order, then the others in
    creation order. *)
Definition Object_values (o : ItemRecord) : list TranslationItem :=
  map snd (Array_sort compare_index (filter (fun p => is_array_index (fst p)) o))
  ++ map snd (filter (fun p => negb (is_array_index (fst p))) o).

(** ** Messages *)

(** The two message texts that are built into [str]. *)
Inductive Message : Type :=
| CouldntLoad (path message : string)
| DuplicateKeys (key : string) (value1 : option string) (value2 path : string).

(** One call of [stderr]. *)
Inductive Diagnostic : Type :=
| Warning (str : Message)
| Bare (str : Message)
| DuplicateValues
| PulledContext (key context : string)
| SkippingDuplicate (key : string)
| HashMismatch (value hash key : string).

(** What [main] can be rejected with. *)
Inductive Exception : Type :=
| Error (str : Message)
| TypeError (message : string).

Definition nl : string := String (ascii_of_nat 10) "".

Definition Message_text (m : Message) : string :=
  match m with
  | CouldntLoad path message =>
      "Couldn't load JSON from " ++ path ++ ": " ++ message
  | DuplicateKeys key value1 value2 path =>
      "Found duplicate keys with different values:" ++ nl ++
      "Key: " ++ key ++ nl ++
      "Value 1: " ++ interpolate value1 ++ nl ++
      "Value 2: " ++ value2 ++ " (in file " ++ path ++ ")"
  end%string.

Definition Diagnostic_text (d : Diagnostic) : string :=
  match d with
  | Warning str => "Warning: " ++ Message_text str
  | Bare str => Message_text str
  | DuplicateValues =>
      "Warning: Found duplicate keys with different values:" ++ nl ++ "  "
  | PulledContext key context =>
      "Pulled context from duplicate entry into " ++ key ++ ": " ++ context
  | SkippingDuplicate key => "Skipping duplicate entry for " ++ key
  | HashMismatch value hash key =>
      "Hash mismatch: string " ++ String.String (ascii_of_nat 34) value ++
      String.String (ascii_of_nat 34) " should have key " ++
      String.String (ascii_of_nat 34) hash ++
      String.String (ascii_of_nat 34) " but actually has " ++
      String.String (ascii_of_nat 34) key ++
      String.String (ascii_of_nat 34) ""
  end%string.

(** ** Effects

    A computation yields the diagnostics it wrote to the error stream, in
    order, and either the exception it threw or its value. *)
Definition M (A : Type) : Type := list Diagnostic * (Exception + A).

Definition ret {A : Type} (a : A) : M A := ([], inr a).

Definition bind {A B : Type} (m : M A) (f : A -> M B) : M B :=
  match m with
  | (log, inl e) => (log, inl e)
  | (log, inr a) => (log ++ fst (f a), snd (f a))
  end.

Definition stderr (d : Diagnostic) : M unit := ([d], inr tt).

Definition throw {A : Type} (e : Exception) : M A := ([], inl e).

Notation "x <- m ;; k" := (bind m (fun x => k))
  (at level 61, m at next level, right associativity).
Notation "m ;;; k" := (bind m (fun _ => k))
  (at level 61, right associativity).

(** [for (const x of xs) { s = body(s, x) }], leaving at the first throw. *)
Fixpoint for_of {A S : Type} (xs : list A) (body : S -> A -> M S) (s : S) : M S :=
  match xs with
  | [] => ret s
  | x :: xs' => s' <- body s x ;; for_of xs' body s'
  end.

(** The diagnostics of a run, and the text written to the error stream. *)
Definition diagnostics {A : Type} (m : M A) : list Diagnostic := fst m.
Definition outcome {A : Type} (m : M A) : Exception + A := snd m.
Definition stderr_text {A : Type} (m : M A) : list string :=
  map Diagnostic_text (diagnostics m).

(** ** Reading the items of a parsed file *)

(** [parsed?.translations]. *)
Definition optional_translations (parsed : option json) : option json :=
  match parsed with
  | Some (JObj fields) => field "translations" fields
  | _ => None
  end.

(** [v || []]. *)
Definition or_empty (v : option json) : json :=
  match v with
  | Some j => if truthy j then j else JArr []
  | None => JArr []
  end.

(** Entering [for (const item of items)], as the statement is written: it
    follows the iterator protocol, under which, of these values, only the
    array is iterable.  A build that compiles the statement to an index loop
    differs on the values that are no arrays; [Unchecked.iterate] has both
    builds, and both agree with this definition on arrays. *)
Definition iterate (items : json) : M (list TranslationItem) :=
  match items with
  | JArr l => ret l
  | _ => throw (TypeError "items is not iterable")
  end.

(** ** [src/index.ts] *)
Module Index.

Definition loadAndParse (path : string) (file : Loaded) : M (option json) :=
  match file with
  | Parsed j => ret (Some j)
  | Rejected message =>
      stderr (Bare (CouldntLoad path message)) ;;; ret None
  end.

(** The body of the inner loop of [main]. *)
Definition mergeItem (allItems : ItemRecord) (item : TranslationItem) : M ItemRecord :=
  let key := key item in
  match Get allItems key with
  | Undefined => ret (Set_ allItems key item)
  | existing =>
      if strict_eq (Property_value existing) (Some (value item))
      then stderr (SkippingDuplicate key) ;;; ret allItems
      else stderr DuplicateValues ;;; ret allItems
  end.

(** The body of the outer loop of [main]. *)
Definition mergeFile (allItems : ItemRecord) (file : string * Loaded) : M ItemRecord :=
  parsed <- loadAndParse (fst file) (snd file) ;;
  items <- iterate (or_empty (optional_translations parsed)) ;;
  for_of items mergeItem allItems.

Definition main (files : list (string * Loaded)) : M TranslationObject :=
  allItems <- for_of files mergeFile [] ;;
  ret (mkObject "EN" (Object_values allItems)).

End Index.

(** The options read off [program]. *)
Record Options : Type := mkOptions {
  ignoreErrors : bool;
  sort : bool;
  mergeContext : bool
}.

(** ** The revision with [--ignore-errors], [--no-sort], [--no-merge-context] *)
Module Merge.
Section WithLocale.

(** [a.localeCompare(b)] in the locale of the process. *)
Variable localeCompare : string -> string -> Z.

Definition loadAndParse (path : string) (file : Loaded) (ignoreErrors : bool)
  : M (option json) :=
  match file with
  | Parsed j => ret (Some j)
  | Rejected message =>
      let str := CouldntLoad path message in
      if negb ignoreErrors then throw (Error str)
      else stderr (Warning str) ;;; ret None
  end.

Definition sortTranslations (translations : list TranslationItem)
  : list TranslationItem :=
  Array_sort (fun a b => localeCompare (key a) (key b)) translations.

(** The body of the inner loop of [main]. *)
Definition mergeItem (opts : Options) (path : string)
    (allItems : ItemRecord) (item : TranslationItem) : M ItemRecord :=
  let key := key item in
  match Get allItems key with
  | Undefined => ret (Set_ allItems key item)
  | existing =>
      if strict_eq (Property_value existing) (Some (value item)) then
        if mergeContext opts
           && negb (truthy_string (Property_context existing))
           && truthy_string (context item)
        then
          stderr (PulledContext key (interpolate (context item))) ;;;
          ret (setContext allItems key (context item))
        else stderr (SkippingDuplicate key) ;;; ret allItems
      else
        let str := DuplicateKeys key (Property_value existing) (value item) path in
        if negb (ignoreErrors opts) then throw (Error str)
        else stderr (Warning str) ;;; ret allItems
  end.

(** The body of the outer loop of [main]. *)
Definition mergeFile (opts : Options)
    (allItems : ItemRecord) (file : string * Loaded) : M ItemRecord :=
  parsed <- loadAndParse (fst file) (snd file) (ignoreErrors opts) ;;
  items <- iterate (or_empty (optional_translations parsed)) ;;
  for_of items (mergeItem opts (fst file)) allItems.

(** The value of [translations]: sorted unless [--no-sort] was given. *)
Definition finish (opts : Options) (allItems : ItemRecord) : list TranslationItem :=
  if sort opts then sortTranslations (Object_values allItems)
  else Object_values allItems.

Definition main (opts : Options) (files : list (string * Loaded))
  : M TranslationObject :=
  allItems <- for_of files (mergeFile opts) [] ;;
  let translations := finish opts allItems in
  ret (mkObject "EN" translations).

End WithLocale.
End Merge.

(** ** The revision that adds [--no-md5-check]

    Its [loadAndParse], [sortTranslations] and merge loop are those of
    [Merge], character for character. *)
Module Md5.
Section WithLocale.

Variable localeCompare : string -> string -> Z.
(** The [md5] package on a string. *)
Variable md5 : string -> string.

(** The callback of [translations.forEach]. *)
Definition checkHash (translation : TranslationItem) : M unit :=
  if negb (key translation =? md5 (value translation))
  then stderr (HashMismatch (value translation) (md5 (value translation))
                            (key translation))
  else ret tt.

Definition forEach (translations : list TranslationItem) : M unit :=
  for_of translations (fun _ t => checkHash t) tt.

Definition main (opts : Options) (md5Check : bool)
    (files : list (string * Loaded)) : M TranslationObject :=
  allItems <- for_of files (Merge.mergeFile opts) [] ;;
  let translations := Merge.finish localeCompare opts allItems in
  (if md5Check then forEach translations else ret tt) ;;;
  ret (mkObject "EN" translations).

End WithLocale.
End Md5.

(** ** Input outside the declared interface

    [JSON.parse] returns whatever the file holds, and [main] checks nothing
    before it walks [translations].  The modules above take a [translations]
    that is missing, falsy or an array of entries as it is, and any other
    value as the statement [for (const item of items)] is written.  What a
    build does with a value that is no array depends on how it compiles that
    statement.  [Unchecked] follows [main] over parsed values that include
    strings, for either way of compiling the loop. *)
Module Unchecked.

(** What [JSON.parse] returned, as far as [main] looks into it, strings
    included.  An array is an array of entries, as above; a number is kept
    up to being zero or not; a string is a sequence of code units. *)
Inductive JsonValue : Type :=
| VNull
| VBool (b : bool)
| VNum (n : Z)
| VStr (s : string)
| VArr (items : list TranslationItem)
| VObj (fields : list (string * JsonValue)).

(** What reading and parsing a path settles to. *)
Inductive File : Type :=
| Unreadable (message : string)
| Content (v : JsonValue).

(** What the loop hands to its body: an element of a [translations] array,
    or one character of a [translations] string (a string of length one). *)
Inductive Element : Type :=
| Entry (item : TranslationItem)
| Character (c : ascii).

(** [item.key], [item.value] and [item.context]: a string has none of these
    properties. *)
Definition Element_key (e : Element) : option string :=
  match e with
  | Entry it => Some (key it)
  | Character _ => None
  end.

Definition Element_value (e : Element) : option string :=
  match e with
  | Entry it => Some (value it)
  | Character _ => None
  end.

Definition Element_context (e : Element) : option string :=
  match e with
  | Entry it => context it
  | Character _ => None
  end.

(** How the build compiles [for (const item of items)].

    [IteratorProtocol]: the statement is kept as it is written (targets
    ES2015 and later); of the parsed values only arrays and strings are
    iterable, and any other value makes the statement throw.

    [IndexLoop]: the compiler rewrites the statement (tsc for ES5) to
    [for (var _i = 0, items_1 = items; _i < items_1.length; _i++)
    { var item = items_1[_i]; ... }], which runs zero times over a value
    that has no [length].  What it reads from an object with an own
    [length] need not be entries; that case is left open as [array_like]. *)
Inductive Build : Type :=
| IteratorProtocol
| IndexLoop (array_like : list (string * JsonValue) -> M (list Element)).

Definition truthy (v : JsonValue) : bool :=
  match v with
  | VNull => false
  | VBool b => b
  | VNum n => negb (n =? 0)%Z
  | VStr s => negb (s =? "")
  | VArr _ => true
  | VObj _ => true
  end.

Fixpoint field (name : string) (fields : list (string * JsonValue))
  : option JsonValue :=
  match fields with
  | [] => None
  | (n, v) :: rest => if n =? name then Some v else field name rest
  end.

(** [parsed?.translations]. *)
Definition optional_translations (parsed : option JsonValue) : option JsonValue :=
  match parsed with
  | Some (VObj fields) => field "translations" fields
  | _ => None
  end.

(** [v || []]. *)
Definition or_empty (v : option JsonValue) : JsonValue :=
  match v with
  | Some j => if truthy j then j else VArr []
  | None => VArr []
  end.

Definition characters (s : string) : list Element :=
  map Character (list_ascii_of_string s).

(** Entering [for (const item of items)].  An array and a string are walked
    element by element in both builds.  ([null] never gets here: it is
    falsy.) *)
Definition iterate (build : Build) (items : JsonValue) : M (list Element) :=
  match items with
  | VArr l => ret (map Entry l)
  | VStr s => ret (characters s)
  | VNull => throw (TypeError "items is not iterable")
  | VBool _ | VNum _ =>
      match build with
      | IteratorProtocol => throw (TypeError "items is not iterable")
      | IndexLoop _ => ret []
      end
  | VObj fields =>
      match build with
      | IteratorProtocol => throw (TypeError "items is not iterable")
      | IndexLoop array_like =>
          match field "length" fields with
          | None => ret []
          | Some _ => array_like fields
          end
      end
  end.

(** The plain object [allItems], holding whatever the loop stored. *)
Definition Collection : Type := list (string * Element).

Fixpoint getOwn (o : Collection) (k : string) : option Element :=
  match o with
  | [] => None
  | (k', e) :: o' => if k' =? k then Some e else getOwn o' k
  end.

(** The result of [allItems[key]]. *)
Inductive Property : Type :=
| Own (e : Element)
| Inherited
| Undefined.

Definition Get (o : Collection) (k : string) : Property :=
  match getOwn o k with
  | Some e => Own e
  | None => if inherited k then Inherited else Undefined
  end.

Definition Property_value (p : Property) : option string :=
  match p with
  | Own e => Element_value e
  | _ => None
  end.

Definition Property_context (p : Property) : option string :=
  match p with
  | Own e => Element_context e
  | _ => None
  end.

(** [allItems[key] = item]. *)
Fixpoint Set_ (o : Collection) (k : string) (item : Element) : Collection :=
  match o with
  | [] => [(k, item)]
  | (k', e) :: o' =>
      if k' =? k then (k', item) :: o' else (k', e) :: Set_ o' k item
  end.

Fixpoint setContext (o : Collection) (k : string) (c : option string) : Collection :=
  match o with
  | [] => []
  | (k', e) :: o' =>
      if k' =? k
      then (k', match e with
                | Entry it => Entry (mkItem (key it) (value it) c)
                | Character ch => Character ch
                end) :: o'
      else (k', e) :: setContext o' k c
  end.

(** [allItems[key].context = c]: the stored entry is mutated where it is; a
    write to a member of [Object.prototype] lands on that member; a write
    to a stored character, a primitive, throws in the strict code of a
    module.  (The write is reached only when an entry was stored: see
    [mergeItem].) *)
Definition assignContext (o : Collection) (k : string) (c : option string)
  : M Collection :=
  match getOwn o k with
  | Some (Character _) =>
      throw (TypeError "Cannot create property 'context' on string")
  | _ => ret (setContext o k c)
  end.

Definition compare_index (p q : string * Element) : Z :=
  match array_index (fst p), array_index (fst q) with
  | Some m, Some n => Z.of_N m - Z.of_N n
  | _, _ => 0
  end.

(** [Object.values(allItems)]. *)
Definition Object_values (o : Collection) : list Element :=
  map snd (Array_sort compare_index (filter (fun p => is_array_index (fst p)) o))
  ++ map snd (filter (fun p => negb (is_array_index (fst p))) o).

(** [finalObject], as [JSON.stringify] prints it: an entry as an object, a
    character as a string. *)
Record FinalObject : Type := mkFinalObject {
  language : string;
  translations : list Element
}.

(** The entries, when every element is one. *)
Fixpoint entries (l : list Element) : option (list TranslationItem) :=
  match l with
  | [] => Some []
  | Entry it :: l' => option_map (cons it) (entries l')
  | Character _ :: _ => None
  end.

(** *** [src/index.ts] *)
Module Index.
Section WithBuild.

Variable build : Build.

Definition loadAndParse (path : string) (file : File) : M (option JsonValue) :=
  match file with
  | Content v => ret (Some v)
  | Unreadable message =>
      stderr (Bare (CouldntLoad path message)) ;;; ret None
  end.

(** The body of the inner loop.  [key] is [undefined] for a character; as a
    property name and inside a template literal it reads ["undefined"]. *)
Definition mergeItem (allItems : Collection) (item : Element) : M Collection :=
  let key := interpolate (Element_key item) in
  match Get allItems key with
  | Undefined => ret (Set_ allItems key item)
  | existing =>
      if strict_eq (Property_value existing) (Element_value item)
      then stderr (SkippingDuplicate key) ;;; ret allItems
      else stderr DuplicateValues ;;; ret allItems
  end.

Definition mergeFile (allItems : Collection) (file : string * File) : M Collection :=
  parsed <- loadAndParse (fst file) (snd file) ;;
  items <- iterate build (or_empty (optional_translations parsed)) ;;
  for_of items mergeItem allItems.

Definition main (files : list (string * File)) : M FinalObject :=
  allItems <- for_of files mergeFile [] ;;
  ret (mkFinalObject "EN" (Object_values allItems)).

End WithBuild.
End Index.

(** *** The revision with [--ignore-errors], [--no-sort],
    [--no-merge-context] *)
Module Merge.
Section WithEngine.

Variable localeCompare : string -> string -> Z.
Variable build : Build.

(** [Array.prototype.sort] over two or more elements one of which is a
    character.  The comparison function [(a, b) => a.key.localeCompare(b.key)]
    throws when [a] is the character and reads the missing key of [b] as
    ["undefined"]; which pairs it is called on, and which way round, is the
    choice of the engine, so the result is left open. *)
Variable sort_with_character : list Element -> M (list Element).

Definition loadAndParse (path : string) (file : File) (ignoreErrors : bool)
  : M (option JsonValue) :=
  match file with
  | Content v => ret (Some v)
  | Unreadable message =>
      let str := CouldntLoad path message in
      if negb ignoreErrors then throw (Error str)
      else stderr (Warning str) ;;; ret None
  end.

(** [sortTranslations]: over entries, the stable sort by key; a single
    element is returned without a call of the comparison function. *)
Definition sortTranslations (translations : list Element) : M (list Element) :=
  match entries translations with
  | Some l =>
      ret (map Entry (Array_sort (fun a b => localeCompare (key a) (key b)) l))
  | None =>
      match translations with
      | [_] => ret translations
      | _ => sort_with_character translations
      end
  end.

(** The body of the inner loop. *)
Definition mergeItem (opts : Options) (path : string)
    (allItems : Collection) (item : Element) : M Collection :=
  let key := interpolate (Element_key item) in
  match Get allItems key with
  | Undefined => ret (Set_ allItems key item)
  | existing =>
      if strict_eq (Property_value existing) (Element_value item) then
        if mergeContext opts
           && negb (truthy_string (Property_context existing))
           && truthy_string (Element_context item)
        then
          allItems' <- assignContext allItems key (Element_context item) ;;
          stderr (PulledContext key (interpolate (Element_context item))) ;;;
          ret allItems'
        else stderr (SkippingDuplicate key) ;;; ret allItems
      else
        let str := DuplicateKeys key (Property_value existing)
                                 (interpolate (Element_value item)) path in
        if negb (ignoreErrors opts) then throw (Error str)
        else stderr (Warning str) ;;; ret allItems
  end.

Definition mergeFile (opts : Options)
    (allItems : Collection) (file : string * File) : M Collection :=
  parsed <- loadAndParse (fst file) (snd file) (ignoreErrors opts) ;;
  items <- iterate build (or_empty (optional_translations parsed)) ;;
  for_of items (mergeItem opts (fst file)) allItems.

Definition finish (opts : Options) (allItems : Collection) : M (list Element) :=
  if sort opts then sortTranslations (Object_values allItems)
  else ret (Object_values allItems).

Definition main (opts : Options) (files : list (string * File)) : M FinalObject :=
  allItems <- for_of files (mergeFile opts) [] ;;
  translations <- finish opts allItems ;;
  ret (mkFinalObject "EN" translations).

End WithEngine.
End Merge.

(** *** Vocabulary *)

(** The compiled loop finds nothing to walk in the [translations] of [v]:
    the property is missing or falsy, or, for the index loop, it is a
    number, [true] or an object without an own [length]. *)
Definition nothing_to_walk (build : Build) (v : JsonValue) : bool :=
  match optional_translations (Some v) with
  | None => true
  | Some t =>
      negb (truthy t) ||
      match build, t with
      | IndexLoop _, (VBool _ | VNum _) => true
      | IndexLoop _, VObj fields =>
          match field "length" fields with
          | None => true
          | Some _ => false
          end
      | _, _ => false
      end
  end.

(** The [translations] of [v] is truthy and neither an array nor a string:
    a number other than zero, [true], or an object. *)
Definition neither_array_nor_string (v : JsonValue) : bool :=
  match optional_translations (Some v) with
  | Some (VBool b) => b
  | Some (VNum n) => negb (n =? 0)%Z
  | Some (VObj _) => true
  | _ => false
  end.

End Unchecked.

(** A value, a file and a document of the declared interface, as [Unchecked]
    has them. *)
Fixpoint unchecked (j : json) : Unchecked.JsonValue :=
  match j with
  | JNull => Unchecked.VNull
  | JBool b => Unchecked.VBool b
  | JNum n => Unchecked.VNum n
  | JArr items => Unchecked.VArr items
  | JObj fields =>
      Unchecked.VObj
        ((fix each (l : list (string * json)) : list (string * Unchecked.JsonValue) :=
            match l with
            | [] => []
            | (n, v) :: l' => (n, unchecked v) :: each l'
            end) fields)
  end.

Definition unchecked_file (file : string * Loaded) : string * Unchecked.File :=
  (fst file,
   match snd file with
   | Rejected message => Unchecked.Unreadable message
   | Parsed j => Unchecked.Content (unchecked j)
   end).

Definition unchecked_document (doc : TranslationObject) : Unchecked.FinalObject :=
  Unchecked.mkFinalObject (language doc) (map Unchecked.Entry (translations doc)).

Definition unchecked_collection (o : ItemRecord) : Unchecked.Collection :=
  map (fun p => (fst p, Unchecked.Entry (snd p))) o.

(** The [translations] walked for the file is no object with an own
    [length]. *)
Definition no_own_length (file : Loaded) : bool :=
  match file with
  | Parsed j =>
      match or_empty (optional_translations (Some j)) with
      | JObj fields =>
          match field "length" fields with
          | None => true
          | Some _ => false
          end
      | _ => true
      end
  | Rejected _ => true
  end.

(** ** Vocabulary of the statements *)

(** The items a file hands to the inner loop when the run gets through it. *)
Definition items_of (file : Loaded) : list TranslationItem :=
  match file with
  | Parsed j =>
      match or_empty (optional_translations (Some j)) with
      | JArr l => l
      | _ => []
      end
  | Rejected _ => []
  end.

(** All input entries, files in order and entries in list order. *)
Definition input_items (files : list (string * Loaded)) : list TranslationItem :=
  flat_map (fun f => items_of (snd f)) files.

(** A well-formed input document holding [items]. *)
Definition document (items : list TranslationItem) : Loaded :=
  Parsed (JObj [("translations", JArr items)]).

(** The keys of [ks] that are not in [seen], each at its first occurrence. *)
Fixpoint first_seen_from (seen ks : list string) : list string :=
  match ks with
  | [] => []
  | k :: ks' =>
      if existsb (String.eqb k) seen then first_seen_from seen ks'
      else k :: first_seen_from (seen ++ [k]) ks'
  end.

(** The order in which each key was first seen. *)
Definition first_seen_order (ks : list string) : list string :=
  first_seen_from [] ks.

Definition compare_keys (a b : string) : Z :=
  match array_index a, array_index b with
  | Some m, Some n => Z.of_N m - Z.of_N n
  | _, _ => 0
  end.

(** The order of own property keys: array indices ascending, then the other
    keys as they were created. *)
Definition own_key_order (ks : list string) : list string :=
  Array_sort compare_keys (filter is_array_index ks)
  ++ filter (fun k => negb (is_array_index k)) ks.

(** Two array-index keys in ascending numeric order. *)
Definition index_le (a b : string) : Prop :=
  exists m n, array_index a = Some m /\ array_index b = Some n /\ (m <= n)%N.

(** The run of [Merge]'s loops over [before ++ (path, Parsed j) :: _] comes
    to [item], an element of the translations of [j], holding [allItems]. *)
Definition arrives (opts : Options) (before : list (string * Loaded))
    (path : string) (j : json) (earlier : list TranslationItem)
    (item : TranslationItem) (later : list TranslationItem)
    (allItems : ItemRecord) : Prop :=
  or_empty (optional_translations (Some j)) = JArr (earlier ++ item :: later) /\
  exists s0,
    outcome (for_of before (Merge.mergeFile opts) []) = inr s0 /\
    outcome (for_of earlier (Merge.mergeItem opts path) s0) = inr allItems.

(** What later entries may do to a stored entry: key and value stay, and the
    context stays or, under [mergeContext], goes from empty to non-empty. *)
Definition only_context_backfilled (opts : Options) (x x' : TranslationItem) : Prop :=
  key x' = key x /\ value x' = value x /\
  (context x' = context x \/
   (mergeContext opts = true /\ truthy_string (context x) = false /\
    truthy_string (context x') = true)).

(** The item with a missing [context] defaulted to the empty string. *)
Definition default_context (it : TranslationItem) : TranslationItem :=
  mkItem (key it) (value it)
         (match context it with None => Some "" | Some c => Some c end).

Definition default_contexts (file : string * Loaded) : string * Loaded :=
  match snd file with
  | Parsed (JObj fields) =>
      (fst file,
       Parsed (JObj (map (fun nv =>
                            match snd nv with
                            | JArr l => (fst nv, JArr (map default_context l))
                            | _ => nv
                            end) fields)))
  | _ => file
  end.

(** The invariant of [allItems]: own property names are distinct, and each
    item is stored under its key. *)
Definition well_keyed (o : ItemRecord) : Prop :=
  NoDup (map fst o) /\ Forall (fun p => key (snd p) = fst p) o.

(** Comparison by code units, a consistent comparison function (the collation
    of a locale that orders strings by their code units). *)
Definition codeUnitCompare (a b : string) : Z :=
  match String.compare a b with
  | Lt => -1
  | Eq => 0
  | Gt => 1
  end.

(** The options as [commander] sets them when no flag is given, and with
    [--ignore-errors]. *)
Definition strict : Options := mkOptions false true true.
Definition lenient : Options := mkOptions true true true.

(** What is left of the run once it has come to [item]. *)
Definition remainder (opts : Options) (path : string) (allItems : ItemRecord)
    (item : TranslationItem) (later : list TranslationItem)
    (after : list (string * Loaded)) : M ItemRecord :=
  s1 <- Merge.mergeItem opts path allItems item ;;
  s2 <- for_of later (Merge.mergeItem opts path) s1 ;;
  for_of after (Merge.mergeFile opts) s2.

(** The diagnostics of the hash check over the output entries. *)
Definition hash_mismatches (md5 : string -> string)
    (translations : list TranslationItem) : list Diagnostic :=
  flat_map (fun t =>
              if negb (key t =? md5 (value t))
              then [HashMismatch (value t) (md5 (value t)) (key t)]
              else []) translations.

Definition is_HashMismatch (d : Diagnostic) : bool :=
  match d with
  | HashMismatch _ _ _ => true
  | _ => false
  end.

(** The parsed value has no [translations] property, or a falsy one. *)
Definition lacks_translations (j : json) : bool :=
  match optional_translations (Some j) with
  | None => true
  | Some v => negb (truthy v)
  end.

(** The file loads to a value whose [translations] is an array, or is
    missing or falsy and so replaced by the empty array. *)
Definition is_document (file : Loaded) : bool :=
  match file with
  | Parsed j =>
      match or_empty (optional_translations (Some j)) with
      | JArr _ => true
      | _ => false
      end
  | Rejected _ => false
  end.

(** An item as the own property it becomes. *)
Definition property_of (it : TranslationItem) : string * TranslationItem :=
  (key it, it).

(** The image of a computation under a map of its value. *)
Definition M_map {A B : Type} (g : A -> B) (m : M A) : M B :=
  (fst m, match snd m with inl e => inl e | inr a => inr (g a) end).

(** The collection with every missing [context] defaulted. *)
Definition default_stored (o : ItemRecord) : ItemRecord :=
  map (fun p => (fst p, default_context (snd p))) o.

(** [e0] is the entry under which key [k] was first seen in [processed]. *)
Definition first_seen_as (processed : list TranslationItem) (k : string)
    (e0 : TranslationItem) : Prop :=
  exists l1 l2, processed = l1 ++ e0 :: l2 /\ key e0 = k /\
                Forall (fun e => key e <> k) l1.

(** What ties a collection to the entries processed so far: every stored
    entry is the first-seen entry of its key, up to a backfilled context,
    and every processed key that can be stored is stored. *)
Definition collects (opts : Options) (processed : list TranslationItem)
    (s : ItemRecord) : Prop :=
  (forall k x, getOwn s k = Some x ->
     exists e0, first_seen_as processed k e0 /\ only_context_backfilled opts e0 x) /\
  (forall e, In e processed -> inherited (key e) = false -> In (key e) (map fst s)).

(** The three ways a step that returns can leave [allItems]. *)
Inductive step (opts : Options) (s : ItemRecord) (item : TranslationItem)
  : ItemRecord -> Prop :=
| step_created :
    getOwn s (key item) = None -> inherited (key item) = false ->
    step opts s item (s ++ [(key item, item)])
| step_kept :
    Get s (key item) <> Undefined ->
    step opts s item s
| step_backfilled x :
    getOwn s (key item) = Some x -> value x = value item ->
    mergeContext opts = true ->
    truthy_string (context x) = false ->
    truthy_string (context item) = true ->
    step opts s item (setContext s (key item) (context item)).

(** ** The rest of the program

    [expandGlobPatterns] and the handler at the end of each revision, which
    are the same text in [src/index.ts] and in the later revisions. *)

(** [fileSet.add(path)] on a [Set<string>], kept as its elements in
    insertion order (the order [Array.from] reads them in). *)
Definition Set_add (fileSet : list string) (path : string) : list string :=
  if existsb (String.eqb path) fileSet then fileSet else fileSet ++ [path].

(** [expandGlobPatterns], over what [asyncGlob] resolves to for a pattern. *)
Definition expandGlobPatterns (asyncGlob : string -> list string)
    (patterns : list string) : list string :=
  let allPatterns := map asyncGlob patterns in
  let flattened := List.concat allPatterns in
  fold_left Set_add flattened [].

(** [`${err}`] for what [main] was rejected with. *)
Definition Exception_text (e : Exception) : string :=
  match e with
  | Error str => "Error: " ++ Message_text str
  | TypeError message => "TypeError: " ++ message
  end%string.

(** What the process leaves behind: the document written to the output
    stream, if any, the lines on the error stream, and the exit code. *)
Record Process : Type := mkProcess {
  stdout_document : option TranslationObject;
  stderr_lines : list string;
  exit_code : Z
}.

(** [main().catch(err => { stderr(`Unhandled exception: ${err}`);
    process.exit(1) })], around a run of [main]. *)
Definition settle (run : M TranslationObject) : Process :=
  match outcome run with
  | inr doc => mkProcess (Some doc) (stderr_text run) 0
  | inl err =>
      mkProcess None
        (stderr_text run ++ [("Unhandled exception: " ++ Exception_text err)%string])
        1
  end.

(** ** Further vocabulary *)

(** The file loads to a value whose [translations] is truthy and no array:
    input outside the declared interface. *)
Definition truthy_non_array (file : Loaded) : bool :=
  match file with
  | Parsed j =>
      match or_empty (optional_translations (Some j)) with
      | JArr _ => false
      | _ => true
      end
  | Rejected _ => false
  end.

Definition is_rejected (file : Loaded) : bool :=
  match file with
  | Rejected _ => true
  | Parsed _ => false
  end.

(** No key names a member of [Object.prototype], and entries of one key
    have one value. *)
Definition conflict_free (items : list TranslationItem) : Prop :=
  Forall (fun e => inherited (key e) = false) items /\
  forall e1 e2, In e1 items -> In e2 items -> key e1 = key e2 ->
                value e1 = value e2.

(** The key and the value of an entry. *)
Definition key_value (it : TranslationItem) : string * string :=
  (key it, value it).

(** A diagnostic of [Merge] as [src/index.ts] words it. *)
Definition as_index (d : Diagnostic) : Diagnostic :=
  match d with
  | Warning (CouldntLoad path message) => Bare (CouldntLoad path message)
  | Warning (DuplicateKeys _ _ _ _) => DuplicateValues
  | d => d
  end.

(** A comparison that orders strings the way a collation does: of two
    strings one goes first, and the order is transitive.  Distinct strings
    may compare equal. *)
Definition collation (compare : string -> string -> Z) : Prop :=
  (forall a b, (compare a b > 0)%Z -> (compare b a <= 0)%Z) /\
  (forall a b c, (compare a b <= 0)%Z -> (compare b c <= 0)%Z ->
                 (compare a c <= 0)%Z).

(** No two distinct strings of [ks] compare equal. *)
Definition distinguishes (compare : string -> string -> Z) (ks : list string)
  : Prop :=
  forall a b, In a ks -> In b ks ->
              (compare a b <= 0)%Z -> (compare b a <= 0)%Z -> a = b.

(** [e] goes neither before nor after [x]: the two keys compare equal. *)
Definition same_rank (compare : string -> string -> Z) (x e : TranslationItem)
  : bool :=
  (compare (key x) (key e) <=? 0)%Z && (compare (key e) (key x) <=? 0)%Z.

(** The options with [sort], or [mergeContext], set to a given value. *)
Definition with_sort (b : bool) (opts : Options) : Options :=
  mkOptions (ignoreErrors opts) b (mergeContext opts).

Definition with_mergeContext (b : bool) (opts : Options) : Options :=
  mkOptions (ignoreErrors opts) (sort opts) b.

Definition with_ignoreErrors (b : bool) (opts : Options) : Options :=
  mkOptions b (sort opts) (mergeContext opts).

(** What a strict run keeps: own keys name no member of [Object.prototype],
    and every processed entry finds its value stored under its key. *)
Definition holds_all (processed : list TranslationItem) (s : ItemRecord) : Prop :=
  (forall k, In k (map fst s) -> inherited k = false) /\
  (forall e, In e processed ->
     exists x, getOwn s (key e) = Some x /\ value x = value e).

(** Two entries, and two collections, that agree on keys and values. *)
Definition same_key_value (y1 y2 : TranslationItem) : Prop :=
  key_value y1 = key_value y2.

Definition same_properties (s1 s2 : ItemRecord) : Prop :=
  Forall2 (fun p q => fst p = fst q /\ same_key_value (snd p) (snd q)) s1 s2.

(** Two computations that write as many diagnostics and end alike: with the
    same exception, or with related values. *)
Definition M_rel {A B : Type} (R : A -> B -> Prop) (m1 : M A) (m2 : M B) : Prop :=
  List.length (fst m1) = List.length (fst m2) /\
  match snd m1, snd m2 with
  | inl e1, inl e2 => e1 = e2
  | inr a, inr b => R a b
  | _, _ => False
  end.

(** A computation with every diagnostic reworded. *)
Definition reword {A : Type} (f : Diagnostic -> Diagnostic) (m : M A) : M A :=
  (map f (fst m), snd m).

(** The message names a file of the input: one that could not be loaded,
    with its error text, or one that holds an entry with the key and the
    second value of the conflict. *)
Definition names_input (files : list (string * Loaded)) (str : Message) : Prop :=
  match str with
  | CouldntLoad path message => In (path, Rejected message) files
  | DuplicateKeys k _ value2 path =>
      exists f item, In (path, f) files /\ In item (items_of f) /\
                     key item = k /\ value item = value2
  end.

(** Every warning written and the error thrown, if any, satisfy [P]. *)
Definition all_messages {A : Type} (P : Message -> Prop) (m : M A) : Prop :=
  Forall (fun d => match d with Warning str => P str | _ => True end) (fst m) /\
  match snd m with
  | inl (Error str) => P str
  | _ => True
  end.

(** Where a stored non-empty context comes from: an entry processed so
    far that has the key and the value of the stored entry. *)
Definition contexts_from (processed : list TranslationItem) (s : ItemRecord)
  : Prop :=
  forall k x, getOwn s k = Some x -> truthy_string (context x) = true ->
    exists e, In e processed /\ key e = k /\ value e = value x /\
              context e = context x.

(** ** The monad *)

Lemma bind_ret {A B : Type} (a : A) (f : A -> M B) : bind (ret a) f = f a.
Proof. unfold bind, ret. simpl. now destruct (f a). Qed.

Lemma bind_throw {A B : Type} (e : Exception) (f : A -> M B) :
  bind (throw e) f = throw e.
Proof. reflexivity. Qed.

Lemma bind_assoc {A B C : Type} (m : M A) (f : A -> M B) (g : B -> M C) :
  bind (bind m f) g = bind m (fun a => bind (f a) g).
Proof.
  destruct m as [log [e | a]]; simpl; [reflexivity |].
  destruct (f a) as [log' [e | b]]; simpl; [reflexivity |].
  now rewrite app_assoc.
Qed.

(** A bind that returns has run both halves. *)
Lemma bind_inr {A B : Type} (m : M A) (f : A -> M B) (b : B) :
  outcome (bind m f) = inr b ->
  exists a, outcome m = inr a /\ outcome (f a) = inr b /\
            diagnostics (bind m f) = diagnostics m ++ diagnostics (f a).
Proof.
  destruct m as [log [e | a]]; unfold outcome, diagnostics; simpl;
    [discriminate |].
  intros H. exists a. repeat split. exact H.
Qed.

Lemma bind_outcome {A B : Type} (m : M A) (f : A -> M B) (a : A) :
  outcome m = inr a -> outcome (bind m f) = outcome (f a).
Proof. destruct m as [log [e | a']]; unfold outcome; simpl; congruence. Qed.

Lemma bind_inl {A B : Type} (m : M A) (f : A -> M B) (e : Exception) :
  outcome m = inl e -> bind m f = (diagnostics m, inl e).
Proof.
  destruct m as [log [e' | a]]; unfold outcome, diagnostics; simpl; congruence.
Qed.

Lemma bind_run {A B : Type} (m : M A) (f : A -> M B) (a : A) :
  outcome m = inr a ->
  bind m f = (diagnostics m ++ diagnostics (f a), outcome (f a)).
Proof.
  destruct m as [log [e | a']]; unfold outcome, diagnostics; simpl;
    [discriminate |].
  now intros [= ->].
Qed.

Lemma bind_ext {A B : Type} (m : M A) (f g : A -> M B) :
  (forall a, f a = g a) -> bind m f = bind m g.
Proof.
  intros H. destruct m as [log [e | a]]; simpl; [reflexivity |].
  now rewrite H.
Qed.

Lemma for_of_app {A S : Type} (xs ys : list A) (body : S -> A -> M S) (s : S) :
  for_of (xs ++ ys) body s = bind (for_of xs body s) (for_of ys body).
Proof.
  revert s. induction xs as [| x xs IH]; intros s; cbn [app for_of].
  - now rewrite bind_ret.
  - rewrite bind_assoc. apply bind_ext. intros s'. apply IH.
Qed.

(** A property that every step keeps is kept by the loop. *)
Lemma for_of_invariant {A S : Type} (P : S -> Prop) (body : S -> A -> M S) :
  (forall s x s', P s -> outcome (body s x) = inr s' -> P s') ->
  forall xs s s', P s -> outcome (for_of xs body s) = inr s' -> P s'.
Proof.
  intros Hstep xs. induction xs as [| x xs IH]; intros s s' Hs Hrun.
  - unfold outcome in Hrun. simpl in Hrun. now injection Hrun as <-.
  - cbn [for_of] in Hrun. apply bind_inr in Hrun as (s1 & H1 & H2 & _).
    eapply IH; [| exact H2]. eapply Hstep; eassumption.
Qed.

(** ** The plain object *)

Lemma getOwn_In (o : ItemRecord) (k : string) (x : TranslationItem) :
  getOwn o k = Some x -> In (k, x) o.
Proof.
  induction o as [| [k' it] o IH]; simpl; [discriminate |].
  destruct (k' =? k) eqn:E.
  - apply String.eqb_eq in E as ->. intros [= ->]. now left.
  - intros H. right. now apply IH.
Qed.

Lemma getOwn_None (o : ItemRecord) (k : string) :
  getOwn o k = None <-> ~ In k (map fst o).
Proof.
  induction o as [| [k' it] o IH]; simpl; [tauto |].
  destruct (k' =? k) eqn:E.
  - apply String.eqb_eq in E as ->. split; [discriminate | tauto].
  - apply String.eqb_neq in E. rewrite IH. tauto.
Qed.

Lemma In_getOwn (o : ItemRecord) (k : string) (x : TranslationItem) :
  NoDup (map fst o) -> In (k, x) o -> getOwn o k = Some x.
Proof.
  induction o as [| [k' it] o IH]; simpl; [tauto |].
  intros Hnd [H | H].
  - injection H as -> ->. now rewrite String.eqb_refl.
  - inversion Hnd as [| ? ? Hnot Hnd']; subst.
    destruct (k' =? k) eqn:E.
    + apply String.eqb_eq in E as ->. exfalso. apply Hnot.
      now apply (in_map fst) in H.
    + now apply IH.
Qed.

Lemma Set_fresh (o : ItemRecord) (k : string) (item : TranslationItem) :
  getOwn o k = None -> Set_ o k item = o ++ [(k, item)].
Proof.
  induction o as [| [k' it] o IH]; simpl; [reflexivity |].
  destruct (k' =? k); [discriminate |].
  intros H. now rewrite IH.
Qed.

Lemma setContext_keys (o : ItemRecord) (k : string) (c : option string) :
  map fst (setContext o k c) = map fst o.
Proof.
  induction o as [| [k' it] o IH]; simpl; [reflexivity |].
  destruct (k' =? k); simpl; [reflexivity | now rewrite IH].
Qed.

Lemma getOwn_setContext (o : ItemRecord) (k k' : string) (c : option string) :
  getOwn (setContext o k c) k' =
  if k =? k'
  then option_map (fun it => mkItem (key it) (value it) c) (getOwn o k')
  else getOwn o k'.
Proof.
  induction o as [| [k0 it] o IH]; simpl.
  - now destruct (k =? k').
  - destruct (k0 =? k) eqn:E0; simpl.
    + apply String.eqb_eq in E0 as ->.
      destruct (k =? k') eqn:E; reflexivity.
    + rewrite IH. destruct (k0 =? k') eqn:E1; [| reflexivity].
      apply String.eqb_eq in E1 as ->. now rewrite String.eqb_sym, E0.
Qed.

Lemma getOwn_app (o : ItemRecord) (k k' : string) (item : TranslationItem) :
  getOwn (o ++ [(k, item)]) k' =
  match getOwn o k' with
  | Some x => Some x
  | None => if k =? k' then Some item else None
  end.
Proof.
  induction o as [| [k0 it] o IH]; simpl; [reflexivity |].
  destruct (k0 =? k'); [reflexivity | exact IH].
Qed.

Lemma Get_Own (o : ItemRecord) (k : string) (x : TranslationItem) :
  Get o k = Own x <-> getOwn o k = Some x.
Proof.
  unfold Get. destruct (getOwn o k).
  - split; congruence.
  - destruct (inherited k); split; discriminate.
Qed.

Lemma Get_Undefined (o : ItemRecord) (k : string) :
  Get o k = Undefined <-> getOwn o k = None /\ inherited k = false.
Proof.
  unfold Get. destruct (getOwn o k).
  - split; [discriminate | intros [H _]; discriminate].
  - destruct (inherited k); split; try discriminate; try tauto.
    intros [_ H]; discriminate.
Qed.

Lemma Get_Inherited_name (o : ItemRecord) (k : string) :
  Get o k = Inherited -> inherited k = true.
Proof.
  unfold Get. destruct (getOwn o k); [discriminate |].
  now destruct (inherited k).
Qed.

Lemma strict_eq_Some (a b : string) : strict_eq (Some a) (Some b) = true <-> a = b.
Proof. simpl. apply String.eqb_eq. Qed.

Lemma well_keyed_nil : well_keyed [].
Proof. split; constructor. Qed.

Lemma well_keyed_getOwn (o : ItemRecord) (k : string) (x : TranslationItem) :
  well_keyed o -> getOwn o k = Some x -> key x = k.
Proof.
  intros [_ Hk] H. apply getOwn_In in H.
  rewrite Forall_forall in Hk. exact (Hk _ H).
Qed.

Lemma well_keyed_app (o : ItemRecord) (item : TranslationItem) :
  well_keyed o -> getOwn o (key item) = None ->
  well_keyed (o ++ [(key item, item)]).
Proof.
  intros [Hnd Hk] Hnone. split.
  - rewrite map_app. simpl. apply NoDup_app; [exact Hnd | |].
    + constructor; [simpl; tauto | constructor].
    + intros k Hin [<- | []]. now apply getOwn_None in Hnone.
  - apply Forall_app. split; [exact Hk |]. now constructor.
Qed.

Lemma well_keyed_setContext (o : ItemRecord) (k : string) (c : option string) :
  well_keyed o -> well_keyed (setContext o k c).
Proof.
  intros [Hnd Hk]. split.
  - now rewrite setContext_keys.
  - clear Hnd. induction o as [| [k' it] o IH]; simpl; [constructor |].
    inversion Hk as [| ? ? Hhd Htl]; subst.
    destruct (k' =? k); constructor; auto.
Qed.

(** ** One step of the inner loop *)

Lemma mergeItem_step (opts : Options) (path : string) (s s' : ItemRecord)
    (item : TranslationItem) :
  outcome (Merge.mergeItem opts path s item) = inr s' -> step opts s item s'.
Proof.
  unfold Merge.mergeItem.
  destruct (Get s (key item)) as [x | |] eqn:HG.
  - apply Get_Own in HG. simpl Property_value. simpl Property_context.
    destruct (strict_eq (Some (value x)) (Some (value item))) eqn:Hv.
    + apply strict_eq_Some in Hv.
      destruct (mergeContext opts) eqn:Hm; simpl andb.
      * destruct (truthy_string (context x)) eqn:Hx; simpl andb.
        -- intros [= <-]. apply step_kept. unfold Get. now rewrite HG.
        -- destruct (truthy_string (context item)) eqn:Hi.
           ++ intros [= <-]. now apply step_backfilled with x.
           ++ intros [= <-]. apply step_kept. unfold Get. now rewrite HG.
      * intros [= <-]. apply step_kept. unfold Get. now rewrite HG.
    + destruct (ignoreErrors opts); simpl negb; cbv iota.
      * intros [= <-]. apply step_kept. unfold Get. now rewrite HG.
      * discriminate.
  - simpl Property_value. simpl strict_eq. cbv iota.
    destruct (ignoreErrors opts); simpl negb; cbv iota.
    + intros [= <-]. apply step_kept. congruence.
    + discriminate.
  - apply Get_Undefined in HG as [Hn Hi].
    intros [= <-]. rewrite (Set_fresh _ _ _ Hn). now apply step_created.
Qed.

Lemma step_well_keyed (opts : Options) (s s' : ItemRecord) (item : TranslationItem) :
  step opts s item s' -> well_keyed s -> well_keyed s'.
Proof.
  intros [Hn _ | _ | x _ _ _ _ _] Hwf.
  - now apply well_keyed_app.
  - exact Hwf.
  - now apply well_keyed_setContext.
Qed.

Lemma only_context_backfilled_refl (opts : Options) (x : TranslationItem) :
  only_context_backfilled opts x x.
Proof. repeat split. now left. Qed.

Lemma only_context_backfilled_trans (opts : Options) (x y z : TranslationItem) :
  only_context_backfilled opts x y -> only_context_backfilled opts y z ->
  only_context_backfilled opts x z.
Proof.
  intros (Hk & Hv & Hc) (Hk' & Hv' & Hc'). repeat split; try congruence.
  destruct Hc as [Hc | (Hm & Hx & Hy)], Hc' as [Hc' | (Hm' & Hy' & Hz)].
  - left. congruence.
  - right. repeat split; congruence.
  - right. repeat split; congruence.
  - congruence.
Qed.

(** A step keeps every stored entry, up to a backfilled context. *)
Lemma step_frame (opts : Options) (s s' : ItemRecord) (item x : TranslationItem)
    (k : string) :
  step opts s item s' -> getOwn s k = Some x ->
  exists x', getOwn s' k = Some x' /\ only_context_backfilled opts x x'.
Proof.
  intros [Hn _ | _ | y Hy Hv Hm Hcy Hci] Hx.
  - exists x. split; [| apply only_context_backfilled_refl].
    now rewrite getOwn_app, Hx.
  - exists x. split; [exact Hx | apply only_context_backfilled_refl].
  - rewrite getOwn_setContext. destruct (key item =? k) eqn:E.
    + apply String.eqb_eq in E as <-. rewrite Hx. simpl.
      eexists. split; [reflexivity |].
      assert (y = x) as -> by congruence.
      repeat split; simpl. right. now repeat split.
    + exists x. split; [exact Hx | apply only_context_backfilled_refl].
Qed.

Lemma step_keeps_keys (opts : Options) (s s' : ItemRecord)
    (item : TranslationItem) (k : string) :
  step opts s item s' -> In k (map fst s) -> In k (map fst s').
Proof.
  intros [_ _ | _ | x _ _ _ _ _] Hk.
  - rewrite map_app. apply in_or_app. now left.
  - exact Hk.
  - now rewrite setContext_keys.
Qed.

Lemma step_stores (opts : Options) (s s' : ItemRecord) (item : TranslationItem) :
  step opts s item s' -> inherited (key item) = false ->
  In (key item) (map fst s').
Proof.
  intros [_ _ | HG | x Hx _ _ _ _] Hni.
  - rewrite map_app. apply in_or_app. right. now left.
  - destruct (getOwn s (key item)) as [x |] eqn:E.
    + apply getOwn_In in E. now apply (in_map fst) in E.
    + exfalso. apply HG. now apply Get_Undefined.
  - rewrite setContext_keys. apply getOwn_In in Hx. now apply (in_map fst) in Hx.
Qed.

(** ** One step of the outer loop *)

Lemma mergeFile_Parsed (opts : Options) (s : ItemRecord) (path : string) (j : json) :
  Merge.mergeFile opts s (path, Parsed j) =
  bind (iterate (or_empty (optional_translations (Some j))))
       (fun items => for_of items (Merge.mergeItem opts path) s).
Proof.
  unfold Merge.mergeFile, Merge.loadAndParse. cbn [fst snd]. now rewrite bind_ret.
Qed.

Lemma mergeFile_Rejected_strict (opts : Options) (s : ItemRecord)
    (path message : string) :
  ignoreErrors opts = false ->
  Merge.mergeFile opts s (path, Rejected message) =
  ([], inl (Error (CouldntLoad path message))).
Proof. intros H. unfold Merge.mergeFile, Merge.loadAndParse. simpl. now rewrite H. Qed.

Lemma mergeFile_Rejected_lenient (opts : Options) (s : ItemRecord)
    (path message : string) :
  ignoreErrors opts = true ->
  Merge.mergeFile opts s (path, Rejected message) =
  ([Warning (CouldntLoad path message)], inr s).
Proof. intros H. unfold Merge.mergeFile, Merge.loadAndParse. simpl. now rewrite H. Qed.

(** A file the run gets through has handed [items_of] to the inner loop. *)
Lemma mergeFile_items (opts : Options) (s s' : ItemRecord) (f : string * Loaded) :
  outcome (Merge.mergeFile opts s f) = inr s' ->
  outcome (for_of (items_of (snd f)) (Merge.mergeItem opts (fst f)) s) = inr s'.
Proof.
  destruct f as [path [message | j]]; cbn [fst snd items_of].
  - destruct (ignoreErrors opts) eqn:E.
    + rewrite (mergeFile_Rejected_lenient _ _ _ _ E). exact (fun H => H).
    + rewrite (mergeFile_Rejected_strict _ _ _ _ E). discriminate.
  - rewrite mergeFile_Parsed.
    destruct (or_empty (optional_translations (Some j))); try discriminate.
    unfold iterate. now rewrite bind_ret.
Qed.

Lemma items_well_keyed (opts : Options) (path : string) (items : list TranslationItem)
    (s s' : ItemRecord) :
  well_keyed s ->
  outcome (for_of items (Merge.mergeItem opts path) s) = inr s' -> well_keyed s'.
Proof.
  apply for_of_invariant. intros s0 x s1 Hwf H.
  apply mergeItem_step in H. eapply step_well_keyed; eassumption.
Qed.

Lemma files_well_keyed (opts : Options) (files : list (string * Loaded))
    (s s' : ItemRecord) :
  well_keyed s ->
  outcome (for_of files (Merge.mergeFile opts) s) = inr s' -> well_keyed s'.
Proof.
  apply for_of_invariant. intros s0 f s1 Hwf H.
  apply mergeFile_items in H. eapply items_well_keyed; eassumption.
Qed.

Lemma items_frame (opts : Options) (path : string) (items : list TranslationItem)
    (k : string) (x : TranslationItem) (s s' : ItemRecord) :
  getOwn s k = Some x ->
  outcome (for_of items (Merge.mergeItem opts path) s) = inr s' ->
  exists x', getOwn s' k = Some x' /\ only_context_backfilled opts x x'.
Proof.
  intros Hx Hrun.
  apply (for_of_invariant
           (fun s => exists x', getOwn s k = Some x' /\
                                only_context_backfilled opts x x')
           (Merge.mergeItem opts path)) with (xs := items) (s := s);
    [| exists x; split; [exact Hx | apply only_context_backfilled_refl] | exact Hrun].
  intros s0 i s1 (y & Hy & Hxy) H. apply mergeItem_step in H.
  destruct (step_frame _ _ _ _ _ _ H Hy) as (z & Hz & Hyz).
  exists z. split; [exact Hz |]. eapply only_context_backfilled_trans; eassumption.
Qed.

Lemma files_frame (opts : Options) (files : list (string * Loaded))
    (k : string) (x : TranslationItem) (s s' : ItemRecord) :
  getOwn s k = Some x ->
  outcome (for_of files (Merge.mergeFile opts) s) = inr s' ->
  exists x', getOwn s' k = Some x' /\ only_context_backfilled opts x x'.
Proof.
  intros Hx Hrun.
  apply (for_of_invariant
           (fun s => exists x', getOwn s k = Some x' /\
                                only_context_backfilled opts x x')
           (Merge.mergeFile opts)) with (xs := files) (s := s);
    [| exists x; split; [exact Hx | apply only_context_backfilled_refl] | exact Hrun].
  intros s0 f s1 (y & Hy & Hxy) H. apply mergeFile_items in H.
  destruct (items_frame _ _ _ _ _ _ _ Hy H) as (z & Hz & Hyz).
  exists z. split; [exact Hz |]. eapply only_context_backfilled_trans; eassumption.
Qed.

(** ** Sorting and enumeration *)

Section SortFacts.
Context {A : Type}.
Variable comparefn : A -> A -> Z.

Lemma insert_Permutation (x : A) (l : list A) :
  Permutation (insert comparefn x l) (x :: l).
Proof.
  induction l as [| y l IH]; simpl; [reflexivity |].
  destruct (comparefn x y <=? 0)%Z; [reflexivity |].
  rewrite IH. apply perm_swap.
Qed.

Lemma Array_sort_Permutation (l : list A) : Permutation (Array_sort comparefn l) l.
Proof.
  induction l as [| x l IH]; simpl; [reflexivity |].
  rewrite insert_Permutation. now constructor.
Qed.

(** What makes [comparefn] usable: of two elements, one goes first. *)
Hypothesis comparefn_total :
  forall a b, (comparefn a b > 0)%Z -> (comparefn b a <= 0)%Z.

Lemma insert_HdRel (a x : A) (l : list A) :
  (comparefn a x <= 0)%Z -> HdRel (fun a b => comparefn a b <= 0)%Z a l ->
  HdRel (fun a b => comparefn a b <= 0)%Z a (insert comparefn x l).
Proof.
  intros Hax Hal. destruct l as [| y l]; simpl; [now constructor |].
  destruct (comparefn x y <=? 0)%Z; constructor; [exact Hax |].
  now inversion Hal.
Qed.

Lemma insert_Sorted (x : A) (l : list A) :
  Sorted (fun a b => comparefn a b <= 0)%Z l ->
  Sorted (fun a b => comparefn a b <= 0)%Z (insert comparefn x l).
Proof.
  induction l as [| y l IH]; intros Hs; simpl.
  - repeat constructor.
  - inversion Hs as [| ? ? Hs' Hhd]; subst.
    destruct (comparefn x y <=? 0)%Z eqn:E.
    + apply Z.leb_le in E. constructor; [exact Hs | now constructor].
    + apply Z.leb_gt in E. constructor; [now apply IH |].
      apply insert_HdRel; [| exact Hhd].
      apply comparefn_total. lia.
Qed.

Lemma Array_sort_Sorted (l : list A) :
  Sorted (fun a b => comparefn a b <= 0)%Z (Array_sort comparefn l).
Proof.
  induction l as [| x l IH]; simpl; [constructor | now apply insert_Sorted].
Qed.
End SortFacts.

(** Sorting commutes with a map that the comparison cannot see. *)
Lemma Array_sort_map {A B : Type} (f : A -> B) (cmpA : A -> A -> Z)
    (cmpB : B -> B -> Z) (l : list A) :
  (forall a b, cmpB (f a) (f b) = cmpA a b) ->
  Array_sort cmpB (map f l) = map f (Array_sort cmpA l).
Proof.
  intros Hc. induction l as [| x l IH]; simpl; [reflexivity |].
  rewrite IH. generalize (Array_sort cmpA l) as r. clear IH.
  induction r as [| y r IH]; simpl; [reflexivity |].
  rewrite Hc. destruct (cmpA x y <=? 0)%Z; simpl; [reflexivity | now rewrite IH].
Qed.

Lemma filter_partition_Permutation {A : Type} (f : A -> bool) (l : list A) :
  Permutation (filter f l ++ filter (fun x => negb (f x)) l) l.
Proof.
  induction l as [| x l IH]; simpl; [reflexivity |].
  destruct (f x); simpl.
  - now constructor.
  - symmetry. apply Permutation_cons_app. now symmetry.
Qed.

Lemma Object_values_Permutation (o : ItemRecord) :
  Permutation (Object_values o) (map snd o).
Proof.
  unfold Object_values. rewrite <- map_app. apply Permutation_map.
  rewrite Array_sort_Permutation. apply filter_partition_Permutation.
Qed.

Lemma finish_Permutation (localeCompare : string -> string -> Z)
    (opts : Options) (o : ItemRecord) :
  Permutation (Merge.finish localeCompare opts o) (map snd o).
Proof.
  unfold Merge.finish, Merge.sortTranslations. destruct (sort opts).
  - rewrite Array_sort_Permutation. apply Object_values_Permutation.
  - apply Object_values_Permutation.
Qed.

(** ** Stored entries are first-seen entries *)

Lemma first_seen_as_app (processed more : list TranslationItem) (k : string)
    (e0 : TranslationItem) :
  first_seen_as processed k e0 -> first_seen_as (processed ++ more) k e0.
Proof.
  intros (l1 & l2 & -> & Hk & Hl1). exists l1, (l2 ++ more).
  repeat split; try assumption. now rewrite <- app_assoc.
Qed.

Lemma collects_nil (opts : Options) : collects opts [] [].
Proof. split; [discriminate | intros e []]. Qed.

Lemma step_collects (opts : Options) (processed : list TranslationItem)
    (s s' : ItemRecord) (item : TranslationItem) :
  step opts s item s' -> collects opts processed s ->
  collects opts (processed ++ [item]) s'.
Proof.
  intros Hstep [HQ HR]. split.
  - intros k y Hy.
    assert (Hold : forall x, getOwn s k = Some x ->
               only_context_backfilled opts x y ->
               exists e0, first_seen_as (processed ++ [item]) k e0 /\
                          only_context_backfilled opts e0 y).
    { intros x Hx Hxy. destruct (HQ _ _ Hx) as (e0 & He0 & Hback).
      exists e0. split; [now apply first_seen_as_app |].
      eapply only_context_backfilled_trans; eassumption. }
    destruct Hstep as [Hn Hni | _ | x Hx Hv Hm Hcx Hci].
    + rewrite getOwn_app in Hy. destruct (getOwn s k) as [x |] eqn:Hx.
      * injection Hy as <-. apply (Hold x eq_refl), only_context_backfilled_refl.
      * destruct (key item =? k) eqn:E; [| discriminate].
        injection Hy as <-. apply String.eqb_eq in E as <-.
        exists item. split; [| apply only_context_backfilled_refl].
        exists processed, []. repeat split.
        rewrite Forall_forall. intros e He Hke.
        apply getOwn_None in Hn. apply Hn. rewrite <- Hke.
        apply HR; [exact He | now rewrite Hke].
    + apply (Hold y Hy), only_context_backfilled_refl.
    + rewrite getOwn_setContext in Hy. destruct (key item =? k) eqn:E.
      * apply String.eqb_eq in E as <-. rewrite Hx in Hy. simpl in Hy.
        injection Hy as <-. apply (Hold x Hx).
        repeat split; simpl. right. now repeat split.
      * apply (Hold y Hy), only_context_backfilled_refl.
  - intros e He Hni. apply in_app_or in He as [He | [<- | []]].
    + eapply step_keeps_keys; [exact Hstep | now apply HR].
    + eapply step_stores; eassumption.
Qed.

Lemma items_collects (opts : Options) (path : string)
    (items processed : list TranslationItem) (s s' : ItemRecord) :
  collects opts processed s ->
  outcome (for_of items (Merge.mergeItem opts path) s) = inr s' ->
  collects opts (processed ++ items) s'.
Proof.
  revert processed s. induction items as [| it items IH]; intros processed s Hc Hrun.
  - unfold outcome in Hrun. simpl in Hrun. injection Hrun as <-.
    now rewrite app_nil_r.
  - cbn [for_of] in Hrun. apply bind_inr in Hrun as (s1 & H1 & H2 & _).
    apply mergeItem_step in H1.
    change (it :: items) with ([it] ++ items). rewrite app_assoc.
    apply (IH _ s1); [| exact H2]. eapply step_collects; eassumption.
Qed.

Lemma files_collects (opts : Options) (files : list (string * Loaded))
    (processed : list TranslationItem) (s s' : ItemRecord) :
  collects opts processed s ->
  outcome (for_of files (Merge.mergeFile opts) s) = inr s' ->
  collects opts (processed ++ input_items files) s'.
Proof.
  revert processed s. induction files as [| f files IH]; intros processed s Hc Hrun.
  - unfold outcome in Hrun. simpl in Hrun. injection Hrun as <-.
    now rewrite app_nil_r.
  - cbn [for_of] in Hrun. apply bind_inr in Hrun as (s1 & H1 & H2 & _).
    apply mergeFile_items in H1.
    unfold input_items. cbn [flat_map]. fold (input_items files).
    rewrite app_assoc. apply (IH _ s1); [| exact H2].
    eapply items_collects; eassumption.
Qed.

(** What is stored when the run comes to an item is the first-seen entry of
    its key among the entries processed so far. *)
Lemma arrives_first_seen (opts : Options) (before : list (string * Loaded))
    (path : string) (j : json) (earlier later : list TranslationItem)
    (item x : TranslationItem) (allItems : ItemRecord) (k : string) :
  arrives opts before path j earlier item later allItems ->
  getOwn allItems k = Some x ->
  exists e0, first_seen_as (input_items before ++ earlier) k e0 /\
             only_context_backfilled opts e0 x.
Proof.
  intros (_ & s0 & H0 & H1) Hx.
  pose proof (files_collects _ _ _ _ _ (collects_nil opts) H0) as Hc0.
  cbn [app] in Hc0.
  pose proof (items_collects _ _ _ _ _ _ Hc0 H1) as [HQ _].
  exact (HQ _ _ Hx).
Qed.

(** ** The whole run *)

Lemma main_outcome (localeCompare : string -> string -> Z) (opts : Options)
    (files : list (string * Loaded)) :
  outcome (Merge.main localeCompare opts files) =
  match outcome (for_of files (Merge.mergeFile opts) []) with
  | inl e => inl e
  | inr s => inr (mkObject "EN" (Merge.finish localeCompare opts s))
  end.
Proof.
  unfold Merge.main.
  destruct (for_of files (Merge.mergeFile opts) []) as [log [e | s]]; reflexivity.
Qed.

Lemma main_diagnostics (localeCompare : string -> string -> Z) (opts : Options)
    (files : list (string * Loaded)) :
  diagnostics (Merge.main localeCompare opts files) =
  diagnostics (for_of files (Merge.mergeFile opts) []).
Proof.
  unfold Merge.main.
  destruct (for_of files (Merge.mergeFile opts) []) as [log [e | s]];
    unfold diagnostics; simpl; [reflexivity | apply app_nil_r].
Qed.

Lemma main_inr (localeCompare : string -> string -> Z) (opts : Options)
    (files : list (string * Loaded)) (doc : TranslationObject) :
  outcome (Merge.main localeCompare opts files) = inr doc ->
  exists s, outcome (for_of files (Merge.mergeFile opts) []) = inr s /\
            well_keyed s /\
            doc = mkObject "EN" (Merge.finish localeCompare opts s).
Proof.
  rewrite main_outcome.
  destruct (outcome (for_of files (Merge.mergeFile opts) [])) as [e | s] eqn:E;
    [discriminate |].
  intros [= <-]. exists s. repeat split.
  - eapply files_well_keyed; [apply well_keyed_nil | exact E].
  - eapply files_well_keyed; [apply well_keyed_nil | exact E].
Qed.

(** The entries of the output document are the stored ones. *)
Lemma In_finish (localeCompare : string -> string -> Z) (opts : Options)
    (s : ItemRecord) (y : TranslationItem) :
  well_keyed s ->
  (In y (Merge.finish localeCompare opts s) <-> getOwn s (key y) = Some y).
Proof.
  intros Hwf. split.
  - intros H. apply (Permutation_in _ (finish_Permutation _ _ _)) in H.
    apply in_map_iff in H as ([k y'] & Hy & Hin). simpl in Hy. subst y'.
    destruct Hwf as [Hnd Hk]. rewrite Forall_forall in Hk.
    pose proof (Hk _ Hin) as Hkey. simpl in Hkey. rewrite Hkey.
    now apply In_getOwn.
  - intros H. apply getOwn_In in H.
    apply (Permutation_in _ (Permutation_sym (finish_Permutation _ _ _))).
    apply in_map_iff. now exists (key y, y).
Qed.

(** Once the run has come to an item, the rest of it is [remainder]. *)
Lemma arrives_run (opts : Options) (before after : list (string * Loaded))
    (path : string) (j : json) (earlier later : list TranslationItem)
    (item : TranslationItem) (allItems : ItemRecord) :
  arrives opts before path j earlier item later allItems ->
  well_keyed allItems /\
  exists log,
    for_of (before ++ (path, Parsed j) :: after) (Merge.mergeFile opts) [] =
    (log ++ diagnostics (remainder opts path allItems item later after),
     outcome (remainder opts path allItems item later after)).
Proof.
  intros (Hj & s0 & H0 & H1). split.
  - eapply items_well_keyed; [| exact H1].
    eapply files_well_keyed; [apply well_keyed_nil | exact H0].
  - exists (diagnostics (for_of before (Merge.mergeFile opts) []) ++
            diagnostics (for_of earlier (Merge.mergeItem opts path) s0)).
    rewrite for_of_app, (bind_run _ _ _ H0). cbn [for_of].
    rewrite mergeFile_Parsed, Hj. unfold iterate.
    rewrite bind_ret, for_of_app, bind_assoc, (bind_run _ _ _ H1).
    cbn [for_of]. rewrite bind_assoc. fold (remainder opts path allItems item later after).
    unfold diagnostics at 2. unfold outcome at 1. cbn [fst snd].
    now rewrite app_assoc.
Qed.

Lemma remainder_inr (opts : Options) (path : string) (allItems s' : ItemRecord)
    (item : TranslationItem) (later : list TranslationItem)
    (after : list (string * Loaded)) :
  outcome (remainder opts path allItems item later after) = inr s' ->
  exists s1 s2,
    outcome (Merge.mergeItem opts path allItems item) = inr s1 /\
    outcome (for_of later (Merge.mergeItem opts path) s1) = inr s2 /\
    outcome (for_of after (Merge.mergeFile opts) s2) = inr s'.
Proof.
  unfold remainder. intros H.
  apply bind_inr in H as (s1 & H1 & H & _).
  apply bind_inr in H as (s2 & H2 & H3 & _).
  now exists s1, s2.
Qed.

(** What is stored when the run has come to an item is in the output, up to
    a backfilled context. *)
Lemma stored_reaches_output (opts : Options) (path : string) (s1 s' : ItemRecord)
    (later : list TranslationItem) (after : list (string * Loaded))
    (k : string) (x : TranslationItem) :
  getOwn s1 k = Some x ->
  (exists s2, outcome (for_of later (Merge.mergeItem opts path) s1) = inr s2 /\
              outcome (for_of after (Merge.mergeFile opts) s2) = inr s') ->
  exists x', getOwn s' k = Some x' /\ only_context_backfilled opts x x'.
Proof.
  intros Hx (s2 & H2 & H3).
  destruct (items_frame _ _ _ _ _ _ _ Hx H2) as (y & Hy & Hxy).
  destruct (files_frame _ _ _ _ _ _ Hy H3) as (z & Hz & Hyz).
  exists z. split; [exact Hz |]. eapply only_context_backfilled_trans; eassumption.
Qed.

(** ** [src/index.ts] never throws an [Error] *)

Lemma Index_mergeItem_returns (s : ItemRecord) (item : TranslationItem) :
  exists s', outcome (Index.mergeItem s item) = inr s'.
Proof.
  unfold Index.mergeItem.
  destruct (Get s (key item)); [| | now eexists].
  - destruct (strict_eq _ _); now eexists.
  - destruct (strict_eq _ _); now eexists.
Qed.

Lemma Index_items_return (items : list TranslationItem) (s : ItemRecord) :
  exists s', outcome (for_of items Index.mergeItem s) = inr s'.
Proof.
  revert s. induction items as [| i items IH]; intros s; cbn [for_of].
  - now exists s.
  - destruct (Index_mergeItem_returns s i) as (s1 & H1).
    destruct (IH s1) as (s2 & H2). exists s2.
    now rewrite (bind_outcome _ _ _ H1).
Qed.

Lemma Index_mergeFile_no_Error (s : ItemRecord) (f : string * Loaded) (e : Exception) :
  outcome (Index.mergeFile s f) = inl e -> exists m, e = TypeError m.
Proof.
  unfold Index.mergeFile, Index.loadAndParse. destruct f as [path [message | j]];
    cbn [fst snd].
  - rewrite bind_assoc. unfold stderr at 1. unfold bind at 1. rewrite bind_ret.
    cbn [optional_translations or_empty iterate]. rewrite bind_ret.
    destruct (Index_items_return [] s) as (s' & H). cbn [for_of]. discriminate.
  - rewrite bind_ret.
    destruct (or_empty (optional_translations (Some j))) eqn:E; cbn [iterate];
      try (rewrite bind_throw; intros [= <-]; now eexists).
    rewrite bind_ret. destruct (Index_items_return items s) as (s' & H).
    rewrite H. discriminate.
Qed.

Lemma Index_files_no_Error (files : list (string * Loaded)) (s : ItemRecord)
    (e : Exception) :
  outcome (for_of files Index.mergeFile s) = inl e -> exists m, e = TypeError m.
Proof.
  revert s. induction files as [| f files IH]; intros s; cbn [for_of].
  - discriminate.
  - destruct (outcome (Index.mergeFile s f)) as [e' | s1] eqn:E.
    + rewrite (bind_inl _ _ _ E). intros [= <-].
      eapply Index_mergeFile_no_Error; eassumption.
    + rewrite (bind_outcome _ _ _ E). apply IH.
Qed.

(** ** Conflicting values (C1) *)

(** The step at a conflict, in both modes. *)
Lemma mergeItem_conflict (opts : Options) (path : string) (allItems : ItemRecord)
    (item x : TranslationItem) :
  Get allItems (key item) = Own x -> value x <> value item ->
  Merge.mergeItem opts path allItems item =
  if ignoreErrors opts
  then ([Warning (DuplicateKeys (key item) (Some (value x)) (value item) path)],
        inr allItems)
  else ([], inl (Error (DuplicateKeys (key item) (Some (value x)) (value item) path))).
Proof.
  intros HG Hv. unfold Merge.mergeItem. rewrite HG. cbn [Property_value].
  destruct (strict_eq (Some (value x)) (Some (value item))) eqn:E.
  - apply strict_eq_Some in E. contradiction.
  - now destruct (ignoreErrors opts).
Qed.

(** C1, counterexample: [src/index.ts] has no [ignoreErrors] option, and a
    key met again with a different value does not abort its run; the warning
    it writes names neither the key, the values nor the file. *)
Lemma C1_index_conflict_does_not_abort :
  Index.main [("a.json", document [mkItem "k" "Hello" (Some ""); mkItem "k" "Bye" (Some "")])]
  = ([DuplicateValues], inr (mkObject "EN" [mkItem "k" "Hello" (Some "")]))
  /\ Diagnostic_text DuplicateValues =
     ("Warning: Found duplicate keys with different values:" ++ nl ++ "  ")%string.
Proof. split; reflexivity. Qed.

(** C1, amended: in the revision with [ignoreErrors], [sort] and
    [mergeContext], when the run comes to an entry whose key is stored with
    a different value, strict mode
    aborts with the error naming the key, both values and the file; lenient
    mode leaves the collection as it is, writes the warning with the same
    details, and the output has exactly the stored value under that key,
    which is the value the key was first seen with.
    [src/index.ts] has no such option: there the step keeps the collection,
    writes a warning without details, and no run is aborted by an [Error]. *)
Theorem C1_conflict_strict_aborts_lenient_keeps_first :
  (forall (localeCompare : string -> string -> Z) (opts : Options)
          (before after : list (string * Loaded)) (path : string) (j : json)
          (earlier later : list TranslationItem) (item x : TranslationItem)
          (allItems : ItemRecord),
      arrives opts before path j earlier item later allItems ->
      Get allItems (key item) = Own x ->
      value x <> value item ->
      let files := before ++ (path, Parsed j) :: after in
      let str := DuplicateKeys (key item) (Some (value x)) (value item) path in
      (exists e0, first_seen_as (input_items before ++ earlier) (key item) e0 /\
                  value e0 = value x)
      /\
      (ignoreErrors opts = false ->
       outcome (Merge.main localeCompare opts files) = inl (Error str))
      /\
      (ignoreErrors opts = true ->
       Merge.mergeItem opts path allItems item = ([Warning str], inr allItems) /\
       In (Warning str) (diagnostics (Merge.main localeCompare opts files)) /\
       forall doc, outcome (Merge.main localeCompare opts files) = inr doc ->
         (exists y, In y (translations doc) /\ key y = key item /\ value y = value x) /\
         (forall y, In y (translations doc) -> key y = key item -> value y = value x)))
  /\
  (forall (allItems : ItemRecord) (item x : TranslationItem),
      Get allItems (key item) = Own x -> value x <> value item ->
      Index.mergeItem allItems item = ([DuplicateValues], inr allItems))
  /\
  (forall (files : list (string * Loaded)) (str : Message),
      outcome (Index.main files) <> inl (Error str)).
Proof.
  split; [| split].
  - intros lc opts before after path j earlier later item x allItems Harr HG Hv files str.
    destruct (arrives_run _ _ after _ _ _ _ _ _ Harr) as (Hwf & log & Hrun).
    fold files in Hrun.
    pose proof (mergeItem_conflict opts path _ _ _ HG Hv) as Hstep. fold str in Hstep.
    split; [| split].
    + destruct (arrives_first_seen _ _ _ _ _ _ _ _ _ _ Harr (proj1 (Get_Own _ _ _) HG))
        as (e0 & He0 & _ & Hv0 & _).
      exists e0. split; [exact He0 | congruence].
    + intros Hstrict. rewrite Hstrict in Hstep.
      rewrite main_outcome, Hrun. unfold outcome at 1. cbn [snd].
      unfold remainder. rewrite Hstep. reflexivity.
    + intros Hlenient. rewrite Hlenient in Hstep. split; [exact Hstep |]. split.
      * rewrite main_diagnostics, Hrun. unfold diagnostics at 1. cbn [fst].
        apply in_or_app. right. unfold remainder. rewrite Hstep.
        unfold bind at 1. unfold diagnostics. cbn [fst]. now left.
      * intros doc Hdoc. apply main_inr in Hdoc as (s' & Hs' & Hwf' & ->).
        cbn [translations].
        rewrite Hrun in Hs'. unfold outcome at 1 in Hs'. cbn [snd] in Hs'.
        apply remainder_inr in Hs' as (s1 & s2 & H1 & H2 & H3).
        rewrite Hstep in H1. injection H1 as <-.
        apply Get_Own in HG.
        destruct (stored_reaches_output opts path allItems s' later after _ _ HG)
          as (x' & Hx' & Hkx & Hvx & _); [now exists s2 |].
        pose proof (well_keyed_getOwn _ _ _ Hwf HG) as Hkey.
        pose proof (well_keyed_getOwn _ _ _ Hwf' Hx') as Hkey'.
        split.
        -- exists x'. repeat split; [| congruence | exact Hvx].
           apply In_finish; [exact Hwf' | now rewrite Hkey'].
        -- intros y Hy Hky. apply In_finish in Hy; [| exact Hwf'].
           rewrite Hky in Hy. congruence.
  - intros allItems item x HG Hv. unfold Index.mergeItem. rewrite HG.
    cbn [Property_value].
    destruct (strict_eq (Some (value x)) (Some (value item))) eqn:E; [| reflexivity].
    apply strict_eq_Some in E. contradiction.
  - intros files str H. unfold Index.main in H.
    destruct (outcome (for_of files Index.mergeFile [])) as [e | s] eqn:E.
    + rewrite (bind_inl _ _ _ E) in H. injection H as ->.
      apply Index_files_no_Error in E as (m & Hm). discriminate.
    + rewrite (bind_outcome _ _ _ E) in H. discriminate.
Qed.

Lemma C1_conflict_strict_aborts_lenient_keeps_first_witness :
  outcome (Merge.main codeUnitCompare strict
             [("a.json", document [mkItem "k" "Hello" (Some ""); mkItem "k" "Bye" (Some "")])])
  = inl (Error (DuplicateKeys "k" (Some "Hello") "Bye" "a.json"))
  /\ In (Warning (DuplicateKeys "k" (Some "Hello") "Bye" "a.json"))
        (diagnostics (Merge.main codeUnitCompare lenient
           [("a.json", document [mkItem "k" "Hello" (Some ""); mkItem "k" "Bye" (Some "")])])).
Proof.
  split.
  - apply (proj1 C1_conflict_strict_aborts_lenient_keeps_first
             codeUnitCompare strict [] [] "a.json"
             (JObj [("translations",
                     JArr [mkItem "k" "Hello" (Some ""); mkItem "k" "Bye" (Some "")])])
             [mkItem "k" "Hello" (Some "")] [] (mkItem "k" "Bye" (Some ""))
             (mkItem "k" "Hello" (Some "")) [("k", mkItem "k" "Hello" (Some ""))]).
    + split; [reflexivity | exists []; split; reflexivity].
    + reflexivity.
    + discriminate.
    + reflexivity.
  - apply (proj1 C1_conflict_strict_aborts_lenient_keeps_first
             codeUnitCompare lenient [] [] "a.json"
             (JObj [("translations",
                     JArr [mkItem "k" "Hello" (Some ""); mkItem "k" "Bye" (Some "")])])
             [mkItem "k" "Hello" (Some "")] [] (mkItem "k" "Bye" (Some ""))
             (mkItem "k" "Hello" (Some "")) [("k", mkItem "k" "Hello" (Some ""))]).
    + split; [reflexivity | exists []; split; reflexivity].
    + reflexivity.
    + discriminate.
    + reflexivity.
Defined.

(** ** Context backfill (C2) *)

(** What the step leaves under a key is in the output of a run that
    completes, up to a later backfill. *)
Lemma arrives_output (localeCompare : string -> string -> Z) (opts : Options)
    (before after : list (string * Loaded)) (path : string) (j : json)
    (earlier later : list TranslationItem) (item : TranslationItem)
    (allItems s1 : ItemRecord) (k : string) (x1 : TranslationItem)
    (doc : TranslationObject) :
  arrives opts before path j earlier item later allItems ->
  outcome (Merge.mergeItem opts path allItems item) = inr s1 ->
  getOwn s1 k = Some x1 ->
  outcome (Merge.main localeCompare opts (before ++ (path, Parsed j) :: after))
  = inr doc ->
  exists y, In y (translations doc) /\ key y = k /\
            only_context_backfilled opts x1 y.
Proof.
  intros Harr Hstep Hx1 Hdoc.
  destruct (arrives_run _ _ after _ _ _ _ _ _ Harr) as (Hwf & log & Hrun).
  apply main_inr in Hdoc as (s' & Hs' & Hwf' & ->). cbn [translations].
  rewrite Hrun in Hs'. unfold outcome at 1 in Hs'. cbn [snd] in Hs'.
  apply remainder_inr in Hs' as (s1' & s2 & H1 & H2 & H3).
  assert (s1' = s1) as -> by congruence.
  destruct (stored_reaches_output opts path s1 s' later after _ _ Hx1)
    as (y & Hy & Hxy); [now exists s2 |].
  pose proof (well_keyed_getOwn _ _ _ Hwf' Hy) as Hkey.
  exists y. repeat split; try apply Hxy; [| exact Hkey].
  apply In_finish; [exact Hwf' | now rewrite Hkey].
Qed.

(** When the run comes to an entry whose key is stored with the same
    value, the stored context being empty (it is then the context the key
    was first seen with) and the new one a non-empty [c]:
    with [mergeContext] the step copies [c] onto the stored entry and the
    output entry of that key has context [c]; without it the step changes
    nothing and the output entry keeps the empty context.  A stored
    non-empty context is never replaced (the first one wins), and an entry
    with a different value changes nothing. *)
Lemma backfill_at_stored_duplicate
    (localeCompare : string -> string -> Z) (opts : Options)
    (before after : list (string * Loaded)) (path : string) (j : json)
    (earlier later : list TranslationItem) (item x : TranslationItem)
    (allItems : ItemRecord) :
  arrives opts before path j earlier item later allItems ->
  Get allItems (key item) = Own x ->
  let files := before ++ (path, Parsed j) :: after in
  (forall c : string,
      value x = value item -> truthy_string (context x) = false ->
      context item = Some c -> c <> "" ->
      (exists e0, first_seen_as (input_items before ++ earlier) (key item) e0 /\
                  value e0 = value x /\ context e0 = context x)
      /\
      (mergeContext opts = true ->
       Merge.mergeItem opts path allItems item
       = ([PulledContext (key item) c],
          inr (setContext allItems (key item) (Some c))) /\
       forall doc, outcome (Merge.main localeCompare opts files) = inr doc ->
         exists y, In y (translations doc) /\ key y = key item /\
                   value y = value x /\ context y = Some c)
      /\
      (mergeContext opts = false ->
       Merge.mergeItem opts path allItems item
       = ([SkippingDuplicate (key item)], inr allItems) /\
       forall doc, outcome (Merge.main localeCompare opts files) = inr doc ->
         exists y, In y (translations doc) /\ key y = key item /\
                   value y = value x /\ context y = context x))
  /\
  (truthy_string (context x) = true ->
   forall doc, outcome (Merge.main localeCompare opts files) = inr doc ->
     exists y, In y (translations doc) /\ key y = key item /\
               context y = context x)
  /\
  (value x <> value item ->
   forall s1, outcome (Merge.mergeItem opts path allItems item) = inr s1 ->
              s1 = allItems).
Proof.
  intros Harr HG files. pose proof HG as Hown. apply Get_Own in Hown.
  split; [| split].
  - intros c Hv Hx Hc Hne.
    assert (Hti : truthy_string (context item) = true).
    { rewrite Hc. simpl. apply String.eqb_neq in Hne. now rewrite Hne. }
    assert (Hse : strict_eq (Some (value x)) (Some (value item)) = true)
      by now apply strict_eq_Some.
    split; [| split; intros Hm].
    + destruct (arrives_first_seen _ _ _ _ _ _ _ _ _ _ Harr Hown)
        as (e0 & He0 & _ & Hv0 & Hc0).
      exists e0. repeat split; [exact He0 | congruence |].
      destruct Hc0 as [Hc0 | (_ & _ & Htrue)]; congruence.
    + assert (Hstep : Merge.mergeItem opts path allItems item
                      = ([PulledContext (key item) c],
                         inr (setContext allItems (key item) (Some c)))).
      { unfold Merge.mergeItem. rewrite HG. cbn [Property_value Property_context].
        now rewrite Hse, Hm, Hx, Hti, Hc. }
      split; [exact Hstep |]. intros doc Hdoc.
      destruct (arrives_output localeCompare opts before after path j earlier
                  later item allItems (setContext allItems (key item) (Some c))
                  (key item) (mkItem (key x) (value x) (Some c)) doc Harr)
        as (y & Hy & Hky & _ & Hvy & Hcy); [now rewrite Hstep | | exact Hdoc |].
      * now rewrite getOwn_setContext, String.eqb_refl, Hown.
      * exists y. repeat split; try assumption.
        destruct Hcy as [Hcy | (_ & Hfalse & _)]; [exact Hcy |].
        simpl in Hfalse. apply String.eqb_neq in Hne. now rewrite Hne in Hfalse.
    + assert (Hstep : Merge.mergeItem opts path allItems item
                      = ([SkippingDuplicate (key item)], inr allItems)).
      { unfold Merge.mergeItem. rewrite HG. cbn [Property_value Property_context].
        now rewrite Hse, Hm. }
      split; [exact Hstep |]. intros doc Hdoc.
      destruct (arrives_output localeCompare opts before after path j earlier
                  later item allItems allItems (key item) x doc Harr)
        as (y & Hy & Hky & _ & Hvy & Hcy); [now rewrite Hstep | exact Hown | exact Hdoc |].
      exists y. repeat split; try assumption.
      destruct Hcy as [Hcy | (Hm' & _)]; [exact Hcy | congruence].
  - intros Hx doc Hdoc.
    destruct (outcome (Merge.mergeItem opts path allItems item)) as [e | s1] eqn:Hstep.
    + exfalso.
      destruct (arrives_run _ _ after _ _ _ _ _ _ Harr) as (_ & log & Hrun).
      fold files in Hrun. rewrite main_outcome, Hrun in Hdoc.
      unfold outcome at 1 in Hdoc. cbn [snd] in Hdoc. unfold remainder in Hdoc.
      rewrite (bind_inl _ _ _ Hstep) in Hdoc. discriminate.
    + pose proof (mergeItem_step _ _ _ _ _ Hstep) as Hs.
      destruct (step_frame _ _ _ _ _ _ Hs Hown) as (x1 & Hx1 & Hk1 & Hv1 & Hc1).
      destruct (arrives_output localeCompare opts before after path j earlier
                  later item allItems s1 (key item) x1 doc Harr Hstep Hx1 Hdoc)
        as (y & Hy & Hky & _ & _ & Hcy).
      exists y. repeat split; try assumption.
      destruct Hc1 as [Hc1 | (_ & Hf & _)]; [| congruence].
      destruct Hcy as [Hcy | (_ & Hf & _)]; [congruence |].
      rewrite Hc1 in Hf. congruence.
  - intros Hv s1 Hstep.
    rewrite (mergeItem_conflict opts path _ _ _ HG Hv) in Hstep.
    destruct (ignoreErrors opts); [now injection Hstep as <- | discriminate].
Qed.

Lemma first_seen_as_unique (processed : list TranslationItem) (k : string)
    (e1 e2 : TranslationItem) :
  first_seen_as processed k e1 -> first_seen_as processed k e2 -> e1 = e2.
Proof.
  intros (l1 & l2 & -> & Hk1 & Hf1) (m1 & m2 & H2 & Hk2 & Hf2).
  revert m1 H2 Hf2. induction l1 as [| a l1 IH]; intros m1 H2 Hf2.
  - destruct m1 as [| b m1]; cbn [app] in H2.
    + now injection H2.
    + injection H2 as Hb _. inversion Hf2 as [| ? ? Hnb _]; subst. contradiction.
  - destruct m1 as [| b m1]; cbn [app] in H2.
    + injection H2 as Ha _. inversion Hf1 as [| ? ? Hna _]; subst. contradiction.
    + injection H2 as _ H2. inversion Hf1; subst. inversion Hf2; subst.
      eapply IH; eassumption.
Qed.

Lemma contexts_from_nil : contexts_from [] [].
Proof. intros k x H. discriminate. Qed.

Lemma step_contexts_from (opts : Options) (processed : list TranslationItem)
    (s s' : ItemRecord) (item : TranslationItem) :
  step opts s item s' -> contexts_from processed s ->
  contexts_from (processed ++ [item]) s'.
Proof.
  intros Hstep HJ k x Hx Hc.
  assert (Hold : forall x0, getOwn s k = Some x0 -> x0 = x ->
             exists e, In e (processed ++ [item]) /\ key e = k /\
                       value e = value x /\ context e = context x).
  { intros x0 H0 ->. destruct (HJ _ _ H0 Hc) as (e & He & Hrest).
    exists e. split; [apply in_or_app; now left | exact Hrest]. }
  destruct Hstep as [Hn Hni | _ | y Hy Hv Hm Hcy Hci].
  - rewrite getOwn_app in Hx. destruct (getOwn s k) as [x0 |] eqn:E.
    + injection Hx as Hx. now apply (Hold x0).
    + destruct (key item =? k) eqn:Ek; [| discriminate].
      injection Hx as <-. apply String.eqb_eq in Ek.
      exists item. repeat split; [apply in_or_app; right; now left | exact Ek].
  - now apply (Hold x).
  - rewrite getOwn_setContext in Hx. destruct (key item =? k) eqn:Ek.
    + apply String.eqb_eq in Ek as <-. rewrite Hy in Hx. cbn [option_map] in Hx.
      injection Hx as <-. cbn [value context key].
      exists item. repeat split; [apply in_or_app; right; now left | now symmetry].
    + now apply (Hold x).
Qed.

Lemma items_contexts_from (opts : Options) (path : string)
    (items processed : list TranslationItem) (s s' : ItemRecord) :
  contexts_from processed s ->
  outcome (for_of items (Merge.mergeItem opts path) s) = inr s' ->
  contexts_from (processed ++ items) s'.
Proof.
  revert processed s. induction items as [| it items IH]; intros processed s Hc Hrun.
  - unfold outcome in Hrun. simpl in Hrun. injection Hrun as <-.
    now rewrite app_nil_r.
  - cbn [for_of] in Hrun. apply bind_inr in Hrun as (s1 & H1 & H2 & _).
    apply mergeItem_step in H1.
    change (it :: items) with ([it] ++ items). rewrite app_assoc.
    apply (IH _ s1); [| exact H2]. eapply step_contexts_from; eassumption.
Qed.

Lemma files_contexts_from (opts : Options) (files : list (string * Loaded))
    (processed : list TranslationItem) (s s' : ItemRecord) :
  contexts_from processed s ->
  outcome (for_of files (Merge.mergeFile opts) s) = inr s' ->
  contexts_from (processed ++ input_items files) s'.
Proof.
  revert processed s. induction files as [| f files IH]; intros processed s Hc Hrun.
  - unfold outcome in Hrun. simpl in Hrun. injection Hrun as <-.
    now rewrite app_nil_r.
  - cbn [for_of] in Hrun. apply bind_inr in Hrun as (s1 & H1 & H2 & _).
    apply mergeFile_items in H1.
    unfold input_items. cbn [flat_map]. fold (input_items files).
    rewrite app_assoc. apply (IH _ s1); [| exact H2].
    eapply items_contexts_from; eassumption.
Qed.

(** A run that completes has come to every entry of every file. *)
Lemma completed_run_arrives (localeCompare : string -> string -> Z)
    (opts : Options) (before after : list (string * Loaded)) (path : string)
    (j : json) (earlier later : list TranslationItem) (item : TranslationItem)
    (doc : TranslationObject) :
  or_empty (optional_translations (Some j)) = JArr (earlier ++ item :: later) ->
  outcome (Merge.main localeCompare opts (before ++ (path, Parsed j) :: after))
  = inr doc ->
  exists allItems, arrives opts before path j earlier item later allItems.
Proof.
  intros Hj Hdoc. apply main_inr in Hdoc as (s & Hs & _ & _).
  rewrite for_of_app in Hs. apply bind_inr in Hs as (s0 & H0 & Hs & _).
  cbn [for_of] in Hs. apply bind_inr in Hs as (s1 & H1 & _ & _).
  rewrite mergeFile_Parsed, Hj in H1. cbn [iterate] in H1. rewrite bind_ret in H1.
  rewrite for_of_app in H1. apply bind_inr in H1 as (allItems & Ha & _ & _).
  exists allItems. split; [exact Hj |]. now exists s0.
Qed.

(** C2: evaluation at a pair that is not merged.  Two entries with the key
    [constructor] and the value [Hello], the first with an empty context and
    the second with the context [C]: each is compared with
    [Object.prototype.constructor], whose [value] is [undefined], and
    reported as a duplicate key with a different value.  In lenient mode
    both are dropped and no output entry carries the context [C], with
    context merging on or off; in strict mode the run aborts at the first of
    them. *)
Theorem C2_pair_named_like_prototype_member_is_not_merged :
  Merge.main codeUnitCompare lenient
    [("a.json", document [mkItem "constructor" "Hello" (Some "");
                          mkItem "constructor" "Hello" (Some "C")])]
  = ([Warning (DuplicateKeys "constructor" None "Hello" "a.json");
      Warning (DuplicateKeys "constructor" None "Hello" "a.json")],
     inr (mkObject "EN" []))
  /\
  Merge.main codeUnitCompare (mkOptions true true false)
    [("a.json", document [mkItem "constructor" "Hello" (Some "");
                          mkItem "constructor" "Hello" (Some "C")])]
  = ([Warning (DuplicateKeys "constructor" None "Hello" "a.json");
      Warning (DuplicateKeys "constructor" None "Hello" "a.json")],
     inr (mkObject "EN" []))
  /\
  Merge.main codeUnitCompare strict
    [("a.json", document [mkItem "constructor" "Hello" (Some "");
                          mkItem "constructor" "Hello" (Some "C")])]
  = ([], inl (Error (DuplicateKeys "constructor" None "Hello" "a.json"))).
Proof. repeat split. Qed.

(** ** The hash check (C6) *)

Lemma for_of_diagnostics_Forall {A S : Type} (P : Diagnostic -> Prop)
    (body : S -> A -> M S) :
  (forall s x, Forall P (diagnostics (body s x))) ->
  forall xs s, Forall P (diagnostics (for_of xs body s)).
Proof.
  intros Hbody xs. induction xs as [| x xs IH]; intros s; cbn [for_of].
  - constructor.
  - specialize (Hbody s x).
    destruct (body s x) as [log [e | s1]]; unfold diagnostics in *; simpl in *.
    + exact Hbody.
    + apply Forall_app. split; [exact Hbody | apply IH].
Qed.

Lemma mergeItem_no_HashMismatch (opts : Options) (path : string)
    (s : ItemRecord) (item : TranslationItem) :
  Forall (fun d => is_HashMismatch d = false)
         (diagnostics (Merge.mergeItem opts path s item)).
Proof.
  unfold Merge.mergeItem.
  destruct (Get s (key item)); [| | constructor].
  - destruct (strict_eq _ _).
    + destruct (_ && _); repeat constructor.
    + destruct (negb _); repeat constructor.
  - destruct (strict_eq _ _).
    + destruct (_ && _); repeat constructor.
    + destruct (negb _); repeat constructor.
Qed.

Lemma mergeFile_no_HashMismatch (opts : Options) (s : ItemRecord)
    (f : string * Loaded) :
  Forall (fun d => is_HashMismatch d = false)
         (diagnostics (Merge.mergeFile opts s f)).
Proof.
  destruct f as [path [message | j]].
  - destruct (ignoreErrors opts) eqn:E.
    + rewrite (mergeFile_Rejected_lenient _ _ _ _ E). repeat constructor.
    + rewrite (mergeFile_Rejected_strict _ _ _ _ E). constructor.
  - rewrite mergeFile_Parsed.
    destruct (or_empty (optional_translations (Some j))); cbn [iterate];
      try (rewrite bind_throw; constructor).
    rewrite bind_ret. apply for_of_diagnostics_Forall.
    intros s0 x. apply mergeItem_no_HashMismatch.
Qed.

Lemma main_no_HashMismatch (localeCompare : string -> string -> Z)
    (opts : Options) (files : list (string * Loaded)) :
  Forall (fun d => is_HashMismatch d = false)
         (diagnostics (Merge.main localeCompare opts files)).
Proof.
  rewrite main_diagnostics. apply for_of_diagnostics_Forall.
  intros s f. apply mergeFile_no_HashMismatch.
Qed.

Lemma forEach_run (md5 : string -> string) (l : list TranslationItem) :
  Md5.forEach md5 l = (hash_mismatches md5 l, inr tt).
Proof.
  unfold Md5.forEach. induction l as [| t l IH]; cbn [for_of hash_mismatches flat_map].
  - reflexivity.
  - unfold Md5.checkHash at 1.
    destruct (negb (key t =? md5 (value t))).
    + unfold stderr, bind. rewrite IH. reflexivity.
    + rewrite bind_ret, IH. reflexivity.
Qed.

Lemma Md5_main_unchecked (localeCompare : string -> string -> Z)
    (md5 : string -> string) (opts : Options) (files : list (string * Loaded)) :
  Md5.main localeCompare md5 opts false files = Merge.main localeCompare opts files.
Proof.
  unfold Md5.main, Merge.main. apply bind_ext. intros s. now rewrite bind_ret.
Qed.

Lemma Md5_main_checked (localeCompare : string -> string -> Z)
    (md5 : string -> string) (opts : Options) (files : list (string * Loaded)) :
  Md5.main localeCompare md5 opts true files =
  match outcome (Merge.main localeCompare opts files) with
  | inl e => Merge.main localeCompare opts files
  | inr doc =>
      (diagnostics (Merge.main localeCompare opts files)
       ++ hash_mismatches md5 (translations doc), inr doc)
  end.
Proof.
  unfold Md5.main, Merge.main.
  destruct (for_of files (Merge.mergeFile opts) []) as [log [e | s]];
    [reflexivity |].
  unfold bind at 1 3. unfold outcome, diagnostics. cbn [fst snd].
  rewrite forEach_run. unfold bind, ret. cbn [fst snd translations].
  now rewrite !app_nil_r.
Qed.

Lemma In_hash_mismatches (md5 : string -> string) (l : list TranslationItem)
    (v h k : string) :
  In (HashMismatch v h k) (hash_mismatches md5 l) <->
  exists t, In t l /\ key t <> md5 (value t) /\
            v = value t /\ h = md5 (value t) /\ k = key t.
Proof.
  unfold hash_mismatches. rewrite in_flat_map. split.
  - intros (t & Ht & Hin). exists t. split; [exact Ht |].
    destruct (key t =? md5 (value t)) eqn:E; simpl in Hin; [contradiction |].
    apply String.eqb_neq in E. destruct Hin as [[= <- <- <-] | []]. now repeat split.
  - intros (t & Ht & Hne & -> & -> & ->). exists t. split; [exact Ht |].
    apply String.eqb_neq in Hne. rewrite Hne. now left.
Qed.

(** C6: in the revision with the hash check, the output document does not
    depend on [md5Check]; with the check on, a hash-mismatch diagnostic is
    written for an output entry exactly when its key differs from the md5 of
    its value; with the check off none is written. *)
Theorem C6_md5_check_reports_and_leaves_output
    (localeCompare : string -> string -> Z) (md5 : string -> string)
    (opts : Options) (files : list (string * Loaded)) :
  outcome (Md5.main localeCompare md5 opts true files)
  = outcome (Md5.main localeCompare md5 opts false files)
  /\
  (forall doc, outcome (Md5.main localeCompare md5 opts true files) = inr doc ->
     forall e, In e (translations doc) ->
       (In (HashMismatch (value e) (md5 (value e)) (key e))
           (diagnostics (Md5.main localeCompare md5 opts true files))
        <-> key e <> md5 (value e)))
  /\
  (forall d, In d (diagnostics (Md5.main localeCompare md5 opts false files)) ->
             is_HashMismatch d = false).
Proof.
  rewrite Md5_main_checked, Md5_main_unchecked.
  pose proof (main_no_HashMismatch localeCompare opts files) as Hno.
  rewrite Forall_forall in Hno.
  destruct (outcome (Merge.main localeCompare opts files)) as [e | doc0] eqn:E.
  - split; [exact E |]. split; [| exact Hno].
    intros doc Hdoc. congruence.
  - split; [reflexivity |]. split; [| exact Hno].
    intros doc [= <-] e He. unfold diagnostics at 1. cbn [fst].
    rewrite in_app_iff, In_hash_mismatches. split.
    + intros [Hin | (t & _ & Hne & Hv & _ & Hk)].
      * apply Hno in Hin. discriminate.
      * congruence.
    + intros Hne. right. exists e. now repeat split.
Qed.

Lemma C6_md5_check_reports_and_leaves_output_witness :
  In (HashMismatch "Hello" "8b1a9953c4611296a827abf8c47804d7" "k1")
     (diagnostics
        (Md5.main codeUnitCompare (fun _ => "8b1a9953c4611296a827abf8c47804d7")
           strict true
           [("a.json", document [mkItem "k1" "Hello" (Some "")])]))
  <-> "k1" <> "8b1a9953c4611296a827abf8c47804d7".
Proof.
  apply (proj1 (proj2 (C6_md5_check_reports_and_leaves_output codeUnitCompare
                         (fun _ => "8b1a9953c4611296a827abf8c47804d7") strict
                         [("a.json", document [mkItem "k1" "Hello" (Some "")])]))
               (mkObject "EN" [mkItem "k1" "Hello" (Some "")]) eq_refl
               (mkItem "k1" "Hello" (Some ""))).
  now left.
Defined.

(** ** Stored entries are only ever backfilled (C9) *)

(** C9: an entry stored under a key is the entry the key was first seen
    with, and it keeps its key and its value whatever is processed later, by
    one more entry and until the end of the run, in the revision without and
    with the hash check; its context is the only field that can change, and
    only from empty to non-empty under [mergeContext]. *)
Theorem C9_stored_key_and_value_never_change
    (localeCompare : string -> string -> Z) (md5 : string -> string)
    (opts : Options) (before after : list (string * Loaded)) (path : string)
    (j : json) (earlier later : list TranslationItem) (item x : TranslationItem)
    (allItems : ItemRecord) (k : string) :
  arrives opts before path j earlier item later allItems ->
  getOwn allItems k = Some x ->
  let files := before ++ (path, Parsed j) :: after in
  (exists e0, first_seen_as (input_items before ++ earlier) k e0 /\
              only_context_backfilled opts e0 x)
  /\
  (forall s1, outcome (Merge.mergeItem opts path allItems item) = inr s1 ->
     exists x1, getOwn s1 k = Some x1 /\ only_context_backfilled opts x x1)
  /\
  (forall doc, outcome (Merge.main localeCompare opts files) = inr doc ->
     exists y, In y (translations doc) /\ key y = k /\
               only_context_backfilled opts x y)
  /\
  (forall md5Check doc,
     outcome (Md5.main localeCompare md5 opts md5Check files) = inr doc ->
     exists y, In y (translations doc) /\ key y = k /\
               only_context_backfilled opts x y).
Proof.
  intros Harr Hx files.
  assert (Hone : forall s1,
             outcome (Merge.mergeItem opts path allItems item) = inr s1 ->
             exists x1, getOwn s1 k = Some x1 /\ only_context_backfilled opts x x1).
  { intros s1 Hstep. apply mergeItem_step in Hstep.
    exact (step_frame _ _ _ _ _ _ Hstep Hx). }
  assert (Hrun : forall doc,
             outcome (Merge.main localeCompare opts files) = inr doc ->
             exists y, In y (translations doc) /\ key y = k /\
                       only_context_backfilled opts x y).
  { intros doc Hdoc.
    destruct (outcome (Merge.mergeItem opts path allItems item)) as [e | s1] eqn:Hstep.
    - exfalso.
      destruct (arrives_run _ _ after _ _ _ _ _ _ Harr) as (_ & log & Hr).
      fold files in Hr. rewrite main_outcome, Hr in Hdoc.
      unfold outcome at 1 in Hdoc. cbn [snd] in Hdoc. unfold remainder in Hdoc.
      rewrite (bind_inl _ _ _ Hstep) in Hdoc. discriminate.
    - destruct (Hone s1 eq_refl) as (x1 & Hx1 & Hxx1).
      destruct (arrives_output localeCompare opts before after path j earlier
                  later item allItems s1 k x1 doc Harr Hstep Hx1 Hdoc)
        as (y & Hy & Hky & Hx1y).
      exists y. repeat split; try assumption.
      + destruct Hxx1 as (? & _), Hx1y as (? & _). congruence.
      + destruct Hxx1 as (_ & ? & _), Hx1y as (_ & ? & _). congruence.
      + exact (proj2 (proj2 (only_context_backfilled_trans _ _ _ _ Hxx1 Hx1y))). }
  split; [exact (arrives_first_seen _ _ _ _ _ _ _ _ _ _ Harr Hx) |].
  split; [exact Hone |]. split; [exact Hrun |].
  intros [|] doc Hdoc.
  - apply Hrun. rewrite Md5_main_checked in Hdoc.
    destruct (outcome (Merge.main localeCompare opts files)) as [e | d] eqn:E.
    + congruence.
    + now injection Hdoc as <-.
  - apply Hrun. now rewrite Md5_main_unchecked in Hdoc.
Qed.

Lemma C9_stored_key_and_value_never_change_witness :
  exists y, In y [mkItem "k1" "Hello" (Some "greeting")] /\ key y = "k1" /\
            only_context_backfilled strict (mkItem "k1" "Hello" (Some "")) y.
Proof.
  apply (proj1 (proj2 (proj2 (C9_stored_key_and_value_never_change codeUnitCompare
                         (fun s => s) strict
                         [("A.json", document [mkItem "k1" "Hello" (Some "")])] []
                         "B.json"
                         (JObj [("translations",
                                 JArr [mkItem "k1" "Hello" (Some "greeting")])])
                         [] [] (mkItem "k1" "Hello" (Some "greeting"))
                         (mkItem "k1" "Hello" (Some ""))
                         [("k1", mkItem "k1" "Hello" (Some ""))] "k1"
                         (conj eq_refl
                               (ex_intro _ [("k1", mkItem "k1" "Hello" (Some ""))]
                                         (conj eq_refl eq_refl)))
                         eq_refl)))
               (mkObject "EN" [mkItem "k1" "Hello" (Some "greeting")]) eq_refl).
Defined.

(** ** Files that cannot be loaded (C5) *)

(** A step that returns its state untouched and silently can be left out. *)
Lemma for_of_skip {A S : Type} (body : S -> A -> M S) (x : A)
    (before after : list A) (s0 : S) :
  (forall s, body s x = ret s) ->
  for_of (before ++ x :: after) body s0 = for_of (before ++ after) body s0.
Proof.
  intros Hx. rewrite !for_of_app. apply bind_ext. intros s.
  cbn [for_of]. now rewrite Hx, bind_ret.
Qed.

(** C5: for a file whose read or parse fails, strict mode aborts the merge,
    with the load error when the run gets to the file; lenient mode writes
    the warning, leaves the collection untouched, and the outcome is that of
    the merge of the other files. *)
Theorem C5_load_failure_aborts_or_is_skipped
    (localeCompare : string -> string -> Z) (opts : Options)
    (before after : list (string * Loaded)) (path message : string) :
  let files := before ++ (path, Rejected message) :: after in
  (ignoreErrors opts = false ->
   (exists e, outcome (Merge.main localeCompare opts files) = inl e) /\
   (forall s0, outcome (for_of before (Merge.mergeFile opts) []) = inr s0 ->
      outcome (Merge.main localeCompare opts files)
      = inl (Error (CouldntLoad path message))))
  /\
  (ignoreErrors opts = true ->
   outcome (Merge.main localeCompare opts files)
   = outcome (Merge.main localeCompare opts (before ++ after)) /\
   (forall s0, outcome (for_of before (Merge.mergeFile opts) []) = inr s0 ->
      Merge.mergeFile opts s0 (path, Rejected message)
      = ([Warning (CouldntLoad path message)], inr s0) /\
      In (Warning (CouldntLoad path message))
         (diagnostics (Merge.main localeCompare opts files)))).
Proof.
  intros files. split; intros Hmode.
  - assert (Hat : forall s0,
               outcome (for_of before (Merge.mergeFile opts) []) = inr s0 ->
               outcome (Merge.main localeCompare opts files)
               = inl (Error (CouldntLoad path message))).
    { intros s0 H0. rewrite main_outcome. unfold files.
      rewrite for_of_app, (bind_run _ _ _ H0). cbn [for_of].
      now rewrite (mergeFile_Rejected_strict _ _ _ _ Hmode). }
    split; [| exact Hat].
    destruct (outcome (for_of before (Merge.mergeFile opts) [])) as [e | s0] eqn:E.
    + exists e. rewrite main_outcome. unfold files.
      now rewrite for_of_app, (bind_inl _ _ _ E).
    + eexists. exact (Hat s0 eq_refl).
  - split.
    + rewrite !main_outcome. unfold files. rewrite !for_of_app.
      destruct (outcome (for_of before (Merge.mergeFile opts) [])) as [e | s0] eqn:E.
      * now rewrite !(bind_inl _ _ _ E).
      * rewrite !(bind_run _ _ _ E). cbn [for_of].
        rewrite (mergeFile_Rejected_lenient _ _ _ _ Hmode).
        unfold bind at 1. unfold outcome. cbn [snd]. reflexivity.
    + intros s0 H0. split; [now apply mergeFile_Rejected_lenient |].
      rewrite main_diagnostics. unfold files.
      rewrite for_of_app, (bind_run _ _ _ H0). cbn [for_of].
      rewrite (mergeFile_Rejected_lenient _ _ _ _ Hmode).
      unfold bind at 1. unfold diagnostics. cbn [fst].
      apply in_or_app. right. now left.
Qed.

Lemma C5_load_failure_aborts_or_is_skipped_witness :
  outcome (Merge.main codeUnitCompare lenient
             [("a.json", document [mkItem "k1" "Hello" (Some "")]);
              ("missing.json", Rejected "ENOENT: no such file or directory");
              ("b.json", document [mkItem "k2" "Bye" (Some "")])])
  = outcome (Merge.main codeUnitCompare lenient
               ([("a.json", document [mkItem "k1" "Hello" (Some "")])]
                ++ [("b.json", document [mkItem "k2" "Bye" (Some "")])])).
Proof.
  exact (proj1 (proj2 (C5_load_failure_aborts_or_is_skipped codeUnitCompare lenient
                         [("a.json", document [mkItem "k1" "Hello" (Some "")])]
                         [("b.json", document [mkItem "k2" "Bye" (Some "")])]
                         "missing.json" "ENOENT: no such file or directory")
                      eq_refl)).
Defined.

(** ** Parsed values without a translations array (C10) *)

Lemma Unchecked_mergeFile_Content (build : Unchecked.Build) (opts : Options)
    (s : Unchecked.Collection) (path : string) (v : Unchecked.JsonValue) :
  Unchecked.Merge.mergeFile build opts s (path, Unchecked.Content v) =
  bind (Unchecked.iterate build
          (Unchecked.or_empty (Unchecked.optional_translations (Some v))))
       (fun items => for_of items (Unchecked.Merge.mergeItem opts path) s).
Proof.
  unfold Unchecked.Merge.mergeFile, Unchecked.Merge.loadAndParse. cbn [fst snd].
  now rewrite bind_ret.
Qed.

Lemma Unchecked_Index_mergeFile_Content (build : Unchecked.Build)
    (s : Unchecked.Collection) (path : string) (v : Unchecked.JsonValue) :
  Unchecked.Index.mergeFile build s (path, Unchecked.Content v) =
  bind (Unchecked.iterate build
          (Unchecked.or_empty (Unchecked.optional_translations (Some v))))
       (fun items => for_of items Unchecked.Index.mergeItem s).
Proof.
  unfold Unchecked.Index.mergeFile, Unchecked.Index.loadAndParse. cbn [fst snd].
  now rewrite bind_ret.
Qed.

Lemma nothing_to_walk_iterate (build : Unchecked.Build) (v : Unchecked.JsonValue) :
  Unchecked.nothing_to_walk build v = true ->
  Unchecked.iterate build
    (Unchecked.or_empty (Unchecked.optional_translations (Some v)))
  = ret [].
Proof.
  unfold Unchecked.nothing_to_walk.
  destruct (Unchecked.optional_translations (Some v)) as [t |]; [| reflexivity].
  cbn [Unchecked.or_empty]. destruct (Unchecked.truthy t) eqn:E; [| reflexivity].
  cbn [negb orb].
  destruct build as [| array_like], t as [| b | n | s | l | fields];
    try discriminate; try reflexivity.
  cbn [Unchecked.iterate]. now destruct (Unchecked.field "length" fields).
Qed.

Lemma neither_array_nor_string_iterate (v : Unchecked.JsonValue) :
  Unchecked.neither_array_nor_string v = true ->
  Unchecked.iterate Unchecked.IteratorProtocol
    (Unchecked.or_empty (Unchecked.optional_translations (Some v)))
  = throw (TypeError "items is not iterable").
Proof.
  unfold Unchecked.neither_array_nor_string.
  destruct (Unchecked.optional_translations (Some v)) as [t |]; [| discriminate].
  cbn [Unchecked.or_empty].
  destruct t as [| b | n | s | l | fields]; try discriminate;
    cbn [Unchecked.truthy]; intros H; rewrite ?H; reflexivity.
Qed.

Lemma Unchecked_Set_fresh (o : Unchecked.Collection) (k : string)
    (e : Unchecked.Element) :
  Unchecked.getOwn o k = None -> Unchecked.Set_ o k e = o ++ [(k, e)].
Proof.
  induction o as [| [k' x] o IH]; cbn [Unchecked.getOwn Unchecked.Set_ app];
    [reflexivity |].
  destruct (k' =? k); [discriminate |]. intros H. now rewrite IH.
Qed.

Lemma Unchecked_getOwn_last (o : Unchecked.Collection) (k : string)
    (e : Unchecked.Element) :
  Unchecked.getOwn o k = None -> Unchecked.getOwn (o ++ [(k, e)]) k = Some e.
Proof.
  induction o as [| [k' x] o IH]; cbn [Unchecked.getOwn app].
  - now rewrite String.eqb_refl.
  - destruct (k' =? k); [discriminate | exact IH].
Qed.

(** Once a character is stored, every further character is its duplicate. *)
Lemma characters_skipped (opts : Options) (path : string) (c : ascii)
    (l : list ascii) (s : Unchecked.Collection) :
  Unchecked.getOwn s "undefined" = Some (Unchecked.Character c) ->
  for_of (map Unchecked.Character l) (Unchecked.Merge.mergeItem opts path) s
  = (map (fun _ => SkippingDuplicate "undefined") l, inr s)
  /\
  for_of (map Unchecked.Character l) Unchecked.Index.mergeItem s
  = (map (fun _ => SkippingDuplicate "undefined") l, inr s).
Proof.
  intros Hs. induction l as [| c' l [IHM IHI]]; cbn [map for_of];
    [split; reflexivity |].
  assert (HM : Unchecked.Merge.mergeItem opts path s (Unchecked.Character c')
               = ([SkippingDuplicate "undefined"], inr s)).
  { unfold Unchecked.Merge.mergeItem, Unchecked.Get.
    cbn [Unchecked.Element_key interpolate]. rewrite Hs.
    cbn [Unchecked.Property_value Unchecked.Property_context
         Unchecked.Element_value Unchecked.Element_context strict_eq
         truthy_string].
    rewrite andb_false_r. reflexivity. }
  assert (HI : Unchecked.Index.mergeItem s (Unchecked.Character c')
               = ([SkippingDuplicate "undefined"], inr s)).
  { unfold Unchecked.Index.mergeItem, Unchecked.Get.
    cbn [Unchecked.Element_key interpolate]. now rewrite Hs. }
  rewrite HM, HI. unfold bind. cbn iota beta. rewrite IHM, IHI.
  split; reflexivity.
Qed.

(** A non-empty string is walked character by character: the first one is
    stored under the key [undefined] when nothing is stored there. *)
Lemma string_is_walked (build : Unchecked.Build) (opts : Options) (path : string)
    (c : ascii) (rest : string) (s : Unchecked.Collection)
    (w : Unchecked.JsonValue) :
  Unchecked.optional_translations (Some w) = Some (Unchecked.VStr (String c rest)) ->
  Unchecked.getOwn s "undefined" = None ->
  Unchecked.Merge.mergeFile build opts s (path, Unchecked.Content w)
  = (map (fun _ => SkippingDuplicate "undefined") (list_ascii_of_string rest),
     inr (s ++ [("undefined", Unchecked.Character c)]))
  /\
  Unchecked.Index.mergeFile build s (path, Unchecked.Content w)
  = (map (fun _ => SkippingDuplicate "undefined") (list_ascii_of_string rest),
     inr (s ++ [("undefined", Unchecked.Character c)])).
Proof.
  intros Hw Hs.
  rewrite Unchecked_mergeFile_Content, Unchecked_Index_mergeFile_Content, Hw.
  cbn [Unchecked.or_empty Unchecked.truthy String.eqb negb Unchecked.iterate].
  rewrite !bind_ret. unfold Unchecked.characters.
  cbn [list_ascii_of_string map for_of].
  assert (HG : Unchecked.Get s "undefined" = Unchecked.Undefined).
  { unfold Unchecked.Get. now rewrite Hs. }
  unfold Unchecked.Merge.mergeItem at 1. unfold Unchecked.Index.mergeItem at 1.
  cbn [Unchecked.Element_key interpolate]. rewrite HG, !bind_ret.
  rewrite (Unchecked_Set_fresh _ _ _ Hs).
  exact (characters_skipped opts path c (list_ascii_of_string rest) _
           (Unchecked_getOwn_last _ _ _ Hs)).
Qed.

(** C10, counterexample: a file that parses to an object whose
    [translations] is the string ["ab"] does not abort the run and does not
    contribute zero entries.  The loop walks the two characters, in either
    build: the first is stored under the key [undefined], the second is
    reported as its duplicate, and the output holds the first character
    where the run over no file holds nothing.  This is so in every mode of
    the revision with options, and in [src/index.ts]. *)
Lemma C10_string_translations_are_walked :
  (forall (build : Unchecked.Build)
          (sort_with_character : list Unchecked.Element -> M (list Unchecked.Element))
          (opts : Options),
     Unchecked.Merge.main codeUnitCompare build sort_with_character opts
       [("a.json",
         Unchecked.Content (Unchecked.VObj [("translations", Unchecked.VStr "ab")]))]
     = ([SkippingDuplicate "undefined"],
        inr (Unchecked.mkFinalObject "EN" [Unchecked.Character "a"%char]))
     /\
     Unchecked.Merge.main codeUnitCompare build sort_with_character opts []
     = ([], inr (Unchecked.mkFinalObject "EN" [])))
  /\
  (forall build : Unchecked.Build,
     Unchecked.Index.main build
       [("a.json",
         Unchecked.Content (Unchecked.VObj [("translations", Unchecked.VStr "ab")]))]
     = ([SkippingDuplicate "undefined"],
        inr (Unchecked.mkFinalObject "EN" [Unchecked.Character "a"%char]))
     /\
     Unchecked.Index.main build []
     = ([], inr (Unchecked.mkFinalObject "EN" []))).
Proof.
  split.
  - intros build sort_with_character [[] [] []]; destruct build; split; reflexivity.
  - intros build; destruct build; split; reflexivity.
Qed.

(** C10, amended.  A file that parses to a value in whose [translations]
    the compiled loop finds nothing to walk contributes no entry, writes
    nothing and does not abort, in either mode and in [src/index.ts]: the
    run is that of the other files.  This is so in every build when the
    property is missing or falsy (the value may itself be [null], a
    primitive or an array), and in the build with the index loop also when
    it is a number, [true] or an object without an own [length].  In the
    build with the iterator protocol a [translations] that is truthy and
    neither an array nor a string makes the loop throw a [TypeError], in
    either mode and in [src/index.ts].  A [translations] that is a non-empty
    string is walked character by character in every build: when nothing is
    stored under the key [undefined] the first character is stored there,
    and each further character is reported as its duplicate. *)
Theorem C10_nothing_to_walk_contributes_nothing
    (localeCompare : string -> string -> Z) (build : Unchecked.Build)
    (sort_with_character : list Unchecked.Element -> M (list Unchecked.Element))
    (opts : Options) (before after : list (string * Unchecked.File))
    (path : string) (v : Unchecked.JsonValue) :
  (Unchecked.nothing_to_walk build v = true ->
   (forall s, Unchecked.Merge.mergeFile build opts s (path, Unchecked.Content v)
              = ret s) /\
   (forall s, Unchecked.Index.mergeFile build s (path, Unchecked.Content v)
              = ret s) /\
   Unchecked.Merge.main localeCompare build sort_with_character opts
     (before ++ (path, Unchecked.Content v) :: after)
   = Unchecked.Merge.main localeCompare build sort_with_character opts
       (before ++ after) /\
   Unchecked.Index.main build (before ++ (path, Unchecked.Content v) :: after)
   = Unchecked.Index.main build (before ++ after))
  /\
  (Unchecked.neither_array_nor_string v = true ->
   (forall s, Unchecked.Merge.mergeFile Unchecked.IteratorProtocol opts s
                (path, Unchecked.Content v)
              = throw (TypeError "items is not iterable")) /\
   (forall s, Unchecked.Index.mergeFile Unchecked.IteratorProtocol s
                (path, Unchecked.Content v)
              = throw (TypeError "items is not iterable")))
  /\
  (forall (c : ascii) (rest : string) (s : Unchecked.Collection)
          (w : Unchecked.JsonValue),
     Unchecked.optional_translations (Some w)
     = Some (Unchecked.VStr (String c rest)) ->
     Unchecked.getOwn s "undefined" = None ->
     Unchecked.Merge.mergeFile build opts s (path, Unchecked.Content w)
     = (map (fun _ => SkippingDuplicate "undefined") (list_ascii_of_string rest),
        inr (s ++ [("undefined", Unchecked.Character c)]))
     /\
     Unchecked.Index.mergeFile build s (path, Unchecked.Content w)
     = (map (fun _ => SkippingDuplicate "undefined") (list_ascii_of_string rest),
        inr (s ++ [("undefined", Unchecked.Character c)]))).
Proof.
  split; [| split; [| intros c rest s w; apply string_is_walked]].
  - intros Hv. pose proof (nothing_to_walk_iterate build v Hv) as Hitems.
    assert (HM : forall s, Unchecked.Merge.mergeFile build opts s
                             (path, Unchecked.Content v) = ret s).
    { intros s. rewrite Unchecked_mergeFile_Content, Hitems. now rewrite bind_ret. }
    assert (HI : forall s, Unchecked.Index.mergeFile build s
                             (path, Unchecked.Content v) = ret s).
    { intros s. rewrite Unchecked_Index_mergeFile_Content, Hitems.
      now rewrite bind_ret. }
    repeat split; try assumption.
    + unfold Unchecked.Merge.main. now rewrite (for_of_skip _ _ _ _ _ HM).
    + unfold Unchecked.Index.main. now rewrite (for_of_skip _ _ _ _ _ HI).
  - intros Hv. pose proof (neither_array_nor_string_iterate v Hv) as Hitems.
    split; intros s.
    + now rewrite Unchecked_mergeFile_Content, Hitems.
    + now rewrite Unchecked_Index_mergeFile_Content, Hitems.
Qed.

Lemma C10_nothing_to_walk_contributes_nothing_witness :
  Unchecked.Merge.main codeUnitCompare
    (Unchecked.IndexLoop (fun _ => ret [])) (fun l => ret l) strict
    ([("a.json",
       Unchecked.Content
         (Unchecked.VObj
            [("translations", Unchecked.VArr [mkItem "k1" "Hello" (Some "")])]))]
     ++ ("c.json",
         Unchecked.Content (Unchecked.VObj [("translations", Unchecked.VNum 5)]))
        :: [("null.json", Unchecked.Content Unchecked.VNull)])
  = Unchecked.Merge.main codeUnitCompare
      (Unchecked.IndexLoop (fun _ => ret [])) (fun l => ret l) strict
      ([("a.json",
         Unchecked.Content
           (Unchecked.VObj
              [("translations", Unchecked.VArr [mkItem "k1" "Hello" (Some "")])]))]
       ++ [("null.json", Unchecked.Content Unchecked.VNull)])
  /\
  Unchecked.Merge.mergeFile Unchecked.IteratorProtocol strict []
    ("c.json",
     Unchecked.Content (Unchecked.VObj [("translations", Unchecked.VNum 5)]))
  = throw (TypeError "items is not iterable")
  /\
  Unchecked.Merge.mergeFile (Unchecked.IndexLoop (fun _ => ret [])) strict []
    ("c.json",
     Unchecked.Content (Unchecked.VObj [("translations", Unchecked.VStr "ab")]))
  = (map (fun _ => SkippingDuplicate "undefined") (list_ascii_of_string "b"),
     inr ([] ++ [("undefined", Unchecked.Character "a"%char)])).
Proof.
  destruct (C10_nothing_to_walk_contributes_nothing codeUnitCompare
              (Unchecked.IndexLoop (fun _ => ret [])) (fun l => ret l) strict
              [("a.json",
                Unchecked.Content
                  (Unchecked.VObj
                     [("translations",
                       Unchecked.VArr [mkItem "k1" "Hello" (Some "")])]))]
              [("null.json", Unchecked.Content Unchecked.VNull)]
              "c.json"
              (Unchecked.VObj [("translations", Unchecked.VNum 5)]))
    as (Hnothing & Hthrows & Hstring).
  split; [| split].
  - exact (proj1 (proj2 (proj2 (Hnothing eq_refl)))).
  - exact (proj1 (Hthrows eq_refl) []).
  - exact (proj1 (Hstring "a"%char "b" []
                    (Unchecked.VObj [("translations", Unchecked.VStr "ab")])
                    eq_refl eq_refl)).
Defined.

(** ** Documents with distinct keys (C7) *)

Lemma existsb_eqb_In (k : string) (l : list string) :
  existsb (String.eqb k) l = true <-> In k l.
Proof.
  rewrite existsb_exists. split.
  - intros (k' & Hin & E). apply String.eqb_eq in E. now subst.
  - intros H. exists k. split; [exact H | apply String.eqb_refl].
Qed.

Lemma items_all_created (opts : Options) (path : string)
    (items : list TranslationItem) (s : ItemRecord) :
  NoDup (map fst s ++ map key items) ->
  Forall (fun it => inherited (key it) = false) items ->
  for_of items (Merge.mergeItem opts path) s = ret (s ++ map property_of items).
Proof.
  revert s. induction items as [| it items IH]; intros s Hnd Hni; cbn [for_of map].
  - now rewrite app_nil_r.
  - inversion Hni as [| ? ? Hit Hni']; subst.
    assert (Hfresh : getOwn s (key it) = None).
    { apply getOwn_None. intros Hin. cbn [map] in Hnd.
      apply NoDup_remove_2 in Hnd. apply Hnd. apply in_or_app. now left. }
    assert (Hstep : Merge.mergeItem opts path s it = ret (s ++ [property_of it])).
    { unfold Merge.mergeItem.
      replace (Get s (key it)) with Undefined
        by (symmetry; now apply Get_Undefined).
      now rewrite (Set_fresh _ _ _ Hfresh). }
    rewrite Hstep, bind_ret, IH; [| | exact Hni'].
    + now rewrite <- app_assoc.
    + rewrite map_app. cbn [map property_of fst]. rewrite <- app_assoc. exact Hnd.
Qed.

Lemma files_all_created (opts : Options) (files : list (string * Loaded))
    (s : ItemRecord) :
  Forall (fun f => is_document (snd f) = true) files ->
  NoDup (map fst s ++ map key (input_items files)) ->
  Forall (fun it => inherited (key it) = false) (input_items files) ->
  for_of files (Merge.mergeFile opts) s
  = ret (s ++ map property_of (input_items files)).
Proof.
  revert s. induction files as [| [path f] files IH]; intros s Hdoc Hnd Hni;
    cbn [for_of input_items flat_map].
  - now rewrite app_nil_r.
  - inversion Hdoc as [| ? ? Hf Hdoc']; subst. cbn [snd] in Hf.
    unfold input_items in Hnd, Hni. cbn [flat_map snd] in Hnd, Hni.
    fold (input_items files) in Hnd, Hni.
    rewrite map_app in Hnd. apply Forall_app in Hni as [Hni1 Hni2].
    assert (Hstep : Merge.mergeFile opts s (path, f)
                    = ret (s ++ map property_of (items_of f))).
    { destruct f as [message | j]; [discriminate |].
      rewrite mergeFile_Parsed. cbn [is_document items_of] in *.
      destruct (or_empty (optional_translations (Some j))); try discriminate.
      cbn [iterate]. rewrite bind_ret. apply items_all_created; [| exact Hni1].
      rewrite app_assoc in Hnd. now apply NoDup_app_remove_r in Hnd. }
    rewrite Hstep, bind_ret, IH; [| exact Hdoc' | | exact Hni2].
    + cbn [snd]. now rewrite map_app, <- app_assoc.
    + rewrite map_app, <- app_assoc.
      assert (Hk : map fst (map property_of (items_of f)) = map key (items_of f))
        by (rewrite map_map; reflexivity).
      now rewrite Hk.
Qed.

Lemma input_items_length (files : list (string * Loaded)) :
  List.length (input_items files)
  = list_sum (map (fun f => List.length (items_of (snd f))) files).
Proof.
  unfold input_items. induction files as [| f files IH]; cbn [flat_map map list_sum];
    [reflexivity |].
  now rewrite length_app, IH.
Qed.

(** C7, counterexample: two documents whose key sets are disjoint, the first
    holding the same entry twice; the output has two entries, the input
    three. *)
Lemma C7_duplicate_within_a_document_is_merged :
  let a := [mkItem "k1" "Hello" (Some ""); mkItem "k1" "Hello" (Some "")] in
  let b := [mkItem "k2" "Bye" (Some "")] in
  (forall k, In k (map key a) -> ~ In k (map key b)) /\
  Merge.main codeUnitCompare strict [("a.json", document a); ("b.json", document b)]
  = ([SkippingDuplicate "k1"],
     inr (mkObject "EN" [mkItem "k1" "Hello" (Some ""); mkItem "k2" "Bye" (Some "")])) /\
  List.length [mkItem "k1" "Hello" (Some ""); mkItem "k2" "Bye" (Some "")]
  <> List.length a + List.length b.
Proof.
  cbv zeta. split; [| split].
  - simpl. intros k [<- | [<- | []]] [H | []]; discriminate.
  - reflexivity.
  - simpl. discriminate.
Qed.

(** C7, amended: when every file loads as a document, all entry keys are
    distinct, across the documents and within each, and none of them names a
    member of [Object.prototype], the merge completes in either mode without
    a diagnostic, and its output holds exactly the input entries: as many as
    the documents hold together. *)
Theorem C7_distinct_keys_give_the_union
    (localeCompare : string -> string -> Z) (opts : Options)
    (files : list (string * Loaded)) :
  Forall (fun f => is_document (snd f) = true) files ->
  NoDup (map key (input_items files)) ->
  Forall (fun it => inherited (key it) = false) (input_items files) ->
  exists doc,
    Merge.main localeCompare opts files = ([], inr doc) /\
    Permutation (translations doc) (input_items files) /\
    List.length (translations doc)
    = list_sum (map (fun f => List.length (items_of (snd f))) files).
Proof.
  intros Hdoc Hnd Hni.
  pose proof (files_all_created opts files [] Hdoc Hnd Hni) as Hrun.
  cbn [app] in Hrun.
  exists (mkObject "EN"
            (Merge.finish localeCompare opts (map property_of (input_items files)))).
  assert (Hperm : Permutation
                    (Merge.finish localeCompare opts
                       (map property_of (input_items files)))
                    (input_items files)).
  { rewrite finish_Permutation, map_map. cbn [property_of snd]. now rewrite map_id. }
  split; [| split].
  - unfold Merge.main. now rewrite Hrun, bind_ret.
  - exact Hperm.
  - cbn [translations]. rewrite (Permutation_length Hperm).
    apply input_items_length.
Qed.

Lemma C7_distinct_keys_give_the_union_witness :
  exists doc,
    Merge.main codeUnitCompare strict
      [("a.json", document [mkItem "k2" "Bye" (Some "")]);
       ("b.json", document [mkItem "k1" "Hello" (Some "")])]
    = ([], inr doc) /\
    Permutation (translations doc)
      (input_items [("a.json", document [mkItem "k2" "Bye" (Some "")]);
                    ("b.json", document [mkItem "k1" "Hello" (Some "")])]) /\
    List.length (translations doc)
    = list_sum (map (fun f => List.length (items_of (snd f)))
                  [("a.json", document [mkItem "k2" "Bye" (Some "")]);
                   ("b.json", document [mkItem "k1" "Hello" (Some "")])]).
Proof.
  apply (C7_distinct_keys_give_the_union codeUnitCompare strict
           [("a.json", document [mkItem "k2" "Bye" (Some "")]);
            ("b.json", document [mkItem "k1" "Hello" (Some "")])]).
  - repeat constructor.
  - simpl. repeat constructor; simpl; intuition discriminate.
  - repeat constructor.
Defined.

(** ** The order of the output (C3) *)

Lemma first_seen_from_app (seen a b : list string) :
  first_seen_from seen (a ++ b)
  = first_seen_from seen a
    ++ first_seen_from (seen ++ first_seen_from seen a) b.
Proof.
  revert seen. induction a as [| k a IH]; intros seen; cbn [app first_seen_from].
  - now rewrite app_nil_r.
  - destruct (existsb (String.eqb k) seen).
    + apply IH.
    + rewrite IH. cbn [app]. now rewrite <- app_assoc.
Qed.

Lemma first_seen_from_incl (seen ks : list string) (k : string) :
  In k (first_seen_from seen ks) -> In k ks.
Proof.
  revert seen. induction ks as [| k' ks IH]; intros seen; cbn [first_seen_from];
    [tauto |].
  destruct (existsb (String.eqb k') seen).
  - intros H. right. eapply IH, H.
  - intros [-> | H]; [now left | right; eapply IH, H].
Qed.

(** A step whose key is not inherited adds the key if it is new. *)
Lemma step_keys (opts : Options) (s s' : ItemRecord) (item : TranslationItem) :
  step opts s item s' -> inherited (key item) = false ->
  map fst s' = map fst s ++ first_seen_from (map fst s) [key item].
Proof.
  intros Hstep Hni. cbn [first_seen_from].
  destruct (existsb (String.eqb (key item)) (map fst s)) eqn:E.
  - rewrite app_nil_r. apply existsb_eqb_In in E.
    destruct Hstep as [Hn _ | _ | x _ _ _ _ _].
    + apply getOwn_None in Hn. contradiction.
    + reflexivity.
    + apply setContext_keys.
  - assert (Hn : getOwn s (key item) = None).
    { apply getOwn_None. intros Hin. apply existsb_eqb_In in Hin. congruence. }
    destruct Hstep as [_ _ | HG | x Hx _ _ _ _].
    + now rewrite map_app.
    + exfalso. apply HG. now apply Get_Undefined.
    + congruence.
Qed.

Lemma items_keys (opts : Options) (path : string) (items : list TranslationItem)
    (s s' : ItemRecord) :
  Forall (fun it => inherited (key it) = false) items ->
  outcome (for_of items (Merge.mergeItem opts path) s) = inr s' ->
  map fst s' = map fst s ++ first_seen_from (map fst s) (map key items).
Proof.
  revert s. induction items as [| it items IH]; intros s Hni Hrun.
  - unfold outcome in Hrun. simpl in Hrun. injection Hrun as <-.
    now rewrite app_nil_r.
  - inversion Hni as [| ? ? Hit Hni']; subst.
    cbn [for_of] in Hrun. apply bind_inr in Hrun as (s1 & H1 & H2 & _).
    apply mergeItem_step in H1. pose proof (step_keys _ _ _ _ H1 Hit) as Hk1.
    rewrite (IH s1 Hni' H2), Hk1. cbn [map].
    change (key it :: map key items) with ([key it] ++ map key items).
    now rewrite first_seen_from_app, app_assoc.
Qed.

Lemma files_keys (opts : Options) (files : list (string * Loaded))
    (s s' : ItemRecord) :
  Forall (fun it => inherited (key it) = false) (input_items files) ->
  outcome (for_of files (Merge.mergeFile opts) s) = inr s' ->
  map fst s' = map fst s ++ first_seen_from (map fst s) (map key (input_items files)).
Proof.
  revert s. induction files as [| f files IH]; intros s Hni Hrun.
  - unfold outcome in Hrun. simpl in Hrun. injection Hrun as <-.
    now rewrite app_nil_r.
  - unfold input_items in Hni |- *. cbn [flat_map] in Hni |- *.
    fold (input_items files) in Hni |- *.
    apply Forall_app in Hni as [Hni1 Hni2].
    cbn [for_of] in Hrun. apply bind_inr in Hrun as (s1 & H1 & H2 & _).
    apply mergeFile_items in H1. pose proof (items_keys _ _ _ _ _ Hni1 H1) as Hk1.
    rewrite (IH s1 Hni2 H2), Hk1, map_app, first_seen_from_app.
    now rewrite app_assoc.
Qed.

Lemma map_fst_filter (P : string -> bool) (o : ItemRecord) :
  map fst (filter (fun p => P (fst p)) o) = filter P (map fst o).
Proof.
  induction o as [| [k it] o IH]; simpl; [reflexivity |].
  destruct (P k); simpl; now rewrite IH.
Qed.

Lemma map_key_snd (o : ItemRecord) :
  Forall (fun p => key (snd p) = fst p) o -> map key (map snd o) = map fst o.
Proof.
  induction 1 as [| p o Hp _ IH]; simpl; [reflexivity |]. now rewrite Hp, IH.
Qed.

(** The keys of [Object.values(allItems)] are the own keys in the order of
    own property keys. *)
Lemma Object_values_keys (o : ItemRecord) :
  well_keyed o -> map key (Object_values o) = own_key_order (map fst o).
Proof.
  intros [_ Hk]. unfold Object_values, own_key_order.
  rewrite <- map_app, map_key_snd.
  - rewrite map_app, (map_fst_filter (fun k => negb (is_array_index k))).
    rewrite <- (Array_sort_map fst compare_index compare_keys)
      by (intros a b; reflexivity).
    now rewrite (map_fst_filter is_array_index).
  - apply Forall_app. split.
    + rewrite Forall_forall in *. intros p Hp.
      apply (Permutation_in _ (Array_sort_Permutation _ _)) in Hp.
      apply filter_In in Hp as [Hp _]. now apply Hk.
    + rewrite Forall_forall in *. intros p Hp.
      apply filter_In in Hp as [Hp _]. now apply Hk.
Qed.

Lemma filter_all {A : Type} (P : A -> bool) (l : list A) :
  Forall (fun x => P x = true) l -> filter P l = l.
Proof. induction 1 as [| x l Hx _ IH]; simpl; [reflexivity |]. now rewrite Hx, IH. Qed.

Lemma filter_none {A : Type} (P : A -> bool) (l : list A) :
  Forall (fun x => P x = false) l -> filter P l = [].
Proof. induction 1 as [| x l Hx _ IH]; simpl; [reflexivity |]. now rewrite Hx. Qed.

Lemma own_key_order_no_index (ks : list string) :
  Forall (fun k => is_array_index k = false) ks -> own_key_order ks = ks.
Proof.
  intros H. unfold own_key_order. rewrite (filter_none _ _ H). cbn [Array_sort app].
  apply filter_all. eapply Forall_impl; [| exact H].
  intros k Hk. cbn beta. now rewrite Hk.
Qed.

Lemma compare_keys_total (a b : string) :
  (compare_keys a b > 0)%Z -> (compare_keys b a <= 0)%Z.
Proof.
  unfold compare_keys.
  destruct (array_index a), (array_index b); lia.
Qed.

Lemma Sorted_strengthen {A : Type} (R R' : A -> A -> Prop) (P : A -> Prop)
    (l : list A) :
  (forall a b, P a -> P b -> R a b -> R' a b) ->
  Forall P l -> Sorted R l -> Sorted R' l.
Proof.
  intros Himp HP Hs. induction Hs as [| a l Hs IH Hhd]; [constructor |].
  inversion HP as [| ? ? Ha HP']; subst. constructor; [now apply IH |].
  destruct Hhd as [| b l Hab]; constructor.
  inversion HP' as [| ? ? Hb _]; subst. now apply Himp.
Qed.

(** The array-index keys of the own property key order are ascending. *)
Lemma own_key_order_index_Sorted (ks : list string) :
  Sorted index_le (filter is_array_index (own_key_order ks)).
Proof.
  unfold own_key_order. rewrite filter_app.
  assert (Hall : Forall (fun k => is_array_index k = true)
                        (Array_sort compare_keys (filter is_array_index ks))).
  { rewrite Forall_forall. intros k Hk.
    apply (Permutation_in _ (Array_sort_Permutation _ _)) in Hk.
    now apply filter_In in Hk. }
  rewrite (filter_all _ _ Hall),
    (filter_none is_array_index (filter (fun k => negb (is_array_index k)) ks)),
    app_nil_r.
  - apply (Sorted_strengthen (fun a b => compare_keys a b <= 0)%Z index_le
             (fun k => is_array_index k = true)); [| exact Hall |].
    + intros a b Ha Hb Hab. unfold index_le, is_array_index, compare_keys in *.
      destruct (array_index a) as [m |]; [| discriminate].
      destruct (array_index b) as [n |]; [| discriminate].
      exists m, n. repeat split. lia.
    + apply Array_sort_Sorted. apply compare_keys_total.
  - rewrite Forall_forall. intros k Hk. apply filter_In in Hk as [_ Hk].
    now apply negb_true_iff in Hk.
Qed.

Lemma Sorted_map {A B : Type} (f : A -> B) (R : B -> B -> Prop) (l : list A) :
  Sorted (fun a b => R (f a) (f b)) l -> Sorted R (map f l).
Proof.
  induction 1 as [| a l Hs IH Hhd]; simpl; [constructor |].
  constructor; [exact IH |]. destruct Hhd; simpl; now constructor.
Qed.

(** C3, counterexample: with sorting off, a document that lists key [b]
    before key [1] is printed with [1] before [b]. *)
Lemma C3_array_index_key_overtakes :
  let files :=
    [("a.json", document [mkItem "b" "x" (Some ""); mkItem "1" "y" (Some "")])] in
  exists doc,
    outcome (Merge.main codeUnitCompare (mkOptions false false true) files) = inr doc /\
    map key (translations doc) = ["1"; "b"] /\
    first_seen_order (map key (input_items files)) = ["b"; "1"] /\
    map key (translations doc) <> first_seen_order (map key (input_items files)).
Proof.
  cbv zeta. eexists. split; [reflexivity |]. repeat split. discriminate.
Qed.

(** C3, amended: in a run that completes, with [sort] on the keys of the
    output are non-decreasing under [localeCompare] whatever the input order
    (for a [localeCompare] that puts one of any two keys first).  With
    [sort] off and no key naming a member of [Object.prototype], the output
    is in the order of own property keys: the keys that are array indices
    first, in ascending numeric order, then the other keys in the order in
    which they were first seen; so it is the first-seen order whenever no key
    is an array index. *)
Theorem C3_output_sorted_or_in_own_key_order
    (localeCompare : string -> string -> Z) (opts : Options)
    (files : list (string * Loaded)) (doc : TranslationObject) :
  outcome (Merge.main localeCompare opts files) = inr doc ->
  (sort opts = true ->
   (forall a b, (localeCompare a b > 0)%Z -> (localeCompare b a <= 0)%Z) ->
   Sorted (fun a b => localeCompare a b <= 0)%Z (map key (translations doc)))
  /\
  (sort opts = false ->
   Forall (fun it => inherited (key it) = false) (input_items files) ->
   let seen := first_seen_order (map key (input_items files)) in
   map key (translations doc) = own_key_order seen /\
   Sorted index_le (filter is_array_index (map key (translations doc))) /\
   (Forall (fun it => is_array_index (key it) = false) (input_items files) ->
    map key (translations doc) = seen)).
Proof.
  intros Hdoc. apply main_inr in Hdoc as (s & Hs & Hwf & ->). cbn [translations].
  split.
  - intros Hsort Htotal. unfold Merge.finish. rewrite Hsort.
    apply Sorted_map. unfold Merge.sortTranslations.
    apply (Array_sort_Sorted (fun a b => localeCompare (key a) (key b))).
    intros a b. apply Htotal.
  - intros Hsort Hni. unfold Merge.finish. rewrite Hsort.
    rewrite (Object_values_keys _ Hwf).
    pose proof (files_keys _ _ _ _ Hni Hs) as Hkeys. cbn [map app] in Hkeys.
    fold (first_seen_order (map key (input_items files))) in Hkeys.
    rewrite Hkeys.
    split; [reflexivity |]. split; [apply own_key_order_index_Sorted |].
    intros Hnoidx. apply own_key_order_no_index.
    rewrite Forall_forall in *. intros k Hk.
    apply first_seen_from_incl, in_map_iff in Hk as (it & <- & Hit).
    now apply Hnoidx.
Qed.

Lemma codeUnitCompare_total (a b : string) :
  (codeUnitCompare a b > 0)%Z -> (codeUnitCompare b a <= 0)%Z.
Proof.
  unfold codeUnitCompare. rewrite (String.compare_antisym b a).
  destruct (String.compare a b); simpl; lia.
Qed.

Lemma C3_output_sorted_or_in_own_key_order_witness :
  Sorted (fun a b => codeUnitCompare a b <= 0)%Z
    (map key
       (translations
          (mkObject "EN" [mkItem "a" "z" (Some ""); mkItem "b" "x" (Some "")]))).
Proof.
  apply (proj1 (C3_output_sorted_or_in_own_key_order codeUnitCompare strict
                  [("a.json", document [mkItem "b" "x" (Some "")]);
                   ("b.json", document [mkItem "a" "z" (Some "")])]
                  (mkObject "EN" [mkItem "a" "z" (Some ""); mkItem "b" "x" (Some "")])
                  eq_refl)).
  - reflexivity.
  - exact codeUnitCompare_total.
Defined.

(** ** Missing contexts (C8) *)

Lemma M_map_ret {A B : Type} (g : A -> B) (a : A) : M_map g (ret a) = ret (g a).
Proof. reflexivity. Qed.

Lemma bind_M_map {A B C : Type} (g : A -> B) (m : M A) (k : B -> M C) :
  bind (M_map g m) k = bind m (fun a => k (g a)).
Proof. now destruct m as [log [e | a]]. Qed.

Lemma M_map_bind {A B C : Type} (h : B -> C) (m : M A) (k : A -> M B) :
  M_map h (bind m k) = bind m (fun a => M_map h (k a)).
Proof. now destruct m as [log [e | a]]. Qed.

Lemma for_of_M_map {A A' S S' : Type} (f : A -> A') (g : S -> S')
    (body : S -> A -> M S) (body' : S' -> A' -> M S') :
  (forall s x, body' (g s) (f x) = M_map g (body s x)) ->
  forall xs s, for_of (map f xs) body' (g s) = M_map g (for_of xs body s).
Proof.
  intros Hb xs. induction xs as [| x xs IH]; intros s; cbn [map for_of].
  - reflexivity.
  - rewrite Hb, bind_M_map, M_map_bind. apply bind_ext. intros s1. apply IH.
Qed.

Lemma getOwn_default (s : ItemRecord) (k : string) :
  getOwn (default_stored s) k = option_map default_context (getOwn s k).
Proof.
  induction s as [| [k' it] s IH]; simpl; [reflexivity |].
  destruct (k' =? k); [reflexivity | exact IH].
Qed.

Lemma Set_default (s : ItemRecord) (k : string) (item : TranslationItem) :
  Set_ (default_stored s) k (default_context item) = default_stored (Set_ s k item).
Proof.
  induction s as [| [k' it] s IH]; simpl; [reflexivity |].
  destruct (k' =? k); simpl; [reflexivity | now rewrite IH].
Qed.

Lemma setContext_default (s : ItemRecord) (k c : string) :
  setContext (default_stored s) k (Some c) = default_stored (setContext s k (Some c)).
Proof.
  induction s as [| [k' it] s IH]; simpl; [reflexivity |].
  destruct (k' =? k); simpl; [reflexivity | now rewrite IH].
Qed.

Lemma truthy_default (it : TranslationItem) :
  truthy_string (context (default_context it)) = truthy_string (context it).
Proof. unfold default_context. simpl. now destruct (context it). Qed.

(** A step on the defaulted collection and item is the defaulted step. *)
Lemma mergeItem_default (opts : Options) (path : string) (s : ItemRecord)
    (item : TranslationItem) :
  Merge.mergeItem opts path (default_stored s) (default_context item)
  = M_map default_stored (Merge.mergeItem opts path s item).
Proof.
  unfold Merge.mergeItem, Get. cbn [default_context key value].
  rewrite getOwn_default.
  destruct (getOwn s (key item)) as [x |]; cbn [option_map].
  - cbn [Property_value Property_context]. cbn [default_context value].
    destruct (strict_eq (Some (value x)) (Some (value item))).
    + fold (default_context x). rewrite truthy_default.
      fold (default_context item). rewrite truthy_default.
      destruct (mergeContext opts && negb (truthy_string (context x))
                && truthy_string (context item)) eqn:E.
      * apply andb_true_iff in E as [_ E].
        destruct (context item) as [c |] eqn:Hc; [| discriminate].
        assert (Hd : context (default_context item) = Some c)
          by (unfold default_context; rewrite Hc; reflexivity).
        rewrite !Hd. cbn [interpolate]. now rewrite setContext_default.
      * reflexivity.
    + destruct (negb (ignoreErrors opts)); reflexivity.
  - destruct (inherited (key item)).
    + cbn [Property_value strict_eq].
      destruct (negb (ignoreErrors opts)); reflexivity.
    + fold (default_context item). now rewrite Set_default.
Qed.

Lemma field_default (name : string) (fields : list (string * json)) :
  field name
    (map (fun nv => match snd nv with
                    | JArr l => (fst nv, JArr (map default_context l))
                    | _ => nv
                    end) fields)
  = option_map (fun v => match v with
                         | JArr l => JArr (map default_context l)
                         | _ => v
                         end) (field name fields).
Proof.
  induction fields as [| [n v] fields IH]; simpl; [reflexivity |].
  destruct v; simpl; destruct (n =? name); try reflexivity; exact IH.
Qed.

Lemma mergeFile_default (opts : Options) (s : ItemRecord) (f : string * Loaded) :
  Merge.mergeFile opts (default_stored s) (default_contexts f)
  = M_map default_stored (Merge.mergeFile opts s f).
Proof.
  destruct f as [path [message | j]].
  - unfold default_contexts. cbn [snd].
    destruct (ignoreErrors opts) eqn:E.
    + now rewrite !(mergeFile_Rejected_lenient _ _ _ _ E).
    + now rewrite !(mergeFile_Rejected_strict _ _ _ _ E).
  - assert (Hskip : forall j', optional_translations (Some j') = None ->
               Merge.mergeFile opts (default_stored s) (path, Parsed j')
               = M_map default_stored (Merge.mergeFile opts s (path, Parsed j'))).
    { intros j' Hj'. rewrite !mergeFile_Parsed, Hj'. cbn [or_empty iterate].
      now rewrite !bind_ret. }
    destruct j as [| b | n | l | fields]; try (now apply Hskip).
    unfold default_contexts. cbn [snd fst].
    rewrite !mergeFile_Parsed. cbn [optional_translations].
    rewrite field_default.
    destruct (field "translations" fields) as [v |]; cbn [option_map or_empty].
    + destruct v as [| b | n | l | fs]; cbn [truthy];
        try (cbn [iterate]; rewrite ?bind_ret, ?bind_throw; reflexivity).
      * destruct b; cbn [iterate]; rewrite ?bind_ret, ?bind_throw; reflexivity.
      * destruct (negb (n =? 0)%Z); cbn [iterate];
          rewrite ?bind_ret, ?bind_throw; reflexivity.
      * cbn [iterate]. rewrite !bind_ret.
        apply for_of_M_map. intros s0 x. apply mergeItem_default.
    + cbn [iterate]. now rewrite !bind_ret.
Qed.

Lemma filter_default (P : string -> bool) (s : ItemRecord) :
  filter (fun p => P (fst p)) (default_stored s)
  = default_stored (filter (fun p => P (fst p)) s).
Proof.
  induction s as [| [k it] s IH]; simpl; [reflexivity |].
  destruct (P k); simpl; now rewrite IH.
Qed.

Lemma Object_values_default (s : ItemRecord) :
  Object_values (default_stored s) = map default_context (Object_values s).
Proof.
  unfold Object_values.
  rewrite (filter_default is_array_index),
    (filter_default (fun k => negb (is_array_index k))).
  unfold default_stored at 1.
  rewrite (Array_sort_map _ compare_index compare_index)
    by (intros a b; reflexivity).
  rewrite map_app. unfold default_stored. now rewrite !map_map.
Qed.

Lemma finish_default (localeCompare : string -> string -> Z) (opts : Options)
    (s : ItemRecord) :
  Merge.finish localeCompare opts (default_stored s)
  = map default_context (Merge.finish localeCompare opts s).
Proof.
  unfold Merge.finish, Merge.sortTranslations. rewrite Object_values_default.
  destruct (sort opts); [| reflexivity].
  apply Array_sort_map. intros a b. reflexivity.
Qed.

Lemma main_default (localeCompare : string -> string -> Z) (opts : Options)
    (files : list (string * Loaded)) :
  Merge.main localeCompare opts (map default_contexts files)
  = M_map (fun doc => mkObject (language doc)
                               (map default_context (translations doc)))
          (Merge.main localeCompare opts files).
Proof.
  unfold Merge.main.
  change (@nil (string * TranslationItem)) with (default_stored []) at 1.
  rewrite (for_of_M_map default_contexts default_stored
             (Merge.mergeFile opts) (Merge.mergeFile opts))
    by (intros s f; apply mergeFile_default).
  rewrite bind_M_map, M_map_bind. apply bind_ext. intros s.
  now rewrite finish_default.
Qed.

(** C8, counterexample: an entry read without [context] is printed without
    it, not with the empty string. *)
Lemma C8_missing_context_stays_missing :
  Merge.main codeUnitCompare strict
    [("a.json", document [mkItem "k1" "Hello" None])]
  = ([], inr (mkObject "EN" [mkItem "k1" "Hello" None]))
  /\ context (mkItem "k1" "Hello" None) <> Some "".
Proof. split; [reflexivity | discriminate]. Qed.

(** C8, amended: the merge treats a missing [context] as the empty string:
    the run over the input with every missing context defaulted writes the
    same diagnostics and ends the same way, its output being the output of
    the original run with the missing contexts defaulted.  The output itself
    is not defaulted: each output entry has the key, value and context of
    the input entry its key was first seen with, a missing context included,
    unless a non-empty context was backfilled onto an empty or missing one. *)
Theorem C8_missing_context_treated_as_empty_but_not_printed
    (localeCompare : string -> string -> Z) (opts : Options)
    (files : list (string * Loaded)) :
  Merge.main localeCompare opts (map default_contexts files)
  = M_map (fun doc => mkObject (language doc)
                               (map default_context (translations doc)))
          (Merge.main localeCompare opts files)
  /\
  (forall doc, outcome (Merge.main localeCompare opts files) = inr doc ->
     forall y, In y (translations doc) ->
       exists x, first_seen_as (input_items files) (key y) x /\
                 only_context_backfilled opts x y).
Proof.
  split; [apply main_default |].
  intros doc Hdoc y Hy. apply main_inr in Hdoc as (s & Hs & Hwf & ->).
  cbn [translations] in Hy. apply In_finish in Hy; [| exact Hwf].
  pose proof (files_collects _ _ _ _ _ (collects_nil opts) Hs) as [HQ _].
  exact (HQ _ _ Hy).
Qed.

Lemma C8_missing_context_treated_as_empty_but_not_printed_witness :
  exists x,
    first_seen_as (input_items [("a.json", document [mkItem "k1" "Hello" None])])
                  "k1" x /\
    only_context_backfilled strict x (mkItem "k1" "Hello" None).
Proof.
  apply (proj2 (C8_missing_context_treated_as_empty_but_not_printed
                  codeUnitCompare strict
                  [("a.json", document [mkItem "k1" "Hello" None])])
               (mkObject "EN" [mkItem "k1" "Hello" None]) eq_refl
               (mkItem "k1" "Hello" None)).
  now left.
Defined.

(** ** One entry per key (C4) *)

(** The keys of the output are distinct. *)
Lemma output_keys_NoDup (localeCompare : string -> string -> Z) (opts : Options)
    (files : list (string * Loaded)) (doc : TranslationObject) :
  outcome (Merge.main localeCompare opts files) = inr doc ->
  NoDup (map key (translations doc)).
Proof.
  intros Hdoc. apply main_inr in Hdoc as (s & Hs & Hwf & ->). cbn [translations].
  apply (Permutation_NoDup
           (Permutation_sym (Permutation_map key (finish_Permutation _ _ _)))).
  destruct Hwf as [Hnd Hk]. now rewrite (map_key_snd _ Hk).
Qed.

Lemma items_stored (opts : Options) (path : string) (items : list TranslationItem)
    (s s' : ItemRecord) (k : string) :
  outcome (for_of items (Merge.mergeItem opts path) s) = inr s' ->
  In k (map fst s) \/ (In k (map key items) /\ inherited k = false) ->
  In k (map fst s').
Proof.
  revert s. induction items as [| it items IH]; intros s Hrun Hk.
  - unfold outcome in Hrun. simpl in Hrun. injection Hrun as <-.
    destruct Hk as [Hk | [[] _]]. exact Hk.
  - cbn [for_of] in Hrun. apply bind_inr in Hrun as (s1 & H1 & H2 & _).
    apply mergeItem_step in H1. apply (IH s1 H2).
    destruct Hk as [Hk | [[<- | Hk] Hni]].
    + left. eapply step_keeps_keys; eassumption.
    + left. eapply step_stores; eassumption.
    + right. now split.
Qed.

Lemma files_stored (opts : Options) (files : list (string * Loaded))
    (s s' : ItemRecord) (k : string) :
  outcome (for_of files (Merge.mergeFile opts) s) = inr s' ->
  In k (map fst s) \/ (In k (map key (input_items files)) /\ inherited k = false) ->
  In k (map fst s').
Proof.
  revert s. induction files as [| f files IH]; intros s Hrun Hk.
  - unfold outcome in Hrun. simpl in Hrun. injection Hrun as <-.
    destruct Hk as [Hk | [[] _]]. exact Hk.
  - cbn [for_of] in Hrun. apply bind_inr in Hrun as (s1 & H1 & H2 & _).
    apply mergeFile_items in H1. apply (IH s1 H2).
    unfold input_items in Hk. cbn [flat_map] in Hk. fold (input_items files) in Hk.
    rewrite map_app, in_app_iff in Hk.
    destruct Hk as [Hk | [[Hk | Hk] Hni]].
    + left. eapply items_stored; [exact H1 | now left].
    + left. eapply items_stored; [exact H1 | right; now split].
    + right. now split.
Qed.

(** An input key that names no member of [Object.prototype] has exactly one
    entry in the output of a run that completes. *)
Lemma one_entry_per_input_key (localeCompare : string -> string -> Z)
    (opts : Options) (files : list (string * Loaded)) (doc : TranslationObject)
    (k : string) :
  outcome (Merge.main localeCompare opts files) = inr doc ->
  In k (map key (input_items files)) -> inherited k = false ->
  exists y, In y (translations doc) /\ key y = k /\
            forall y', In y' (translations doc) -> key y' = k -> y' = y.
Proof.
  intros Hdoc Hk Hni. apply main_inr in Hdoc as (s & Hs & Hwf & ->).
  cbn [translations].
  assert (Hown : exists y, getOwn s k = Some y).
  { destruct (getOwn s k) as [y |] eqn:E; [now exists y | exfalso].
    apply getOwn_None in E. apply E.
    eapply files_stored; [exact Hs | right; now split]. }
  destruct Hown as (y & Hy).
  pose proof (well_keyed_getOwn _ _ _ Hwf Hy) as Hky.
  exists y. repeat split; [| exact Hky |].
  - apply In_finish; [exact Hwf | now rewrite Hky].
  - intros y' Hy' Hk'. apply In_finish in Hy'; [| exact Hwf]. congruence.
Qed.

(** C4: evaluation at the input that loses entries.  In lenient mode two
    equal entries under the key [constructor] leave no entry for that key:
    each is compared with [Object.prototype.constructor], reported as a
    duplicate key with a different value, and dropped.  In strict mode a
    single such entry aborts the run. *)
Theorem C4_entries_named_like_prototype_members_are_lost :
  Merge.main codeUnitCompare lenient
    [("a.json", document [mkItem "constructor" "Hello" (Some "");
                          mkItem "constructor" "Hello" (Some "")])]
  = ([Warning (DuplicateKeys "constructor" None "Hello" "a.json");
      Warning (DuplicateKeys "constructor" None "Hello" "a.json")],
     inr (mkObject "EN" []))
  /\
  Merge.main codeUnitCompare strict
    [("a.json", document [mkItem "constructor" "Hello" (Some "")])]
  = ([], inl (Error (DuplicateKeys "constructor" None "Hello" "a.json"))).
Proof. split; reflexivity. Qed.

(** * Further properties of the program *)

(** ** [expandGlobPatterns] *)

Lemma fold_left_Set_add (flattened fileSet : list string) :
  fold_left Set_add flattened fileSet
  = fileSet ++ first_seen_from fileSet flattened.
Proof.
  revert fileSet. induction flattened as [| p l IH]; intros fileSet;
    cbn [fold_left first_seen_from].
  - now rewrite app_nil_r.
  - unfold Set_add at 2. destruct (existsb (String.eqb p) fileSet).
    + apply IH.
    + rewrite IH. now rewrite <- app_assoc.
Qed.

Lemma In_first_seen_from (seen ks : list string) (k : string) :
  In k (first_seen_from seen ks) <-> In k ks /\ ~ In k seen.
Proof.
  revert seen. induction ks as [| k' ks IH]; intros seen; cbn [first_seen_from].
  - simpl. tauto.
  - destruct (existsb (String.eqb k') seen) eqn:E.
    + apply existsb_eqb_In in E. rewrite IH. simpl. split.
      * intros [H1 H2]. tauto.
      * intros [[-> | H1] H2]; [contradiction | tauto].
    + assert (Hk' : ~ In k' seen).
      { intros H. apply existsb_eqb_In in H. congruence. }
      simpl. rewrite IH, in_app_iff. simpl. split.
      * intros [<- | [H1 H2]]; [tauto |]. split; [tauto |]. tauto.
      * intros [[<- | H1] H2]; [now left |].
        destruct (String.eqb_spec k' k) as [-> | Hne]; [now left |].
        right. split; [exact H1 |]. intros [H | [H | []]]; [tauto | congruence].
Qed.

Lemma NoDup_first_seen_from (seen ks : list string) :
  NoDup (first_seen_from seen ks).
Proof.
  revert seen. induction ks as [| k ks IH]; intros seen; cbn [first_seen_from].
  - constructor.
  - destruct (existsb (String.eqb k) seen); [apply IH |].
    constructor; [| apply IH].
    rewrite In_first_seen_from, in_app_iff. simpl. tauto.
Qed.

Lemma first_seen_from_NoDup (seen ks : list string) :
  NoDup ks -> (forall k, In k ks -> ~ In k seen) ->
  first_seen_from seen ks = ks.
Proof.
  revert seen. induction ks as [| k ks IH]; intros seen Hnd Hdis;
    cbn [first_seen_from]; [reflexivity |].
  inversion Hnd as [| ? ? Hk Hnd']; subst.
  destruct (existsb (String.eqb k) seen) eqn:E.
  - apply existsb_eqb_In in E. exfalso. apply (Hdis k); [now left | exact E].
  - f_equal. apply IH; [exact Hnd' |].
    intros k' Hk' Hin. apply in_app_or in Hin as [Hin | [<- | []]].
    + apply (Hdis k'); [now right | exact Hin].
    + contradiction.
Qed.

(** X1: the paths [expandGlobPatterns] returns are distinct, and they are
    exactly the paths that some pattern matches. *)
Theorem X1_expandGlobPatterns_distinct_and_complete
    (asyncGlob : string -> list string) (patterns : list string) :
  NoDup (expandGlobPatterns asyncGlob patterns) /\
  forall path,
    In path (expandGlobPatterns asyncGlob patterns) <->
    exists pattern, In pattern patterns /\ In path (asyncGlob pattern).
Proof.
  unfold expandGlobPatterns. rewrite fold_left_Set_add. cbn [app]. split.
  - apply NoDup_first_seen_from.
  - intros path. rewrite In_first_seen_from, in_concat. split.
    + intros [(l & Hl & Hp) _]. apply in_map_iff in Hl as (pattern & <- & Hpat).
      now exists pattern.
    + intros (pattern & Hpat & Hp). split; [| tauto].
      exists (asyncGlob pattern). split; [now apply in_map | exact Hp].
Qed.

(** X2: [expandGlobPatterns] returns the matches of the patterns, taken in
    pattern order, each path at its first occurrence; when no path is matched
    twice it returns all matches in that order. *)
Theorem X2_expandGlobPatterns_keeps_first_occurrences
    (asyncGlob : string -> list string) (patterns : list string) :
  expandGlobPatterns asyncGlob patterns
  = first_seen_order (List.concat (map asyncGlob patterns))
  /\
  (NoDup (List.concat (map asyncGlob patterns)) ->
   expandGlobPatterns asyncGlob patterns = List.concat (map asyncGlob patterns)).
Proof.
  unfold expandGlobPatterns. rewrite fold_left_Set_add. cbn [app].
  split; [reflexivity |].
  intros Hnd. apply first_seen_from_NoDup; [exact Hnd | tauto].
Qed.

Lemma X2_expandGlobPatterns_keeps_first_occurrences_witness :
  expandGlobPatterns
    (fun pattern => if pattern =? "a*" then ["a1.json"; "a2.json"] else ["b.json"])
    ["a*"; "b*"]
  = List.concat
      (map (fun pattern => if pattern =? "a*" then ["a1.json"; "a2.json"] else ["b.json"])
           ["a*"; "b*"]).
Proof.
  apply (proj2 (X2_expandGlobPatterns_keeps_first_occurrences
                  (fun pattern => if pattern =? "a*" then ["a1.json"; "a2.json"]
                                  else ["b.json"])
                  ["a*"; "b*"])).
  simpl. repeat constructor; simpl; intuition discriminate.
Defined.

(** ** [sortTranslations] *)

Lemma insert_stable {A : Type} (comparefn : A -> A -> Z) (same : A -> bool)
    (x : A) (l : list A) :
  (forall a b, same a = true -> same b = true -> (comparefn a b <= 0)%Z) ->
  filter same (insert comparefn x l) = filter same (x :: l).
Proof.
  intros Hsame. induction l as [| y l IH]; [reflexivity |].
  cbn [insert]. destruct (comparefn x y <=? 0)%Z eqn:E; [reflexivity |].
  apply Z.leb_gt in E. cbn [filter] in *. rewrite IH.
  destruct (same x) eqn:Hx, (same y) eqn:Hy; try reflexivity.
  specialize (Hsame x y Hx Hy). lia.
Qed.

Lemma Array_sort_stable {A : Type} (comparefn : A -> A -> Z) (same : A -> bool)
    (l : list A) :
  (forall a b, same a = true -> same b = true -> (comparefn a b <= 0)%Z) ->
  filter same (Array_sort comparefn l) = filter same l.
Proof.
  intros Hsame. induction l as [| x l IH]; [reflexivity |].
  cbn [Array_sort]. rewrite (insert_stable _ _ _ _ Hsame).
  cbn [filter]. now rewrite IH.
Qed.

Lemma Array_sort_sorted {A : Type} (comparefn : A -> A -> Z) (l : list A) :
  Sorted (fun a b => comparefn a b <= 0)%Z l -> Array_sort comparefn l = l.
Proof.
  induction 1 as [| a l Hs IH Hhd]; [reflexivity |].
  cbn [Array_sort]. rewrite IH.
  destruct Hhd as [| b l' Hab]; [reflexivity |].
  cbn [insert]. apply Z.leb_le in Hab. now rewrite Hab.
Qed.

(** X3: [sortTranslations] returns a permutation of its argument, and it
    is stable: entries whose keys compare equal to a given key keep their
    relative order (for a comparison in which comparing equal to the same
    key means comparing equal). *)
Theorem X3_sortTranslations_stable_permutation
    (localeCompare : string -> string -> Z) (l : list TranslationItem) :
  Permutation (Merge.sortTranslations localeCompare l) l /\
  ((forall a b c, localeCompare a b = 0 -> localeCompare a c = 0 ->
                  localeCompare b c = 0)%Z ->
   forall k,
     filter (fun e => (localeCompare k (key e) =? 0)%Z)
            (Merge.sortTranslations localeCompare l)
     = filter (fun e => (localeCompare k (key e) =? 0)%Z) l).
Proof.
  unfold Merge.sortTranslations. split; [apply Array_sort_Permutation |].
  intros Heq k. apply Array_sort_stable. intros a b Ha Hb.
  apply Z.eqb_eq in Ha, Hb. rewrite (Heq _ _ _ Ha Hb). lia.
Qed.

Lemma codeUnitCompare_eq (a b : string) : codeUnitCompare a b = 0%Z <-> a = b.
Proof.
  unfold codeUnitCompare. split.
  - destruct (String.compare a b) eqn:E; try discriminate.
    intros _. now apply String.compare_eq_iff.
  - intros ->.
    pose proof (proj2 (OrderedTypeEx.String_as_OT.cmp_eq b b) eq_refl) as H.
    unfold OrderedTypeEx.String_as_OT.cmp in H. now rewrite H.
Qed.

Lemma X3_sortTranslations_stable_permutation_witness :
  filter (fun e => (codeUnitCompare "a" (key e) =? 0)%Z)
         (Merge.sortTranslations codeUnitCompare
            [mkItem "b" "x" None; mkItem "a" "first" None; mkItem "a" "second" None])
  = filter (fun e => (codeUnitCompare "a" (key e) =? 0)%Z)
           [mkItem "b" "x" None; mkItem "a" "first" None; mkItem "a" "second" None].
Proof.
  apply (proj2 (X3_sortTranslations_stable_permutation codeUnitCompare
                  [mkItem "b" "x" None; mkItem "a" "first" None;
                   mkItem "a" "second" None])).
  intros a b c Hab Hac. apply codeUnitCompare_eq in Hab, Hac. subst.
  now apply codeUnitCompare_eq.
Defined.

(** X4: sorting twice is sorting once, and [sortTranslations] leaves a list
    alone whose keys are already in non-decreasing order (for a comparison
    that puts one of any two keys first). *)
Theorem X4_sortTranslations_idempotent
    (localeCompare : string -> string -> Z) (l : list TranslationItem) :
  (forall a b, (localeCompare a b > 0)%Z -> (localeCompare b a <= 0)%Z) ->
  Merge.sortTranslations localeCompare (Merge.sortTranslations localeCompare l)
  = Merge.sortTranslations localeCompare l
  /\
  (Sorted (fun a b => localeCompare a b <= 0)%Z (map key l) ->
   Merge.sortTranslations localeCompare l = l).
Proof.
  intros Htotal. unfold Merge.sortTranslations. split.
  - apply Array_sort_sorted.
    apply (Array_sort_Sorted (fun a b => localeCompare (key a) (key b))).
    intros a b. apply Htotal.
  - intros Hs. apply Array_sort_sorted.
    clear Htotal. induction l as [| a l IH]; [constructor |].
    cbn [map] in Hs. inversion Hs as [| ? ? Hs' Hhd]; subst.
    constructor; [now apply IH |].
    destruct l; [constructor |]. cbn [map] in Hhd. inversion Hhd; subst.
    now constructor.
Qed.

Lemma X4_sortTranslations_idempotent_witness :
  Merge.sortTranslations codeUnitCompare
    (Merge.sortTranslations codeUnitCompare
       [mkItem "b" "x" None; mkItem "a" "y" None])
  = Merge.sortTranslations codeUnitCompare
      [mkItem "b" "x" None; mkItem "a" "y" None].
Proof.
  exact (proj1 (X4_sortTranslations_idempotent codeUnitCompare
                  [mkItem "b" "x" None; mkItem "a" "y" None]
                  codeUnitCompare_total)).
Defined.

(** ** Runs that cannot abort *)

Lemma mergeItem_lenient_returns (opts : Options) (path : string)
    (s : ItemRecord) (item : TranslationItem) :
  ignoreErrors opts = true ->
  exists s', outcome (Merge.mergeItem opts path s item) = inr s'.
Proof.
  intros Hm. unfold Merge.mergeItem. rewrite Hm. cbn [negb].
  destruct (Get s (key item)); [| | now eexists].
  - destruct (strict_eq _ _); [| now eexists].
    destruct (_ && _); now eexists.
  - destruct (strict_eq _ _); [| now eexists].
    destruct (_ && _); now eexists.
Qed.

Lemma for_of_returns {A S : Type} (body : S -> A -> M S) (xs : list A) :
  (forall s x, In x xs -> exists s', outcome (body s x) = inr s') ->
  forall s, exists s', outcome (for_of xs body s) = inr s'.
Proof.
  induction xs as [| x xs IH]; intros Hbody s; cbn [for_of].
  - now exists s.
  - destruct (Hbody s x (or_introl eq_refl)) as (s1 & H1).
    destruct (IH (fun s0 y Hy => Hbody s0 y (or_intror Hy)) s1) as (s2 & H2).
    exists s2. now rewrite (bind_outcome _ _ _ H1).
Qed.

Lemma mergeFile_lenient_returns (opts : Options) (s : ItemRecord)
    (f : string * Loaded) :
  ignoreErrors opts = true -> truthy_non_array (snd f) = false ->
  exists s', outcome (Merge.mergeFile opts s f) = inr s'.
Proof.
  intros Hm. destruct f as [path [message | j]]; cbn [snd truthy_non_array].
  - intros _. rewrite (mergeFile_Rejected_lenient _ _ _ _ Hm). now eexists.
  - intros H. rewrite mergeFile_Parsed.
    destruct (or_empty (optional_translations (Some j))); try discriminate.
    cbn [iterate]. rewrite bind_ret. apply for_of_returns.
    intros s0 x _. now apply mergeItem_lenient_returns.
Qed.

(** In lenient mode the loop over files of the declared shape is never
    left. *)
Lemma files_lenient_return (opts : Options) (files : list (string * Loaded))
    (s : ItemRecord) :
  ignoreErrors opts = true ->
  Forall (fun f => truthy_non_array (snd f) = false) files ->
  exists s', outcome (for_of files (Merge.mergeFile opts) s) = inr s'.
Proof.
  intros Hm Hfiles. apply for_of_returns. intros s0 f Hf.
  rewrite Forall_forall in Hfiles. now apply mergeFile_lenient_returns, Hfiles.
Qed.

(** X5: with [--ignore-errors], a run over files each of which either
    fails to load or loads to a value whose [translations] is missing, falsy
    or an array of entries cannot abort: whatever failed to load and whatever
    values conflict, the process writes a document, exits with code 0, and
    its error stream holds the diagnostics of the merge and no
    [Unhandled exception] line. *)
Theorem X5_lenient_run_completes_on_interface_input
    (localeCompare : string -> string -> Z) (opts : Options)
    (files : list (string * Loaded)) :
  ignoreErrors opts = true ->
  Forall (fun f => truthy_non_array (snd f) = false) files ->
  exists doc,
    settle (Merge.main localeCompare opts files)
    = mkProcess (Some doc) (stderr_text (Merge.main localeCompare opts files)) 0.
Proof.
  intros Hm Hfiles. destruct (files_lenient_return opts files [] Hm Hfiles) as (s & Hs).
  unfold settle. rewrite main_outcome, Hs. now eexists.
Qed.

Lemma X5_lenient_run_completes_on_interface_input_witness :
  exists doc,
    settle (Merge.main codeUnitCompare lenient
              [("a.json", Rejected "ENOENT");
               ("b.json", document [mkItem "k" "Hello" None; mkItem "k" "Bye" None])])
    = mkProcess (Some doc)
        (stderr_text
           (Merge.main codeUnitCompare lenient
              [("a.json", Rejected "ENOENT");
               ("b.json", document [mkItem "k" "Hello" None;
                                    mkItem "k" "Bye" None])]))
        0.
Proof.
  apply (X5_lenient_run_completes_on_interface_input codeUnitCompare lenient
           [("a.json", Rejected "ENOENT");
            ("b.json", document [mkItem "k" "Hello" None; mkItem "k" "Bye" None])]).
  - reflexivity.
  - repeat constructor.
Defined.

(** ** Strict mode *)

Lemma mergeItem_strict_stores (opts : Options) (path : string) (s s' : ItemRecord)
    (item : TranslationItem) :
  ignoreErrors opts = false ->
  outcome (Merge.mergeItem opts path s item) = inr s' ->
  exists x', getOwn s' (key item) = Some x' /\ value x' = value item.
Proof.
  intros Hm. unfold Merge.mergeItem. rewrite Hm. cbn [negb].
  destruct (Get s (key item)) as [x | |] eqn:HG.
  - apply Get_Own in HG. cbn [Property_value Property_context].
    destruct (strict_eq (Some (value x)) (Some (value item))) eqn:Hv;
      [| discriminate].
    apply strict_eq_Some in Hv.
    destruct (_ && _).
    + intros [= <-]. rewrite getOwn_setContext, String.eqb_refl, HG.
      eexists. split; [reflexivity | exact Hv].
    + intros [= <-]. now exists x.
  - cbn [Property_value strict_eq]. discriminate.
  - apply Get_Undefined in HG as [Hn _]. intros [= <-].
    rewrite (Set_fresh _ _ _ Hn), getOwn_app, Hn, String.eqb_refl. now exists item.
Qed.

Lemma step_holds_all (opts : Options) (path : string)
    (processed : list TranslationItem) (s s' : ItemRecord) (item : TranslationItem) :
  ignoreErrors opts = false ->
  outcome (Merge.mergeItem opts path s item) = inr s' ->
  holds_all processed s -> holds_all (processed ++ [item]) s'.
Proof.
  intros Hm Hrun [Hown Hall].
  pose proof (mergeItem_step _ _ _ _ _ Hrun) as Hstep. split.
  - intros k Hk. destruct Hstep as [_ Hni | _ | x _ _ _ _ _].
    + rewrite map_app in Hk. apply in_app_or in Hk as [Hk | [<- | []]];
        [now apply Hown | exact Hni].
    + now apply Hown.
    + rewrite setContext_keys in Hk. now apply Hown.
  - intros e He. apply in_app_or in He as [He | [<- | []]].
    + destruct (Hall e He) as (x & Hx & Hv).
      destruct (step_frame _ _ _ _ _ _ Hstep Hx) as (x' & Hx' & _ & Hv' & _).
      exists x'. split; [exact Hx' | congruence].
    + eapply mergeItem_strict_stores; eassumption.
Qed.

Lemma items_holds_all (opts : Options) (path : string)
    (items processed : list TranslationItem) (s s' : ItemRecord) :
  ignoreErrors opts = false ->
  holds_all processed s ->
  outcome (for_of items (Merge.mergeItem opts path) s) = inr s' ->
  holds_all (processed ++ items) s'.
Proof.
  intros Hm. revert processed s.
  induction items as [| it items IH]; intros processed s Hh Hrun.
  - unfold outcome in Hrun. simpl in Hrun. injection Hrun as <-.
    now rewrite app_nil_r.
  - cbn [for_of] in Hrun. apply bind_inr in Hrun as (s1 & H1 & H2 & _).
    change (it :: items) with ([it] ++ items). rewrite app_assoc.
    apply (IH _ s1); [| exact H2]. eapply step_holds_all; eassumption.
Qed.

Lemma mergeFile_strict_document (opts : Options) (s s' : ItemRecord)
    (f : string * Loaded) :
  ignoreErrors opts = false ->
  outcome (Merge.mergeFile opts s f) = inr s' -> is_document (snd f) = true.
Proof.
  intros Hm. destruct f as [path [message | j]]; cbn [snd is_document].
  - rewrite (mergeFile_Rejected_strict _ _ _ _ Hm). discriminate.
  - rewrite mergeFile_Parsed.
    destruct (or_empty (optional_translations (Some j))); try discriminate.
    reflexivity.
Qed.

Lemma files_holds_all (opts : Options) (files : list (string * Loaded))
    (processed : list TranslationItem) (s s' : ItemRecord) :
  ignoreErrors opts = false ->
  holds_all processed s ->
  outcome (for_of files (Merge.mergeFile opts) s) = inr s' ->
  holds_all (processed ++ input_items files) s' /\
  Forall (fun f => is_document (snd f) = true) files.
Proof.
  intros Hm. revert processed s.
  induction files as [| f files IH]; intros processed s Hh Hrun.
  - unfold outcome in Hrun. simpl in Hrun. injection Hrun as <-.
    split; [now rewrite app_nil_r | constructor].
  - cbn [for_of] in Hrun. apply bind_inr in Hrun as (s1 & H1 & H2 & _).
    pose proof (mergeFile_strict_document _ _ _ _ Hm H1) as Hdoc.
    apply mergeFile_items in H1.
    unfold input_items. cbn [flat_map]. fold (input_items files).
    rewrite app_assoc.
    destruct (IH _ s1 (items_holds_all _ _ _ _ _ _ Hm Hh H1) H2) as [Hh' Hdocs].
    split; [exact Hh' | now constructor].
Qed.

Lemma holds_all_conflict_free (processed : list TranslationItem) (s : ItemRecord) :
  holds_all processed s -> conflict_free processed.
Proof.
  intros [Hown Hall]. split.
  - rewrite Forall_forall. intros e He. destruct (Hall e He) as (x & Hx & _).
    apply Hown. apply getOwn_In in Hx. now apply (in_map fst) in Hx.
  - intros e1 e2 H1 H2 Hk.
    destruct (Hall e1 H1) as (x1 & Hx1 & Hv1), (Hall e2 H2) as (x2 & Hx2 & Hv2).
    rewrite Hk in Hx1. congruence.
Qed.

(** On conflict-free entries no step throws, in either mode. *)
Lemma items_conflict_free_return (opts : Options) (path : string)
    (items processed : list TranslationItem) (s : ItemRecord) :
  collects opts processed s -> conflict_free (processed ++ items) ->
  exists s', outcome (for_of items (Merge.mergeItem opts path) s) = inr s' /\
             collects opts (processed ++ items) s'.
Proof.
  revert processed s. induction items as [| it items IH]; intros processed s Hc Hcf.
  - exists s. split; [reflexivity | now rewrite app_nil_r].
  - assert (Hstep : exists s1, outcome (Merge.mergeItem opts path s it) = inr s1).
    { destruct Hcf as [Hni Hsame]. rewrite Forall_forall in Hni.
      assert (Hit : In it (processed ++ it :: items))
        by (apply in_or_app; right; now left).
      unfold Merge.mergeItem.
      destruct (Get s (key it)) as [x | |] eqn:HG.
      - apply Get_Own in HG. destruct Hc as [HQ _].
        destruct (HQ _ _ HG) as (e0 & (l1 & l2 & Hp & Hk0 & _) & _ & Hv0 & _).
        assert (He0 : In e0 (processed ++ it :: items)).
        { apply in_or_app. left. rewrite Hp. apply in_or_app. right. now left. }
        pose proof (Hsame e0 it He0 Hit Hk0) as Hv.
        cbn [Property_value Property_context].
        replace (strict_eq (Some (value x)) (Some (value it))) with true
          by (symmetry; apply strict_eq_Some; congruence).
        destruct (_ && _); now eexists.
      - apply Get_Inherited_name in HG. rewrite (Hni it Hit) in HG. discriminate.
      - now eexists. }
    destruct Hstep as (s1 & H1).
    pose proof (step_collects _ _ _ _ _ (mergeItem_step _ _ _ _ _ H1) Hc) as Hc1.
    change (it :: items) with ([it] ++ items) in Hcf |- *.
    rewrite app_assoc in Hcf |- *.
    destruct (IH _ s1 Hc1 Hcf) as (s' & Hs' & Hc').
    exists s'. split; [| exact Hc']. cbn [for_of app].
    now rewrite (bind_outcome _ _ _ H1).
Qed.

Lemma conflict_free_prefix (a b : list TranslationItem) :
  conflict_free (a ++ b) -> conflict_free a.
Proof.
  intros [Hni Hsame]. apply Forall_app in Hni as [Hni _]. split; [exact Hni |].
  intros e1 e2 H1 H2. apply Hsame; apply in_or_app; now left.
Qed.

Lemma files_conflict_free_return (opts : Options) (files : list (string * Loaded))
    (processed : list TranslationItem) (s : ItemRecord) :
  Forall (fun f => is_document (snd f) = true) files ->
  collects opts processed s ->
  conflict_free (processed ++ input_items files) ->
  exists s', outcome (for_of files (Merge.mergeFile opts) s) = inr s'.
Proof.
  revert processed s. induction files as [| [path f] files IH];
    intros processed s Hdoc Hc Hcf; cbn [for_of].
  - now exists s.
  - inversion Hdoc as [| ? ? Hf Hdoc']; subst. cbn [snd] in Hf.
    unfold input_items in Hcf. cbn [flat_map snd] in Hcf.
    fold (input_items files) in Hcf. rewrite app_assoc in Hcf.
    destruct (items_conflict_free_return opts path (items_of f) processed s Hc
                (conflict_free_prefix _ _ Hcf)) as (s1 & H1 & Hc1).
    assert (Hfile : outcome (Merge.mergeFile opts s (path, f)) = inr s1).
    { destruct f as [message | j]; [discriminate |].
      rewrite mergeFile_Parsed. cbn [is_document items_of] in *.
      destruct (or_empty (optional_translations (Some j))); try discriminate.
      cbn [iterate]. now rewrite bind_ret. }
    rewrite (bind_outcome _ _ _ Hfile). exact (IH _ s1 Hdoc' Hc1 Hcf).
Qed.

Lemma holds_all_nil : holds_all [] [].
Proof. split; [intros k [] | intros e []]. Qed.

Lemma is_document_loaded (f : Loaded) :
  truthy_non_array f = false ->
  is_document f = negb (is_rejected f).
Proof.
  destruct f as [message | j]; cbn [truthy_non_array is_document is_rejected negb];
    [reflexivity |].
  destruct (or_empty (optional_translations (Some j))); try discriminate;
    reflexivity.
Qed.

(** X6: without [--ignore-errors], over files each of which either fails
    to load or loads to a value whose [translations] is missing, falsy or an
    array of entries, the run completes exactly when every file loads, no key
    names a member of [Object.prototype], and the entries of each key all
    have one value. *)
Theorem X6_strict_run_completes_iff_loaded_and_conflict_free
    (localeCompare : string -> string -> Z) (opts : Options)
    (files : list (string * Loaded)) :
  ignoreErrors opts = false ->
  Forall (fun f => truthy_non_array (snd f) = false) files ->
  ((exists doc, outcome (Merge.main localeCompare opts files) = inr doc) <->
   Forall (fun f => is_rejected (snd f) = false) files /\
   conflict_free (input_items files)).
Proof.
  intros Hm Hfiles. rewrite main_outcome.
  assert (Hdocs : Forall (fun f => is_document (snd f) = true) files <->
                  Forall (fun f => is_rejected (snd f) = false) files).
  { rewrite !Forall_forall in *. split; intros H f Hf; specialize (H f Hf);
      rewrite (is_document_loaded _ (Hfiles f Hf)) in *;
      destruct (is_rejected (snd f)); simpl in *; congruence. }
  split.
  - intros (doc & Hdoc).
    destruct (outcome (for_of files (Merge.mergeFile opts) [])) as [e | s] eqn:E;
      [discriminate |].
    destruct (files_holds_all opts files [] [] s Hm holds_all_nil E) as [Hh Hd].
    split; [now apply Hdocs |]. cbn [app] in Hh.
    eapply holds_all_conflict_free, Hh.
  - intros [Hloaded Hcf]. apply Hdocs in Hloaded.
    destruct (files_conflict_free_return opts files [] [] Hloaded (collects_nil opts) Hcf)
      as (s & Hs).
    rewrite Hs. now eexists.
Qed.

Lemma X6_strict_run_completes_iff_loaded_and_conflict_free_witness :
  (exists doc,
     outcome (Merge.main codeUnitCompare strict
                [("a.json", document [mkItem "k1" "Hello" None]);
                 ("b.json", document [mkItem "k1" "Hello" (Some "greeting")])])
     = inr doc) <->
  Forall (fun f => is_rejected (snd f) = false)
    [("a.json", document [mkItem "k1" "Hello" None]);
     ("b.json", document [mkItem "k1" "Hello" (Some "greeting")])] /\
  conflict_free
    (input_items [("a.json", document [mkItem "k1" "Hello" None]);
                  ("b.json", document [mkItem "k1" "Hello" (Some "greeting")])]).
Proof.
  apply (X6_strict_run_completes_iff_loaded_and_conflict_free codeUnitCompare strict
           [("a.json", document [mkItem "k1" "Hello" None]);
            ("b.json", document [mkItem "k1" "Hello" (Some "greeting")])]).
  - reflexivity.
  - repeat constructor.
Defined.

(** X7: a run that completes without [--ignore-errors] has kept the value
    of every input entry: each one finds an output entry with its key and
    its value; and no file was skipped. *)
Theorem X7_strict_run_keeps_every_value
    (localeCompare : string -> string -> Z) (opts : Options)
    (files : list (string * Loaded)) (doc : TranslationObject) :
  ignoreErrors opts = false ->
  outcome (Merge.main localeCompare opts files) = inr doc ->
  (forall e, In e (input_items files) ->
     exists y, In y (translations doc) /\ key y = key e /\ value y = value e)
  /\
  Forall (fun f => is_rejected (snd f) = false) files.
Proof.
  intros Hm Hdoc. apply main_inr in Hdoc as (s & Hs & Hwf & ->).
  destruct (files_holds_all opts files [] [] s Hm holds_all_nil Hs) as [[_ Hall] Hdocs].
  cbn [app translations] in *. split.
  - intros e He. destruct (Hall e He) as (x & Hx & Hv).
    pose proof (well_keyed_getOwn _ _ _ Hwf Hx) as Hk.
    exists x. repeat split; try assumption.
    apply In_finish; [exact Hwf | now rewrite Hk].
  - eapply Forall_impl; [| exact Hdocs].
    intros [path [message | j]]; cbn [snd is_document is_rejected];
      [discriminate | reflexivity].
Qed.

Lemma X7_strict_run_keeps_every_value_witness :
  (forall e,
     In e (input_items [("a.json", document [mkItem "k1" "Hello" None]);
                        ("b.json", document [mkItem "k1" "Hello" (Some "greeting")])]) ->
     exists y, In y [mkItem "k1" "Hello" (Some "greeting")] /\
               key y = key e /\ value y = value e)
  /\
  Forall (fun f => is_rejected (snd f) = false)
    [("a.json", document [mkItem "k1" "Hello" None]);
     ("b.json", document [mkItem "k1" "Hello" (Some "greeting")])].
Proof.
  exact (X7_strict_run_keeps_every_value codeUnitCompare strict
           [("a.json", document [mkItem "k1" "Hello" None]);
            ("b.json", document [mkItem "k1" "Hello" (Some "greeting")])]
           (mkObject "EN" [mkItem "k1" "Hello" (Some "greeting")])
           eq_refl eq_refl).
Defined.

(** ** What each option changes *)

Lemma for_of_agree {A S : Type} (body body' : S -> A -> M S) (xs : list A) :
  (forall s x s', outcome (body s x) = inr s' -> body' s x = body s x) ->
  forall s s', outcome (for_of xs body s) = inr s' ->
               for_of xs body' s = for_of xs body s.
Proof.
  intros Hb. induction xs as [| x xs IH]; intros s s' Hrun; cbn [for_of] in *.
  - reflexivity.
  - apply bind_inr in Hrun as (s1 & H1 & H2 & _).
    rewrite (Hb _ _ _ H1). rewrite !(bind_run _ _ _ H1). now rewrite (IH _ _ H2).
Qed.

Lemma mergeItem_lenient_agrees (opts : Options) (path : string) (s s' : ItemRecord)
    (item : TranslationItem) :
  ignoreErrors opts = false ->
  outcome (Merge.mergeItem opts path s item) = inr s' ->
  Merge.mergeItem (with_ignoreErrors true opts) path s item
  = Merge.mergeItem opts path s item.
Proof.
  intros Hm. unfold Merge.mergeItem.
  cbn [with_ignoreErrors ignoreErrors mergeContext]. rewrite Hm. cbn [negb].
  destruct (Get s (key item)); [| | reflexivity].
  - destruct (strict_eq _ _); [reflexivity | discriminate].
  - destruct (strict_eq _ _); [reflexivity | discriminate].
Qed.

Lemma mergeFile_lenient_agrees (opts : Options) (s s' : ItemRecord)
    (f : string * Loaded) :
  ignoreErrors opts = false ->
  outcome (Merge.mergeFile opts s f) = inr s' ->
  Merge.mergeFile (with_ignoreErrors true opts) s f = Merge.mergeFile opts s f.
Proof.
  intros Hm. destruct f as [path [message | j]].
  - rewrite (mergeFile_Rejected_strict _ _ _ _ Hm). discriminate.
  - rewrite !mergeFile_Parsed.
    destruct (or_empty (optional_translations (Some j))); try reflexivity.
    cbn [iterate]. rewrite !bind_ret. intros Hrun.
    eapply for_of_agree; [| exact Hrun].
    intros s0 x s1. now apply mergeItem_lenient_agrees.
Qed.

(** X8: on input that a run without [--ignore-errors] gets through,
    [--ignore-errors] changes nothing: the same diagnostics are written and
    the same document is printed. *)
Theorem X8_ignoreErrors_changes_nothing_on_accepted_input
    (localeCompare : string -> string -> Z) (opts : Options)
    (files : list (string * Loaded)) (doc : TranslationObject) :
  ignoreErrors opts = false ->
  outcome (Merge.main localeCompare opts files) = inr doc ->
  Merge.main localeCompare (with_ignoreErrors true opts) files
  = Merge.main localeCompare opts files.
Proof.
  intros Hm Hdoc. apply main_inr in Hdoc as (s & Hs & _ & _).
  unfold Merge.main.
  rewrite (for_of_agree (Merge.mergeFile opts)
             (Merge.mergeFile (with_ignoreErrors true opts)) files
             (fun s0 f s1 => mergeFile_lenient_agrees opts s0 s1 f Hm) [] s Hs).
  reflexivity.
Qed.

Lemma X8_ignoreErrors_changes_nothing_on_accepted_input_witness :
  Merge.main codeUnitCompare (with_ignoreErrors true strict)
    [("a.json", document [mkItem "k1" "Hello" None]);
     ("b.json", document [mkItem "k1" "Hello" (Some "greeting")])]
  = Merge.main codeUnitCompare strict
      [("a.json", document [mkItem "k1" "Hello" None]);
       ("b.json", document [mkItem "k1" "Hello" (Some "greeting")])].
Proof.
  exact (X8_ignoreErrors_changes_nothing_on_accepted_input codeUnitCompare strict
           [("a.json", document [mkItem "k1" "Hello" None]);
            ("b.json", document [mkItem "k1" "Hello" (Some "greeting")])]
           (mkObject "EN" [mkItem "k1" "Hello" (Some "greeting")])
           eq_refl eq_refl).
Defined.

(** ** Nothing is dropped silently *)

Lemma for_of_accounts {A S : Type} (size : S -> nat) (weight : A -> nat)
    (body : S -> A -> M S) (xs : list A) :
  (forall s x s', outcome (body s x) = inr s' ->
     size s' + List.length (diagnostics (body s x)) = size s + weight x) ->
  forall s s', outcome (for_of xs body s) = inr s' ->
    size s' + List.length (diagnostics (for_of xs body s))
    = size s + list_sum (map weight xs).
Proof.
  intros Hb. induction xs as [| x xs IH]; intros s s' Hrun.
  - unfold outcome in Hrun. simpl in Hrun. injection Hrun as <-. simpl. lia.
  - cbn [for_of] in Hrun |- *. pose proof Hrun as Hrun'.
    apply bind_inr in Hrun' as (s1 & H1 & H2 & Hd).
    rewrite Hd, length_app. cbn [map list_sum fold_right].
    specialize (Hb _ _ _ H1). specialize (IH _ _ H2). unfold list_sum in IH. lia.
Qed.

Lemma mergeItem_accounts (opts : Options) (path : string) (s s' : ItemRecord)
    (item : TranslationItem) :
  outcome (Merge.mergeItem opts path s item) = inr s' ->
  List.length s' + List.length (diagnostics (Merge.mergeItem opts path s item))
  = List.length s + 1.
Proof.
  unfold Merge.mergeItem.
  assert (Hsc : forall c, List.length (setContext s (key item) c) = List.length s).
  { intros c. rewrite <- (length_map fst), setContext_keys. apply length_map. }
  destruct (Get s (key item)) as [x | |] eqn:HG.
  - destruct (strict_eq _ _).
    + destruct (_ && _); intros [= <-]; unfold diagnostics; simpl;
        rewrite ?Hsc; lia.
    + destruct (negb _); [discriminate |]. intros [= <-]. unfold diagnostics.
      simpl. lia.
  - destruct (strict_eq _ _).
    + destruct (_ && _); intros [= <-]; unfold diagnostics; simpl;
        rewrite ?Hsc; lia.
    + destruct (negb _); [discriminate |]. intros [= <-]. unfold diagnostics.
      simpl. lia.
  - apply Get_Undefined in HG as [Hn _]. intros [= <-].
    rewrite (Set_fresh _ _ _ Hn), length_app. unfold diagnostics. simpl. lia.
Qed.

Lemma mergeFile_accounts (opts : Options) (s s' : ItemRecord) (f : string * Loaded) :
  outcome (Merge.mergeFile opts s f) = inr s' ->
  List.length s' + List.length (diagnostics (Merge.mergeFile opts s f))
  = List.length s
    + (List.length (items_of (snd f)) + if is_rejected (snd f) then 1 else 0).
Proof.
  destruct f as [path [message | j]]; cbn [snd items_of is_rejected].
  - destruct (ignoreErrors opts) eqn:Hm.
    + rewrite (mergeFile_Rejected_lenient _ _ _ _ Hm). intros [= <-].
      unfold diagnostics. simpl. lia.
    + rewrite (mergeFile_Rejected_strict _ _ _ _ Hm). discriminate.
  - rewrite mergeFile_Parsed.
    destruct (or_empty (optional_translations (Some j))); try discriminate.
    cbn [iterate]. rewrite bind_ret. intros Hrun.
    pose proof (for_of_accounts (@List.length _) (fun _ => 1)
                  (Merge.mergeItem opts path) items
                  (fun s0 x s1 => mergeItem_accounts opts path s0 s1 x) s s' Hrun)
      as Hacc.
    assert (Hsum : forall l : list TranslationItem,
               list_sum (map (fun _ => 1) l) = List.length l).
    { induction l as [| a l IH]; simpl; [reflexivity | now rewrite IH]. }
    rewrite Hsum in Hacc. rewrite Nat.add_0_r. exact Hacc.
Qed.

(** X9: in a run that completes, every input entry either became an output
    entry or was answered by exactly one diagnostic, and every file that
    could not be loaded by exactly one more: the entries printed and the
    diagnostics written add up to the entries read and the files skipped. *)
Theorem X9_every_entry_is_printed_or_reported
    (localeCompare : string -> string -> Z) (opts : Options)
    (files : list (string * Loaded)) (doc : TranslationObject) :
  outcome (Merge.main localeCompare opts files) = inr doc ->
  List.length (translations doc)
  + List.length (diagnostics (Merge.main localeCompare opts files))
  = List.length (input_items files)
    + List.length (filter (fun f => is_rejected (snd f)) files).
Proof.
  intros Hdoc. apply main_inr in Hdoc as (s & Hs & _ & ->).
  cbn [translations]. rewrite main_diagnostics.
  rewrite (Permutation_length (finish_Permutation _ _ _)), length_map.
  pose proof (for_of_accounts (@List.length _)
                (fun f => List.length (items_of (snd f))
                          + if is_rejected (snd f) then 1 else 0)
                (Merge.mergeFile opts) files
                (fun s0 f s1 => mergeFile_accounts opts s0 s1 f) [] s Hs) as Hacc.
  cbn [List.length Nat.add] in Hacc.
  etransitivity; [exact Hacc |]. clear Hacc Hs.
  induction files as [| f files IH]; [reflexivity |].
  unfold input_items in *. cbn [map list_sum fold_right flat_map filter].
  unfold list_sum in IH.
  rewrite length_app. destruct (is_rejected (snd f)); cbn [List.length]; lia.
Qed.

Lemma X9_every_entry_is_printed_or_reported_witness :
  List.length [mkItem "k1" "Hello" (Some "greeting")]
  + List.length
      (diagnostics
         (Merge.main codeUnitCompare lenient
            [("a.json", document [mkItem "k1" "Hello" None]);
             ("missing.json", Rejected "ENOENT");
             ("b.json", document [mkItem "k1" "Hello" (Some "greeting");
                                  mkItem "k1" "Bye" None])]))
  = List.length
      (input_items
         [("a.json", document [mkItem "k1" "Hello" None]);
          ("missing.json", Rejected "ENOENT");
          ("b.json", document [mkItem "k1" "Hello" (Some "greeting");
                               mkItem "k1" "Bye" None])])
    + List.length
        (filter (fun f => is_rejected (snd f))
           [("a.json", document [mkItem "k1" "Hello" None]);
            ("missing.json", Rejected "ENOENT");
            ("b.json", document [mkItem "k1" "Hello" (Some "greeting");
                                 mkItem "k1" "Bye" None])]).
Proof.
  exact (X9_every_entry_is_printed_or_reported codeUnitCompare lenient
           [("a.json", document [mkItem "k1" "Hello" None]);
            ("missing.json", Rejected "ENOENT");
            ("b.json", document [mkItem "k1" "Hello" (Some "greeting");
                                 mkItem "k1" "Bye" None])]
           (mkObject "EN" [mkItem "k1" "Hello" (Some "greeting")]) eq_refl).
Defined.

Lemma for_of_ext {A S : Type} (body body' : S -> A -> M S) (xs : list A) (s : S) :
  (forall s x, body s x = body' s x) -> for_of xs body s = for_of xs body' s.
Proof.
  intros Hb. revert s. induction xs as [| x xs IH]; intros s; cbn [for_of].
  - reflexivity.
  - rewrite Hb. apply bind_ext. exact IH.
Qed.

Lemma mergeFile_sort_irrelevant (b : bool) (opts : Options) (s : ItemRecord)
    (f : string * Loaded) :
  Merge.mergeFile (with_sort b opts) s f = Merge.mergeFile opts s f.
Proof. reflexivity. Qed.

(** X10: [--no-sort] changes the order of the output and nothing else: the
    diagnostics and the way the run ends are the same, and the document
    printed with sorting is [sortTranslations] of the one printed without. *)
Theorem X10_sort_option_only_reorders
    (localeCompare : string -> string -> Z) (opts : Options)
    (files : list (string * Loaded)) :
  diagnostics (Merge.main localeCompare (with_sort true opts) files)
  = diagnostics (Merge.main localeCompare (with_sort false opts) files)
  /\
  (forall e, outcome (Merge.main localeCompare (with_sort true opts) files) = inl e <->
             outcome (Merge.main localeCompare (with_sort false opts) files) = inl e)
  /\
  (forall sorted unsorted,
     outcome (Merge.main localeCompare (with_sort true opts) files) = inr sorted ->
     outcome (Merge.main localeCompare (with_sort false opts) files) = inr unsorted ->
     translations sorted = Merge.sortTranslations localeCompare (translations unsorted)
     /\ Permutation (translations sorted) (translations unsorted)).
Proof.
  rewrite !main_diagnostics, !main_outcome.
  rewrite (for_of_ext (Merge.mergeFile (with_sort true opts))
             (Merge.mergeFile opts) files [] (mergeFile_sort_irrelevant true opts)).
  rewrite (for_of_ext (Merge.mergeFile (with_sort false opts))
             (Merge.mergeFile opts) files [] (mergeFile_sort_irrelevant false opts)).
  split; [reflexivity |].
  destruct (outcome (for_of files (Merge.mergeFile opts) [])) as [e | s].
  - split; [tauto |]. discriminate.
  - split; [split; discriminate |].
    intros sorted unsorted [= <-] [= <-]. cbn [translations].
    unfold Merge.finish. cbn [with_sort sort]. split; [reflexivity |].
    unfold Merge.sortTranslations. apply Array_sort_Permutation.
Qed.

Lemma X10_sort_option_only_reorders_witness :
  translations (mkObject "EN" [mkItem "a" "z" None; mkItem "b" "x" None])
  = Merge.sortTranslations codeUnitCompare
      (translations (mkObject "EN" [mkItem "b" "x" None; mkItem "a" "z" None]))
  /\ Permutation
       (translations (mkObject "EN" [mkItem "a" "z" None; mkItem "b" "x" None]))
       (translations (mkObject "EN" [mkItem "b" "x" None; mkItem "a" "z" None])).
Proof.
  exact (proj2 (proj2 (X10_sort_option_only_reorders codeUnitCompare strict
                         [("a.json", document [mkItem "b" "x" None; mkItem "a" "z" None])]))
               (mkObject "EN" [mkItem "a" "z" None; mkItem "b" "x" None])
               (mkObject "EN" [mkItem "b" "x" None; mkItem "a" "z" None])
               eq_refl eq_refl).
Defined.

(** *** Related runs *)

Lemma M_rel_bind {A A' B B' : Type} (R : A -> A' -> Prop) (R' : B -> B' -> Prop)
    (m1 : M A) (m2 : M A') (f : A -> M B) (g : A' -> M B') :
  M_rel R m1 m2 -> (forall a a', R a a' -> M_rel R' (f a) (g a')) ->
  M_rel R' (bind m1 f) (bind m2 g).
Proof.
  destruct m1 as [l1 [e1 | a]], m2 as [l2 [e2 | a']]; unfold M_rel; simpl;
    intros [Hl Hr] Hf; try contradiction.
  - now split.
  - destruct (Hf a a' Hr) as [Hl' Hr']. split; [| exact Hr'].
    rewrite !length_app. now rewrite Hl, Hl'.
Qed.

Lemma for_of_M_rel {A S S' : Type} (R : S -> S' -> Prop)
    (body : S -> A -> M S) (body' : S' -> A -> M S') (xs : list A) :
  (forall s s' x, R s s' -> M_rel R (body s x) (body' s' x)) ->
  forall s s', R s s' -> M_rel R (for_of xs body s) (for_of xs body' s').
Proof.
  intros Hb. induction xs as [| x xs IH]; intros s s' Hs; cbn [for_of].
  - now split.
  - eapply M_rel_bind; [now apply Hb | exact IH].
Qed.

Lemma same_properties_getOwn (s1 s2 : ItemRecord) (k : string) :
  same_properties s1 s2 ->
  match getOwn s1 k, getOwn s2 k with
  | Some x1, Some x2 => same_key_value x1 x2
  | None, None => True
  | _, _ => False
  end.
Proof.
  induction 1 as [| [k1 x1] [k2 x2] s1 s2 [Hk Hkv] _ IH]; simpl; [exact I |].
  simpl in Hk. subst k2. destruct (k1 =? k); [exact Hkv | exact IH].
Qed.

Lemma same_properties_app (s1 s2 : ItemRecord) (p : string * TranslationItem) :
  same_properties s1 s2 -> same_properties (s1 ++ [p]) (s2 ++ [p]).
Proof.
  intros H. apply Forall2_app; [exact H |]. constructor; [| constructor].
  now split.
Qed.

Lemma same_properties_setContext_l (s1 s2 : ItemRecord) (k : string)
    (c : option string) :
  same_properties s1 s2 -> same_properties (setContext s1 k c) s2.
Proof.
  induction 1 as [| [k1 x1] [k2 x2] s1 s2 [Hk Hkv] Hs IH]; simpl; [constructor |].
  destruct (k1 =? k); constructor; try assumption; now split.
Qed.

Lemma same_properties_setContext_r (s1 s2 : ItemRecord) (k : string)
    (c : option string) :
  same_properties s1 s2 -> same_properties s1 (setContext s2 k c).
Proof.
  induction 1 as [| [k1 x1] [k2 x2] s1 s2 [Hk Hkv] Hs IH]; simpl; [constructor |].
  destruct (k2 =? k); constructor; try assumption; now split.
Qed.

(** A step under either setting of [mergeContext], on collections that
    agree on keys and values. *)
Lemma mergeItem_mergeContext_rel (b1 b2 : bool) (opts : Options) (path : string)
    (s1 s2 : ItemRecord) (item : TranslationItem) :
  same_properties s1 s2 ->
  M_rel same_properties
    (Merge.mergeItem (with_mergeContext b1 opts) path s1 item)
    (Merge.mergeItem (with_mergeContext b2 opts) path s2 item).
Proof.
  intros Hs. pose proof (same_properties_getOwn s1 s2 (key item) Hs) as HG.
  unfold Merge.mergeItem, Get.
  cbn [with_mergeContext ignoreErrors mergeContext].
  destruct (getOwn s1 (key item)) as [x1 |] eqn:H1,
           (getOwn s2 (key item)) as [x2 |] eqn:H2; try contradiction.
  - cbn [Property_value Property_context].
    assert (Hv : value x1 = value x2) by (now injection HG).
    rewrite Hv.
    destruct (strict_eq (Some (value x2)) (Some (value item))).
    + destruct (b1 && _ && _), (b2 && _ && _); (split; [reflexivity |]);
        cbn [snd stderr bind ret fst];
        auto using same_properties_setContext_l, same_properties_setContext_r.
    + destruct (negb (ignoreErrors opts)); now split.
  - destruct (inherited (key item)).
    + cbn [Property_value strict_eq].
      destruct (negb (ignoreErrors opts)); now split.
    + split; [reflexivity |]. cbn [snd ret].
      rewrite (Set_fresh _ _ _ H1), (Set_fresh _ _ _ H2).
      now apply same_properties_app.
Qed.

Lemma mergeFile_mergeContext_rel (b1 b2 : bool) (opts : Options)
    (s1 s2 : ItemRecord) (f : string * Loaded) :
  same_properties s1 s2 ->
  M_rel same_properties
    (Merge.mergeFile (with_mergeContext b1 opts) s1 f)
    (Merge.mergeFile (with_mergeContext b2 opts) s2 f).
Proof.
  intros Hs. destruct f as [path [message | j]].
  - unfold Merge.mergeFile, Merge.loadAndParse.
    cbn [fst snd with_mergeContext ignoreErrors].
    destruct (negb (ignoreErrors opts)); now split.
  - rewrite !mergeFile_Parsed.
    destruct (or_empty (optional_translations (Some j))); try (now split).
    cbn [iterate]. rewrite !bind_ret. apply for_of_M_rel; [| exact Hs].
    intros s s' x. apply mergeItem_mergeContext_rel.
Qed.

Lemma insert_Forall2 {A B : Type} (R : A -> B -> Prop) (cmp : A -> A -> Z)
    (cmp' : B -> B -> Z) (x : A) (y : B) (l : list A) (l' : list B) :
  (forall a a' b b', R a a' -> R b b' -> cmp a b = cmp' a' b') ->
  R x y -> Forall2 R l l' -> Forall2 R (insert cmp x l) (insert cmp' y l').
Proof.
  intros Hc Hxy. induction 1 as [| a b l l' Hab Hl IH]; simpl.
  - repeat constructor. exact Hxy.
  - rewrite (Hc _ _ _ _ Hxy Hab).
    destruct (cmp' y b <=? 0)%Z; repeat (constructor; try assumption).
Qed.

Lemma Array_sort_Forall2 {A B : Type} (R : A -> B -> Prop) (cmp : A -> A -> Z)
    (cmp' : B -> B -> Z) (l : list A) (l' : list B) :
  (forall a a' b b', R a a' -> R b b' -> cmp a b = cmp' a' b') ->
  Forall2 R l l' -> Forall2 R (Array_sort cmp l) (Array_sort cmp' l').
Proof.
  intros Hc. induction 1 as [| a b l l' Hab Hl IH]; simpl; [constructor |].
  now apply insert_Forall2.
Qed.

Lemma filter_Forall2 {A B : Type} (R : A -> B -> Prop) (P : A -> bool)
    (Q : B -> bool) (l : list A) (l' : list B) :
  (forall a b, R a b -> P a = Q b) ->
  Forall2 R l l' -> Forall2 R (filter P l) (filter Q l').
Proof.
  intros HPQ. induction 1 as [| a b l l' Hab Hl IH]; simpl; [constructor |].
  rewrite (HPQ _ _ Hab). destruct (Q b); [now constructor | exact IH].
Qed.

Lemma map_Forall2 {A B A' B' : Type} (R : A -> B -> Prop) (R' : A' -> B' -> Prop)
    (f : A -> A') (g : B -> B') (l : list A) (l' : list B) :
  (forall a b, R a b -> R' (f a) (g b)) ->
  Forall2 R l l' -> Forall2 R' (map f l) (map g l').
Proof.
  intros Hfg. induction 1; simpl; constructor; auto.
Qed.

Lemma Object_values_same (s1 s2 : ItemRecord) :
  same_properties s1 s2 ->
  Forall2 same_key_value (Object_values s1) (Object_values s2).
Proof.
  intros Hs. unfold Object_values. apply Forall2_app.
  - apply (map_Forall2 (fun p q => fst p = fst q /\ same_key_value (snd p) (snd q)));
      [now intros a b [_ H] |].
    apply Array_sort_Forall2.
    + intros a a' b b' [Ha _] [Hb _]. unfold compare_index. now rewrite Ha, Hb.
    + apply filter_Forall2; [| exact Hs]. intros a b [Ha _]. now rewrite Ha.
  - apply (map_Forall2 (fun p q => fst p = fst q /\ same_key_value (snd p) (snd q)));
      [now intros a b [_ H] |].
    apply filter_Forall2; [| exact Hs]. intros a b [Ha _]. now rewrite Ha.
Qed.

Lemma finish_same (localeCompare : string -> string -> Z) (o1 o2 : Options)
    (s1 s2 : ItemRecord) :
  sort o1 = sort o2 -> same_properties s1 s2 ->
  map key_value (Merge.finish localeCompare o1 s1)
  = map key_value (Merge.finish localeCompare o2 s2).
Proof.
  intros Hsort Hs.
  assert (H : Forall2 same_key_value (Merge.finish localeCompare o1 s1)
                      (Merge.finish localeCompare o2 s2)).
  { unfold Merge.finish. rewrite Hsort. destruct (sort o2).
    - unfold Merge.sortTranslations. apply Array_sort_Forall2.
      + intros a a' b b' Ha Hb. unfold same_key_value, key_value in Ha, Hb.
        injection Ha as Ha _. injection Hb as Hb _. now rewrite Ha, Hb.
      + now apply Object_values_same.
    - now apply Object_values_same. }
  induction H as [| a b l l' Hab _ IH]; simpl; [reflexivity |].
  unfold same_key_value in Hab. now rewrite Hab, IH.
Qed.

Lemma main_mergeContext_rel (localeCompare : string -> string -> Z) (b1 b2 : bool)
    (opts : Options) (files : list (string * Loaded)) :
  M_rel (fun d1 d2 => map key_value (translations d1)
                      = map key_value (translations d2))
    (Merge.main localeCompare (with_mergeContext b1 opts) files)
    (Merge.main localeCompare (with_mergeContext b2 opts) files).
Proof.
  unfold Merge.main. eapply M_rel_bind.
  - apply (for_of_M_rel same_properties); [| constructor].
    intros s s' f. apply mergeFile_mergeContext_rel.
  - intros s s' Hs. split; [reflexivity |]. cbn [snd ret translations].
    now apply finish_same.
Qed.

(** X11: [--no-merge-context] changes contexts and nothing else: with and
    without it the run writes as many diagnostics and ends alike, by the
    same exception or with documents that list the same keys with the same
    values in the same order. *)
Theorem X11_mergeContext_option_only_changes_contexts
    (localeCompare : string -> string -> Z) (opts : Options)
    (files : list (string * Loaded)) :
  List.length (diagnostics (Merge.main localeCompare (with_mergeContext true opts) files))
  = List.length (diagnostics (Merge.main localeCompare (with_mergeContext false opts) files))
  /\
  (forall e,
     outcome (Merge.main localeCompare (with_mergeContext true opts) files) = inl e <->
     outcome (Merge.main localeCompare (with_mergeContext false opts) files) = inl e)
  /\
  (forall merged plain,
     outcome (Merge.main localeCompare (with_mergeContext true opts) files) = inr merged ->
     outcome (Merge.main localeCompare (with_mergeContext false opts) files) = inr plain ->
     map key_value (translations merged) = map key_value (translations plain))
  /\
  ((exists merged,
      outcome (Merge.main localeCompare (with_mergeContext true opts) files) = inr merged) <->
   (exists plain,
      outcome (Merge.main localeCompare (with_mergeContext false opts) files) = inr plain)).
Proof.
  destruct (main_mergeContext_rel localeCompare true false opts files) as [Hl Hr].
  unfold diagnostics, outcome.
  destruct (snd (Merge.main localeCompare (with_mergeContext true opts) files))
    as [e1 | d1],
    (snd (Merge.main localeCompare (with_mergeContext false opts) files))
    as [e2 | d2]; try contradiction.
  - subst e2. repeat split; try tauto; try discriminate;
      intros (d & H); discriminate.
  - repeat split; try exact Hl; try discriminate; try (intros _; now eexists).
    now intros merged plain [= <-] [= <-].
Qed.

Lemma X11_mergeContext_option_only_changes_contexts_witness :
  map key_value (translations (mkObject "EN" [mkItem "k1" "Hello" (Some "greeting")]))
  = map key_value (translations (mkObject "EN" [mkItem "k1" "Hello" None])).
Proof.
  exact (proj1 (proj2 (proj2
           (X11_mergeContext_option_only_changes_contexts codeUnitCompare strict
              [("a.json", document [mkItem "k1" "Hello" None]);
               ("b.json", document [mkItem "k1" "Hello" (Some "greeting")])])))
           (mkObject "EN" [mkItem "k1" "Hello" (Some "greeting")])
           (mkObject "EN" [mkItem "k1" "Hello" None]) eq_refl eq_refl).
Defined.

(** ** [src/index.ts] and the later revision *)

Lemma reword_bind {A B : Type} (f : Diagnostic -> Diagnostic) (m : M A)
    (k k' : A -> M B) :
  (forall a, k' a = reword f (k a)) ->
  bind (reword f m) k' = reword f (bind m k).
Proof.
  intros Hk. destruct m as [log [e | a]]; unfold reword; simpl; [reflexivity |].
  rewrite Hk. unfold reword. simpl. now rewrite map_app.
Qed.

Lemma for_of_reword {A S : Type} (f : Diagnostic -> Diagnostic)
    (body body' : S -> A -> M S) (xs : list A) :
  (forall s x, body' s x = reword f (body s x)) ->
  forall s, for_of xs body' s = reword f (for_of xs body s).
Proof.
  intros Hb. induction xs as [| x xs IH]; intros s; cbn [for_of].
  - reflexivity.
  - rewrite Hb. now apply reword_bind.
Qed.

Lemma Index_mergeItem_reworded (path : string) (s : ItemRecord)
    (item : TranslationItem) :
  Index.mergeItem s item
  = reword as_index (Merge.mergeItem (mkOptions true false false) path s item).
Proof.
  unfold Index.mergeItem, Merge.mergeItem. cbn [ignoreErrors mergeContext negb andb].
  destruct (Get s (key item)); [| | reflexivity].
  - destruct (strict_eq _ _); reflexivity.
  - destruct (strict_eq _ _); reflexivity.
Qed.

Lemma Index_mergeFile_reworded (s : ItemRecord) (f : string * Loaded) :
  Index.mergeFile s f
  = reword as_index (Merge.mergeFile (mkOptions true false false) s f).
Proof.
  destruct f as [path [message | j]].
  - reflexivity.
  - rewrite mergeFile_Parsed. unfold Index.mergeFile, Index.loadAndParse.
    cbn [fst snd]. rewrite bind_ret.
    destruct (or_empty (optional_translations (Some j))); try reflexivity.
    cbn [iterate]. rewrite !bind_ret. apply for_of_reword.
    intros s0 x. apply Index_mergeItem_reworded.
Qed.

Lemma Index_main_reworded (localeCompare : string -> string -> Z)
    (files : list (string * Loaded)) :
  Index.main files
  = (map as_index
       (diagnostics (Merge.main localeCompare (mkOptions true false false) files)),
     outcome (Merge.main localeCompare (mkOptions true false false) files)).
Proof.
  unfold Index.main, Merge.main.
  rewrite (for_of_reword as_index (Merge.mergeFile (mkOptions true false false))
             Index.mergeFile files
             (fun s f => Index_mergeFile_reworded s f) []).
  destruct (for_of files (Merge.mergeFile (mkOptions true false false)) [])
    as [log [e | s]]; unfold reword, diagnostics, outcome; simpl.
  - reflexivity.
  - now rewrite !app_nil_r.
Qed.

(** X12: [src/index.ts] is the later revision run with [--ignore-errors],
    [--no-sort] and [--no-merge-context], up to the wording of two
    diagnostics: it ends the same way, prints the same document, and writes
    the same diagnostics in the same order, a load failure without the
    [Warning:] prefix and a conflict without its details. *)
Theorem X12_index_is_the_lenient_unsorted_plain_merge
    (localeCompare : string -> string -> Z) (files : list (string * Loaded)) :
  Index.main files
  = (map as_index
       (diagnostics (Merge.main localeCompare (mkOptions true false false) files)),
     outcome (Merge.main localeCompare (mkOptions true false false) files)).
Proof. apply Index_main_reworded. Qed.

(** ** Entries are printed as they were first seen *)

Lemma TranslationItem_eq (x y : TranslationItem) :
  key y = key x -> value y = value x -> context y = context x -> y = x.
Proof. destruct x, y. simpl. now intros -> -> ->. Qed.

(** X13: with [--no-merge-context], and in [src/index.ts], every entry of
    the output is, field for field, the input entry its key was first seen
    with. *)
Theorem X13_without_mergeContext_entries_are_verbatim
    (localeCompare : string -> string -> Z) (files : list (string * Loaded)) :
  (forall opts doc,
     mergeContext opts = false ->
     outcome (Merge.main localeCompare opts files) = inr doc ->
     forall y, In y (translations doc) ->
               first_seen_as (input_items files) (key y) y)
  /\
  (forall doc,
     outcome (Index.main files) = inr doc ->
     forall y, In y (translations doc) ->
               first_seen_as (input_items files) (key y) y).
Proof.
  assert (HM : forall opts doc,
             mergeContext opts = false ->
             outcome (Merge.main localeCompare opts files) = inr doc ->
             forall y, In y (translations doc) ->
                       first_seen_as (input_items files) (key y) y).
  { intros opts doc Hm Hdoc y Hy. apply main_inr in Hdoc as (s & Hs & Hwf & ->).
    cbn [translations] in Hy. apply In_finish in Hy; [| exact Hwf].
    pose proof (files_collects _ _ _ _ _ (collects_nil opts) Hs) as [HQ _].
    destruct (HQ _ _ Hy) as (x & Hx & Hk & Hv & Hc).
    assert (y = x) as ->; [| exact Hx].
    apply TranslationItem_eq; try assumption.
    destruct Hc as [Hc | (Hm' & _)]; [exact Hc | congruence]. }
  split; [exact HM |].
  intros doc Hdoc.
  rewrite (Index_main_reworded localeCompare files) in Hdoc.
  apply (HM (mkOptions true false false) doc eq_refl Hdoc).
Qed.

Lemma X13_without_mergeContext_entries_are_verbatim_witness :
  first_seen_as
    (input_items
       [("a.json", document [mkItem "k1" "Hello" None]);
        ("b.json", document [mkItem "k1" "Hello" (Some "greeting")])])
    "k1" (mkItem "k1" "Hello" None).
Proof.
  exact (proj1 (X13_without_mergeContext_entries_are_verbatim codeUnitCompare
                  [("a.json", document [mkItem "k1" "Hello" None]);
                   ("b.json", document [mkItem "k1" "Hello" (Some "greeting")])])
               (mkOptions false true false)
               (mkObject "EN" [mkItem "k1" "Hello" None]) eq_refl eq_refl
               (mkItem "k1" "Hello" None) (or_introl eq_refl)).
Defined.

(** ** Merging again, and merging in another order *)

Lemma Sorted_StronglySorted_in {A : Type} (R : A -> A -> Prop) (l : list A) :
  (forall a b c, In a l -> In b l -> In c l -> R a b -> R b c -> R a c) ->
  Sorted R l -> StronglySorted R l.
Proof.
  induction l as [| a t IH]; intros Htrans Hs; [constructor |].
  inversion Hs as [| ? ? Hs' Hhd]; subst.
  assert (Ht : StronglySorted R t).
  { apply IH; [| exact Hs']. intros x y z Hx Hy Hz. apply Htrans; now right. }
  constructor; [exact Ht |].
  destruct Hhd as [| b t' Hab]; [constructor |].
  constructor; [exact Hab |].
  inversion Ht as [| ? ? _ Hall]; subst.
  rewrite Forall_forall in *. intros c Hc.
  apply (Htrans a b c);
    [now left | right; now left | right; now right | exact Hab | now apply Hall].
Qed.

(** Two sorted arrangements of the same elements are the same list, when
    the order is transitive on the elements and distinguishes them. *)
Lemma Sorted_unique {A : Type} (R : A -> A -> Prop) (l l' : list A) :
  (forall a b c, In a l -> In b l -> In c l -> R a b -> R b c -> R a c) ->
  (forall a b, In a l -> In b l -> R a b -> R b a -> a = b) ->
  Sorted R l -> Sorted R l' -> Permutation l l' -> l = l'.
Proof.
  intros Htrans Hanti Hs Hs' Hp.
  apply (Sorted_StronglySorted_in R l Htrans) in Hs.
  apply (Sorted_StronglySorted_in R l') in Hs'.
  2:{ intros a b c Ha Hb Hc.
      apply Htrans; apply (Permutation_in _ (Permutation_sym Hp)); assumption. }
  clear Htrans. revert l' Hs' Hp.
  induction Hs as [| a t Hst IH Ha]; intros l' Hs' Hp.
  - now apply Permutation_nil in Hp.
  - destruct Hs' as [| a' t' Hst' Ha'].
    + apply Permutation_sym, Permutation_nil in Hp. discriminate.
    + assert (Haa : a = a').
      { assert (H1 : In a (a' :: t')) by (apply (Permutation_in _ Hp); now left).
        assert (H2 : In a' (a :: t))
          by (apply (Permutation_in _ (Permutation_sym Hp)); now left).
        destruct H1 as [H1 | H1]; [now subst |].
        destruct H2 as [H2 | H2]; [now subst |].
        rewrite Forall_forall in Ha, Ha'.
        apply Hanti; [now left | now right | now apply Ha | now apply Ha']. }
      subst a'. f_equal. apply IH.
      * intros x y Hx Hy. apply Hanti; now right.
      * exact Hst'.
      * now apply Permutation_cons_inv in Hp.
Qed.

Lemma NoDup_map_inj {A B : Type} (f : A -> B) (l : list A) (a b : A) :
  NoDup (map f l) -> In a l -> In b l -> f a = f b -> a = b.
Proof.
  induction l as [| x l IH]; simpl; [tauto |].
  intros Hnd Ha Hb Hf. inversion Hnd as [| ? ? Hx Hnd']; subst.
  destruct Ha as [-> | Ha], Hb as [-> | Hb]; try reflexivity.
  - exfalso. apply Hx. rewrite Hf. now apply in_map.
  - exfalso. apply Hx. rewrite <- Hf. now apply in_map.
  - now apply IH.
Qed.

(** Sorting is the same on two arrangements of entries whose keys the
    comparison tells apart. *)
Lemma sortTranslations_Permutation (localeCompare : string -> string -> Z)
    (l l' : list TranslationItem) :
  collation localeCompare -> distinguishes localeCompare (map key l) ->
  NoDup (map key l) -> Permutation l l' ->
  Merge.sortTranslations localeCompare l = Merge.sortTranslations localeCompare l'.
Proof.
  intros (Htotal & Htrans) Hanti Hnd Hp. unfold Merge.sortTranslations.
  apply (Sorted_unique (fun a b => localeCompare (key a) (key b) <= 0)%Z).
  - intros a b c _ _ _. apply Htrans.
  - intros a b Ha Hb Hab Hba.
    apply (Permutation_in _ (Array_sort_Permutation _ _)) in Ha, Hb.
    apply (NoDup_map_inj key l a b Hnd Ha Hb).
    apply Hanti; try assumption; now apply in_map.
  - apply (Array_sort_Sorted (fun a b => localeCompare (key a) (key b))).
    intros a b. apply Htotal.
  - apply (Array_sort_Sorted (fun a b => localeCompare (key a) (key b))).
    intros a b. apply Htotal.
  - rewrite !Array_sort_Permutation. exact Hp.
Qed.

Lemma compare_index_total (p q : string * TranslationItem) :
  (compare_index p q > 0)%Z -> (compare_index q p <= 0)%Z.
Proof.
  unfold compare_index.
  destruct (array_index (fst p)), (array_index (fst q)); lia.
Qed.

Lemma map_property_of_snd (o : ItemRecord) :
  Forall (fun p => key (snd p) = fst p) o -> map property_of (map snd o) = o.
Proof.
  induction 1 as [| [k it] o Hp _ IH]; simpl; [reflexivity |].
  simpl in Hp. unfold property_of at 1. now rewrite Hp, IH.
Qed.

Lemma map_snd_property_of (l : list TranslationItem) :
  map snd (map property_of l) = l.
Proof. rewrite map_map. cbn [property_of snd]. apply map_id. Qed.

(** Enumerating the enumeration again changes nothing. *)
Lemma Object_values_fixed (s : ItemRecord) :
  well_keyed s ->
  Object_values (map property_of (Object_values s)) = Object_values s.
Proof.
  intros [_ Hk]. unfold Object_values at 2. rewrite <- map_app.
  set (A := Array_sort compare_index (filter (fun p => is_array_index (fst p)) s)).
  set (B := filter (fun p => negb (is_array_index (fst p))) s).
  assert (HA : Forall (fun p => is_array_index (fst p) = true) A).
  { rewrite Forall_forall. intros p Hp.
    apply (Permutation_in _ (Array_sort_Permutation _ _)) in Hp.
    now apply filter_In in Hp. }
  assert (HB : Forall (fun p => is_array_index (fst p) = false) B).
  { rewrite Forall_forall. intros p Hp. apply filter_In in Hp as [_ Hp].
    now apply negb_true_iff in Hp. }
  assert (HAB : Forall (fun p => key (snd p) = fst p) (A ++ B)).
  { rewrite Forall_forall in *. intros p Hp. apply Hk.
    apply in_app_or in Hp as [Hp | Hp].
    - apply (Permutation_in _ (Array_sort_Permutation _ _)) in Hp.
      now apply filter_In in Hp.
    - now apply filter_In in Hp. }
  rewrite (map_property_of_snd _ HAB). unfold Object_values.
  rewrite !filter_app.
  rewrite (filter_all (fun p => is_array_index (fst p)) A HA).
  rewrite (filter_none (fun p => is_array_index (fst p)) B HB).
  rewrite (filter_none (fun p => negb (is_array_index (fst p))) A).
  - rewrite (filter_all (fun p => negb (is_array_index (fst p))) B).
    + rewrite app_nil_r. cbn [app]. subst A B. f_equal. f_equal.
      apply Array_sort_sorted. apply Array_sort_Sorted. apply compare_index_total.
    + eapply Forall_impl; [| exact HB]. intros p Hp. cbn beta. now rewrite Hp.
  - eapply Forall_impl; [| exact HA]. intros p Hp. cbn beta. now rewrite Hp.
Qed.

(** *** Sorting what was sorted

    A collation may rank distinct keys equal; the sort is stable, so what
    decides the order among equally ranked entries is the order they are
    enumerated in. *)

Lemma same_rank_refl (localeCompare : string -> string -> Z) (x : TranslationItem) :
  collation localeCompare -> same_rank localeCompare x x = true.
Proof.
  intros [Htotal _]. unfold same_rank.
  assert (H : (localeCompare (key x) (key x) <= 0)%Z).
  { destruct (Z_le_gt_dec (localeCompare (key x) (key x)) 0) as [H | H];
      [exact H | now apply Htotal]. }
  apply Z.leb_le in H. now rewrite H.
Qed.

(** Stability: equally ranked entries keep their order. *)
Lemma sortTranslations_same_rank (localeCompare : string -> string -> Z)
    (x : TranslationItem) (l : list TranslationItem) :
  collation localeCompare ->
  filter (same_rank localeCompare x) (Merge.sortTranslations localeCompare l)
  = filter (same_rank localeCompare x) l.
Proof.
  intros [_ Htrans]. unfold Merge.sortTranslations.
  apply Array_sort_stable. intros a b Ha Hb. unfold same_rank in Ha, Hb.
  apply andb_true_iff in Ha as [_ Ha]. apply andb_true_iff in Hb as [Hb _].
  apply Z.leb_le in Ha, Hb. eapply Htrans; eassumption.
Qed.

(** Two sorted arrangements of the same entries that agree on the order of
    equally ranked entries are the same list. *)
Lemma same_rank_unique (localeCompare : string -> string -> Z)
    (l l' : list TranslationItem) :
  collation localeCompare ->
  Sorted (fun a b => localeCompare (key a) (key b) <= 0)%Z l ->
  Sorted (fun a b => localeCompare (key a) (key b) <= 0)%Z l' ->
  Permutation l l' ->
  (forall x, filter (same_rank localeCompare x) l
             = filter (same_rank localeCompare x) l') ->
  l = l'.
Proof.
  intros Hcoll Hs Hs' Hp Hf. pose proof Hcoll as [_ Htrans].
  assert (HT : forall a b c : TranslationItem,
             (localeCompare (key a) (key b) <= 0)%Z ->
             (localeCompare (key b) (key c) <= 0)%Z ->
             (localeCompare (key a) (key c) <= 0)%Z)
    by (intros a b c; apply Htrans).
  apply (Sorted_StronglySorted HT) in Hs. apply (Sorted_StronglySorted HT) in Hs'.
  revert l' Hs' Hp Hf.
  induction Hs as [| a t Hst IH Ha]; intros l' Hs' Hp Hf.
  - now apply Permutation_nil in Hp.
  - destruct Hs' as [| a' t' Hst' Ha'].
    + apply Permutation_sym, Permutation_nil in Hp. discriminate.
    + assert (Haa : a = a').
      { assert (H1 : In a (a' :: t')) by (apply (Permutation_in _ Hp); now left).
        assert (H2 : In a' (a :: t))
          by (apply (Permutation_in _ (Permutation_sym Hp)); now left).
        destruct H1 as [H1 | H1]; [now subst |].
        destruct H2 as [H2 | H2]; [now subst |].
        rewrite Forall_forall in Ha, Ha'.
        pose proof (Ha _ H2) as Hle. pose proof (Ha' _ H1) as Hge.
        specialize (Hf a). cbn [filter] in Hf.
        rewrite (same_rank_refl _ _ Hcoll) in Hf.
        assert (E : same_rank localeCompare a a' = true).
        { unfold same_rank. apply andb_true_iff. split; now apply Z.leb_le. }
        rewrite E in Hf. now injection Hf. }
      subst a'. f_equal. apply IH.
      * exact Hst'.
      * now apply Permutation_cons_inv in Hp.
      * intros x. specialize (Hf x). cbn [filter] in Hf.
        destruct (same_rank localeCompare x a); [now injection Hf | exact Hf].
Qed.

Lemma array_index_inj (a b : string) (n : N) :
  array_index a = Some n -> array_index b = Some n -> a = b.
Proof.
  unfold array_index. intros Ha Hb.
  destruct (NilEmpty.uint_of_string a) as [da |]; [| discriminate].
  destruct (NilEmpty.uint_of_string b) as [db |]; [| discriminate].
  destruct ((NilEmpty.string_of_uint (N.to_uint (N.of_uint da)) =? a)
            && (N.of_uint da <? 4294967295)%N) eqn:Ea; [| discriminate].
  destruct ((NilEmpty.string_of_uint (N.to_uint (N.of_uint db)) =? b)
            && (N.of_uint db <? 4294967295)%N) eqn:Eb; [| discriminate].
  apply andb_true_iff in Ea as [Ea _]. apply andb_true_iff in Eb as [Eb _].
  apply String.eqb_eq in Ea, Eb. injection Ha as Ha. injection Hb as Hb.
  rewrite <- Ea, <- Eb. congruence.
Qed.

Lemma filter_Permutation {A : Type} (f : A -> bool) (l l' : list A) :
  Permutation l l' -> Permutation (filter f l) (filter f l').
Proof.
  induction 1 as [| x l l' _ IH | x y l | l l' l'' _ IH1 _ IH2]; cbn [filter].
  - constructor.
  - destruct (f x); [now constructor | exact IH].
  - destruct (f x), (f y); try reflexivity. apply perm_swap.
  - now rewrite IH1.
Qed.

Lemma filter_filter_swap {A : Type} (f g : A -> bool) (l : list A) :
  filter f (filter g l) = filter g (filter f l).
Proof.
  induction l as [| x l IH]; cbn [filter]; [reflexivity |].
  destruct (f x) eqn:Ef, (g x) eqn:Eg; cbn [filter];
    rewrite ?Ef, ?Eg, IH; reflexivity.
Qed.

(** The array-index part of the enumeration depends on the own properties
    only, not on their order. *)
Lemma index_part_Permutation (o o' : ItemRecord) :
  NoDup (map fst o) -> Permutation o o' ->
  Array_sort compare_index (filter (fun p => is_array_index (fst p)) o)
  = Array_sort compare_index (filter (fun p => is_array_index (fst p)) o').
Proof.
  intros Hnd Hp.
  assert (HX : forall p,
             In p (Array_sort compare_index
                     (filter (fun p => is_array_index (fst p)) o)) ->
             In p o /\ exists n, array_index (fst p) = Some n).
  { intros p Hin. apply (Permutation_in _ (Array_sort_Permutation _ _)) in Hin.
    apply filter_In in Hin as [Hin Hidx]. split; [exact Hin |].
    unfold is_array_index in Hidx.
    destruct (array_index (fst p)) as [n |]; [now exists n | discriminate]. }
  apply (Sorted_unique (fun p q => compare_index p q <= 0)%Z).
  - intros a b c Ha Hb Hc.
    destruct (HX a Ha) as (_ & m & Hm), (HX b Hb) as (_ & n & Hn),
             (HX c Hc) as (_ & k & Hk).
    unfold compare_index. rewrite Hm, Hn, Hk. lia.
  - intros a b Ha Hb Hab Hba.
    destruct (HX a Ha) as (Hao & m & Hm), (HX b Hb) as (Hbo & n & Hn).
    unfold compare_index in Hab, Hba. rewrite Hm, Hn in Hab, Hba.
    assert (m = n) by lia. subst n.
    apply (NoDup_map_inj fst o a b Hnd Hao Hbo).
    exact (array_index_inj _ _ _ Hm Hn).
  - apply Array_sort_Sorted. apply compare_index_total.
  - apply Array_sort_Sorted. apply compare_index_total.
  - rewrite !Array_sort_Permutation. now apply filter_Permutation.
Qed.

(** The entries of the enumeration whose keys are no array indices are the
    own properties with such keys, in creation order. *)
Lemma Object_values_other (o : ItemRecord) :
  Forall (fun p => key (snd p) = fst p) o ->
  filter (fun y => negb (is_array_index (key y))) (Object_values o)
  = filter (fun y => negb (is_array_index (key y))) (map snd o)
  /\ map snd (filter (fun p => negb (is_array_index (fst p))) o)
     = filter (fun y => negb (is_array_index (key y))) (map snd o).
Proof.
  intros Hk.
  assert (Hsnd : forall l : ItemRecord,
             Forall (fun p => key (snd p) = fst p) l ->
             filter (fun y => negb (is_array_index (key y))) (map snd l)
             = map snd (filter (fun p => negb (is_array_index (fst p))) l)).
  { induction 1 as [| p l Hp _ IH]; cbn [map filter]; [reflexivity |].
    rewrite Hp. destruct (negb (is_array_index (fst p))); cbn [map];
      now rewrite IH. }
  split; [| now rewrite Hsnd].
  unfold Object_values. rewrite filter_app, !Hsnd.
  - rewrite (filter_none (fun p => negb (is_array_index (fst p)))
               (Array_sort compare_index _)).
    + cbn [map app]. f_equal. apply filter_all. rewrite Forall_forall.
      intros p Hp. now apply filter_In in Hp.
    + rewrite Forall_forall. intros p Hp.
      apply (Permutation_in _ (Array_sort_Permutation _ _)) in Hp.
      apply filter_In in Hp as [_ Hp]. now rewrite Hp.
  - exact Hk.
  - rewrite Forall_forall in *. intros p Hp. apply filter_In in Hp as [Hp _].
    now apply Hk.
  - rewrite Forall_forall in *. intros p Hp.
    apply (Permutation_in _ (Array_sort_Permutation _ _)) in Hp.
    apply filter_In in Hp as [Hp _]. now apply Hk.
Qed.

Lemma property_of_keyed (l : list TranslationItem) :
  Forall (fun p => key (snd p) = fst p) (map property_of l).
Proof. rewrite Forall_forall. intros p Hp. apply in_map_iff in Hp as (y & <- & _). reflexivity. Qed.

(** Sorting the enumeration of a sorted enumeration gives it back. *)
Lemma sorted_values_fixed (localeCompare : string -> string -> Z) (s : ItemRecord) :
  well_keyed s -> collation localeCompare ->
  Merge.sortTranslations localeCompare
    (Object_values
       (map property_of (Merge.sortTranslations localeCompare (Object_values s))))
  = Merge.sortTranslations localeCompare (Object_values s).
Proof.
  intros [Hnd Hk] Hcoll. pose proof Hcoll as [Htotal _].
  set (L0 := Merge.sortTranslations localeCompare (Object_values s)).
  assert (HpL0 : Permutation L0 (map snd s)).
  { unfold L0, Merge.sortTranslations. rewrite Array_sort_Permutation.
    apply Object_values_Permutation. }
  assert (HpP : Permutation s (map property_of L0)).
  { rewrite <- (map_property_of_snd s Hk) at 1.
    apply Permutation_map. now symmetry. }
  apply (same_rank_unique localeCompare); [exact Hcoll | | | |].
  - apply (Array_sort_Sorted (fun a b => localeCompare (key a) (key b))).
    intros a b. apply Htotal.
  - apply (Array_sort_Sorted (fun a b => localeCompare (key a) (key b))).
    intros a b. apply Htotal.
  - unfold Merge.sortTranslations at 1. rewrite Array_sort_Permutation.
    rewrite Object_values_Permutation. now rewrite map_snd_property_of.
  - intros x. rewrite (sortTranslations_same_rank _ _ _ Hcoll).
    assert (HL0 : filter (same_rank localeCompare x) L0
                  = filter (same_rank localeCompare x) (Object_values s))
      by apply (sortTranslations_same_rank _ _ _ Hcoll).
    rewrite HL0.
    destruct (Object_values_other (map property_of L0) (property_of_keyed L0))
      as [_ HoP].
    destruct (Object_values_other s Hk) as [Hvs Hos].
    unfold Object_values.
    rewrite <- (index_part_Permutation s (map property_of L0) Hnd HpP).
    rewrite !filter_app. f_equal.
    rewrite HoP, Hos, map_snd_property_of, <- Hvs.
    rewrite (filter_filter_swap (same_rank localeCompare x)), HL0.
    apply filter_filter_swap.
Qed.

Lemma finish_fixed (localeCompare : string -> string -> Z) (opts : Options)
    (s : ItemRecord) :
  well_keyed s -> (sort opts = true -> collation localeCompare) ->
  Merge.finish localeCompare opts
    (map property_of (Merge.finish localeCompare opts s))
  = Merge.finish localeCompare opts s.
Proof.
  intros Hwf Hcoll. unfold Merge.finish. destruct (sort opts).
  - now apply sorted_values_fixed; [| apply Hcoll].
  - now apply Object_values_fixed.
Qed.

Lemma files_own_not_inherited (opts : Options) (files : list (string * Loaded))
    (s : ItemRecord) :
  outcome (for_of files (Merge.mergeFile opts) []) = inr s ->
  forall k, In k (map fst s) -> inherited k = false.
Proof.
  apply (for_of_invariant (fun s => forall k, In k (map fst s) -> inherited k = false));
    [| intros k []].
  intros s0 f s1 Hs0 H1. apply mergeFile_items in H1. revert H1.
  apply (for_of_invariant (fun s => forall k, In k (map fst s) -> inherited k = false));
    [| exact Hs0].
  intros s2 it s3 Hs2 Hstep k Hk. apply mergeItem_step in Hstep.
  destruct Hstep as [_ Hni | _ | x _ _ _ _ _].
  - rewrite map_app in Hk. apply in_app_or in Hk as [Hk | [<- | []]];
      [now apply Hs2 | exact Hni].
  - now apply Hs2.
  - rewrite setContext_keys in Hk. now apply Hs2.
Qed.

(** X14: merging the printed document again prints it again: a run over
    the output of a run that completed writes no diagnostic and returns the
    same document.  With [sort] on this holds for every [localeCompare] that
    is a collation (of two keys one goes first, transitively), also one that
    ranks distinct keys equal: the sort is stable, and the enumeration of
    the merged object keeps equally ranked entries in the order they were
    printed in. *)
Theorem X14_merging_the_output_again_changes_nothing
    (localeCompare : string -> string -> Z) (opts : Options)
    (files : list (string * Loaded)) (doc : TranslationObject) (path : string) :
  outcome (Merge.main localeCompare opts files) = inr doc ->
  (sort opts = true -> collation localeCompare) ->
  Merge.main localeCompare opts [(path, document (translations doc))]
  = ([], inr doc).
Proof.
  intros Hdoc Hcoll.
  pose proof (output_keys_NoDup _ _ _ _ Hdoc) as Hnd.
  apply main_inr in Hdoc as (s & Hs & Hwf & ->). cbn [translations] in *.
  pose proof (files_own_not_inherited _ _ _ Hs) as Hown.
  assert (Hni : Forall (fun it => inherited (key it) = false)
                       (Merge.finish localeCompare opts s)).
  { rewrite Forall_forall. intros y Hy. apply In_finish in Hy; [| exact Hwf].
    apply Hown. apply getOwn_In in Hy. now apply (in_map fst) in Hy. }
  pose proof (files_all_created opts
                [(path, document (Merge.finish localeCompare opts s))] []) as Hrun.
  unfold input_items in Hrun. cbn [flat_map snd items_of document] in Hrun.
  cbn [optional_translations field String.eqb Ascii.eqb Bool.eqb or_empty truthy
       app] in Hrun.
  rewrite app_nil_r in Hrun.
  unfold Merge.main.
  rewrite Hrun; [| repeat constructor | exact Hnd | exact Hni].
  rewrite bind_ret. now rewrite (finish_fixed _ _ _ Hwf Hcoll).
Qed.

Lemma codeUnitCompare_le (a b : string) :
  (codeUnitCompare a b <= 0)%Z <-> a = b \/ OrderedTypeEx.String_as_OT.lt a b.
Proof.
  unfold codeUnitCompare.
  pose proof (OrderedTypeEx.String_as_OT.cmp_eq a b) as Heq.
  pose proof (OrderedTypeEx.String_as_OT.cmp_lt a b) as Hlt.
  unfold OrderedTypeEx.String_as_OT.cmp in Heq, Hlt.
  destruct (String.compare a b); split.
  - intros _. left. now apply Heq.
  - lia.
  - intros _. right. now apply Hlt.
  - lia.
  - lia.
  - intros [H | H]; [apply Heq in H | apply Hlt in H]; discriminate.
Qed.

Lemma codeUnitCompare_collation : collation codeUnitCompare.
Proof.
  split; [exact codeUnitCompare_total |].
  intros a b c Hab Hbc. apply codeUnitCompare_le in Hab, Hbc.
  apply codeUnitCompare_le.
  destruct Hab as [-> | Hab]; [exact Hbc |].
  destruct Hbc as [<- | Hbc]; [now right |].
  right. eapply OrderedTypeEx.String_as_OT.lt_trans; eassumption.
Qed.

Lemma codeUnitCompare_distinguishes (ks : list string) :
  distinguishes codeUnitCompare ks.
Proof.
  intros a b _ _ Hab Hba. apply codeUnitCompare_le in Hab, Hba.
  destruct Hab as [-> | Hab]; [reflexivity |].
  destruct Hba as [-> | Hba]; [reflexivity |].
  exfalso.
  apply (OrderedTypeEx.String_as_OT.lt_not_eq a a); [| reflexivity].
  eapply OrderedTypeEx.String_as_OT.lt_trans; eassumption.
Qed.

Lemma X14_merging_the_output_again_changes_nothing_witness :
  Merge.main codeUnitCompare strict
    [("merged.json",
      document (translations
                  (mkObject "EN" [mkItem "a" "z" None;
                                  mkItem "k1" "Hello" (Some "greeting")])))]
  = ([], inr (mkObject "EN" [mkItem "a" "z" None;
                             mkItem "k1" "Hello" (Some "greeting")])).
Proof.
  apply (X14_merging_the_output_again_changes_nothing codeUnitCompare strict
           [("a.json", document [mkItem "k1" "Hello" None; mkItem "a" "z" None]);
            ("b.json", document [mkItem "k1" "Hello" (Some "greeting")])]
           (mkObject "EN" [mkItem "a" "z" None;
                           mkItem "k1" "Hello" (Some "greeting")])
           "merged.json").
  - reflexivity.
  - intros _. exact codeUnitCompare_collation.
Defined.

(** X15: for documents whose keys are all distinct and name no member of
    [Object.prototype], the sorted output does not depend on the order of the
    files or of the entries, provided [localeCompare], a collation, ranks no
    two distinct keys of the input equal: two inputs that hold the same
    entries then give the same run.  (Keys that rank equal are printed in
    the order they were read in.) *)
Theorem X15_sorted_output_independent_of_input_order
    (localeCompare : string -> string -> Z) (opts : Options)
    (files files' : list (string * Loaded)) :
  sort opts = true -> collation localeCompare ->
  distinguishes localeCompare (map key (input_items files)) ->
  Forall (fun f => is_document (snd f) = true) files ->
  Forall (fun f => is_document (snd f) = true) files' ->
  NoDup (map key (input_items files)) ->
  Forall (fun it => inherited (key it) = false) (input_items files) ->
  Permutation (input_items files) (input_items files') ->
  Merge.main localeCompare opts files = Merge.main localeCompare opts files'.
Proof.
  intros Hsort Hcoll Hdist Hdoc Hdoc' Hnd Hni Hp.
  assert (Hnd' : NoDup (map key (input_items files')))
    by exact (Permutation_NoDup (Permutation_map key Hp) Hnd).
  assert (Hni' : Forall (fun it => inherited (key it) = false) (input_items files')).
  { rewrite Forall_forall in *. intros it Hit. apply Hni.
    exact (Permutation_in _ (Permutation_sym Hp) Hit). }
  unfold Merge.main.
  rewrite (files_all_created opts files [] Hdoc Hnd Hni).
  rewrite (files_all_created opts files' [] Hdoc' Hnd' Hni').
  rewrite !bind_ret. cbn [app]. unfold Merge.finish. rewrite Hsort.
  assert (Hvalues : Permutation (Object_values (map property_of (input_items files)))
                                (input_items files)).
  { rewrite Object_values_Permutation. now rewrite map_snd_property_of. }
  assert (Heq : Merge.sortTranslations localeCompare
                  (Object_values (map property_of (input_items files)))
                = Merge.sortTranslations localeCompare
                    (Object_values (map property_of (input_items files')))).
  { apply sortTranslations_Permutation; [exact Hcoll | | |].
    - intros a b Ha Hb. apply Hdist.
      + exact (Permutation_in _ (Permutation_map key Hvalues) Ha).
      + exact (Permutation_in _ (Permutation_map key Hvalues) Hb).
    - exact (Permutation_NoDup
               (Permutation_sym (Permutation_map key Hvalues)) Hnd).
    - rewrite !Object_values_Permutation, !map_snd_property_of. exact Hp. }
  now rewrite Heq.
Qed.

Lemma X15_sorted_output_independent_of_input_order_witness :
  Merge.main codeUnitCompare strict
    [("a.json", document [mkItem "k2" "Bye" None]);
     ("b.json", document [mkItem "k1" "Hello" None])]
  = Merge.main codeUnitCompare strict
      [("b.json", document [mkItem "k1" "Hello" None]);
       ("a.json", document [mkItem "k2" "Bye" None])].
Proof.
  apply (X15_sorted_output_independent_of_input_order codeUnitCompare strict
           [("a.json", document [mkItem "k2" "Bye" None]);
            ("b.json", document [mkItem "k1" "Hello" None])]
           [("b.json", document [mkItem "k1" "Hello" None]);
            ("a.json", document [mkItem "k2" "Bye" None])]).
  - reflexivity.
  - exact codeUnitCompare_collation.
  - apply codeUnitCompare_distinguishes.
  - repeat constructor.
  - repeat constructor.
  - simpl. repeat constructor; simpl; intuition discriminate.
  - repeat constructor.
  - simpl. apply perm_swap.
Defined.

(** ** The hash check again *)

Lemma hash_mismatches_nil (md5 : string -> string) (l : list TranslationItem) :
  Forall (fun y => key y = md5 (value y)) l -> hash_mismatches md5 l = [].
Proof.
  unfold hash_mismatches. induction 1 as [| y l Hy _ IH]; cbn [flat_map];
    [reflexivity |].
  rewrite IH, app_nil_r. apply String.eqb_eq in Hy. now rewrite Hy.
Qed.

(** X16: in the revision with the hash check, with the check on the
    diagnostics are those of the merge followed by the hash mismatches, one
    for each output entry whose key is not the md5 of its value, in output
    order, and none when the merge aborts; on input in which every key is
    the md5 of its value the check writes nothing, and the run is the run
    of the revision without the check. *)
Theorem X16_hash_check_follows_the_merge_and_is_silent_on_hashed_input
    (localeCompare : string -> string -> Z) (md5 : string -> string)
    (opts : Options) (files : list (string * Loaded)) :
  (forall e, outcome (Merge.main localeCompare opts files) = inl e ->
     Md5.main localeCompare md5 opts true files = Merge.main localeCompare opts files)
  /\
  (forall doc, outcome (Merge.main localeCompare opts files) = inr doc ->
     diagnostics (Md5.main localeCompare md5 opts true files)
     = diagnostics (Merge.main localeCompare opts files)
       ++ hash_mismatches md5 (translations doc))
  /\
  (Forall (fun e => key e = md5 (value e)) (input_items files) ->
   Md5.main localeCompare md5 opts true files = Merge.main localeCompare opts files).
Proof.
  rewrite Md5_main_checked. split; [| split].
  - intros e He. now rewrite He.
  - intros doc Hdoc. now rewrite Hdoc.
  - intros Hhashed.
    destruct (outcome (Merge.main localeCompare opts files)) as [e | doc] eqn:E;
      [reflexivity |].
    assert (Hnone : hash_mismatches md5 (translations doc) = []).
    { pose proof E as Hdoc. apply main_inr in Hdoc as (s & Hs & Hwf & ->).
      cbn [translations]. apply hash_mismatches_nil.
      pose proof (files_collects _ _ _ _ _ (collects_nil opts) Hs) as [HQ _].
      rewrite Forall_forall in *. intros y Hy.
      apply In_finish in Hy; [| exact Hwf].
      destruct (HQ _ _ Hy) as (x & (l1 & l2 & Hx & _) & Hk & Hv & _).
      assert (Hin : In x (input_items files)).
      { cbn [app] in Hx. rewrite Hx. apply in_or_app. right. now left. }
      specialize (Hhashed x Hin). now rewrite Hk, Hv. }
    rewrite Hnone, app_nil_r. rewrite <- E. symmetry.
    destruct (Merge.main localeCompare opts files). reflexivity.
Qed.

Lemma X16_hash_check_follows_the_merge_and_is_silent_on_hashed_input_witness :
  Md5.main codeUnitCompare (fun _ => "8b1a9953c4611296a827abf8c47804d7") strict true
    [("a.json", document [mkItem "8b1a9953c4611296a827abf8c47804d7" "Hello" None])]
  = Merge.main codeUnitCompare strict
      [("a.json", document [mkItem "8b1a9953c4611296a827abf8c47804d7" "Hello" None])].
Proof.
  apply (proj2 (proj2
           (X16_hash_check_follows_the_merge_and_is_silent_on_hashed_input
              codeUnitCompare (fun _ => "8b1a9953c4611296a827abf8c47804d7") strict
              [("a.json",
                document [mkItem "8b1a9953c4611296a827abf8c47804d7" "Hello" None])]))).
  repeat constructor.
Defined.

(** ** [src/index.ts] cannot abort on files of the declared shape *)

(** X17: the process of [src/index.ts], over files each of which either
    fails to load or loads to a value whose [translations] is missing, falsy
    or an array of entries, cannot abort: it writes a document and exits with
    code 0, whatever could not be loaded and whatever values conflict. *)
Theorem X17_index_completes_on_interface_input
    (files : list (string * Loaded)) :
  Forall (fun f => truthy_non_array (snd f) = false) files ->
  exists doc,
    settle (Index.main files)
    = mkProcess (Some doc) (stderr_text (Index.main files)) 0.
Proof.
  intros Hfiles.
  assert (Ho : outcome (Index.main files)
               = outcome (Merge.main codeUnitCompare (mkOptions true false false) files))
    by (rewrite (Index_main_reworded codeUnitCompare files); reflexivity).
  destruct (files_lenient_return (mkOptions true false false) files [] eq_refl Hfiles)
    as (s & Hs).
  unfold settle. rewrite Ho, main_outcome, Hs. now eexists.
Qed.

Lemma X17_index_completes_on_interface_input_witness :
  exists doc,
    settle (Index.main [("a.json", Rejected "ENOENT");
                        ("b.json", document [mkItem "k" "Hello" None;
                                             mkItem "k" "Bye" None])])
    = mkProcess (Some doc)
        (stderr_text
           (Index.main [("a.json", Rejected "ENOENT");
                        ("b.json", document [mkItem "k" "Hello" None;
                                             mkItem "k" "Bye" None])]))
        0.
Proof.
  apply (X17_index_completes_on_interface_input
           [("a.json", Rejected "ENOENT");
            ("b.json", document [mkItem "k" "Hello" None; mkItem "k" "Bye" None])]).
  repeat constructor.
Defined.

(** ** What the messages name *)

Lemma all_messages_bind {A B : Type} (P : Message -> Prop) (m : M A)
    (k : A -> M B) :
  all_messages P m -> (forall a, all_messages P (k a)) ->
  all_messages P (bind m k).
Proof.
  destruct m as [log [e | a]]; unfold all_messages; simpl; intros [Hl Hr] Hk.
  - now split.
  - destruct (Hk a) as [Hl' Hr']. split; [| exact Hr'].
    apply Forall_app. now split.
Qed.

Lemma for_of_all_messages {A S : Type} (P : Message -> Prop)
    (body : S -> A -> M S) (xs : list A) :
  (forall s x, In x xs -> all_messages P (body s x)) ->
  forall s, all_messages P (for_of xs body s).
Proof.
  induction xs as [| x xs IH]; intros Hb s; cbn [for_of].
  - split; [constructor | exact I].
  - apply all_messages_bind; [apply Hb; now left |].
    apply IH. intros s0 y Hy. apply Hb. now right.
Qed.

Lemma mergeItem_all_messages (files : list (string * Loaded)) (opts : Options)
    (path : string) (f : Loaded) (s : ItemRecord) (item : TranslationItem) :
  In (path, f) files -> In item (items_of f) ->
  all_messages (names_input files) (Merge.mergeItem opts path s item).
Proof.
  intros Hf Hitem.
  assert (Hname : forall v1, names_input files
                               (DuplicateKeys (key item) v1 (value item) path)).
  { intros v1. now exists f, item. }
  unfold Merge.mergeItem.
  destruct (Get s (key item)); [| | split; [constructor | exact I]].
  - destruct (strict_eq _ _).
    + destruct (_ && _); (split; [repeat constructor | exact I]).
    + destruct (negb _);
        [split; [constructor | apply Hname]
        | split; [constructor; [apply Hname | constructor] | exact I]].
  - destruct (strict_eq _ _).
    + destruct (_ && _); (split; [repeat constructor | exact I]).
    + destruct (negb _);
        [split; [constructor | apply Hname]
        | split; [constructor; [apply Hname | constructor] | exact I]].
Qed.

Lemma mergeFile_all_messages (files : list (string * Loaded)) (opts : Options)
    (s : ItemRecord) (f : string * Loaded) :
  In f files -> all_messages (names_input files) (Merge.mergeFile opts s f).
Proof.
  destruct f as [path [message | j]]; intros Hf.
  - unfold Merge.mergeFile, Merge.loadAndParse. cbn [fst snd].
    destruct (negb (ignoreErrors opts));
      [split; [constructor | exact Hf]
      | split; [constructor; [exact Hf | constructor] | exact I]].
  - rewrite mergeFile_Parsed.
    destruct (or_empty (optional_translations (Some j))) eqn:E; cbn [iterate];
      try (rewrite bind_throw; split; [constructor | exact I]).
    rewrite bind_ret. apply for_of_all_messages. intros s0 x Hx.
    apply (mergeItem_all_messages files opts path (Parsed j)); [exact Hf |].
    cbn [items_of]. now rewrite E.
Qed.

(** X18: every message about a load failure or a conflict is about the
    input: a warning written, or the error the run is aborted with, names
    either a file of the input that could not be loaded, with its error
    text, or a file of the input and the key and value of one of its
    entries. *)
Theorem X18_messages_name_files_and_entries_of_the_input
    (localeCompare : string -> string -> Z) (opts : Options)
    (files : list (string * Loaded)) :
  (forall str, In (Warning str) (diagnostics (Merge.main localeCompare opts files)) ->
               names_input files str)
  /\
  (forall str, outcome (Merge.main localeCompare opts files) = inl (Error str) ->
               names_input files str).
Proof.
  destruct (for_of_all_messages (names_input files) (Merge.mergeFile opts) files
              (fun s f Hf => mergeFile_all_messages files opts s f Hf) [])
    as [Hl Hr].
  rewrite main_diagnostics, main_outcome. unfold diagnostics, outcome. split.
  - intros str Hin. rewrite Forall_forall in Hl. exact (Hl _ Hin).
  - intros str.
    destruct (snd (for_of files (Merge.mergeFile opts) [])) as [[str' | m] | s];
      try discriminate.
    now intros [= <-].
Qed.

Lemma X18_messages_name_files_and_entries_of_the_input_witness :
  names_input
    [("a.json", document [mkItem "k" "Hello" None; mkItem "k" "Bye" None])]
    (DuplicateKeys "k" (Some "Hello") "Bye" "a.json").
Proof.
  apply (proj2 (X18_messages_name_files_and_entries_of_the_input codeUnitCompare
                  strict
                  [("a.json", document [mkItem "k" "Hello" None;
                                        mkItem "k" "Bye" None])])).
  reflexivity.
Defined.

(** ** The first non-empty context of a key *)

(** X19: context backfill, stated on the input.  Take an entry [item] of a
    file, its key naming no member of [Object.prototype], and let [e0] be
    the entry the key was first seen with, of the same value; suppose no
    entry of that key and value read before [item] has a non-empty context,
    and [item] has the non-empty context [c].  Then in a run that completes,
    the output entry of the key has the value of the pair and, with
    [mergeContext], the context [c] (the first non-empty one); without
    [mergeContext] it has the context of [e0]. *)
Theorem X19_first_non_empty_context_is_backfilled
    (localeCompare : string -> string -> Z) (opts : Options)
    (before after : list (string * Loaded)) (path : string) (j : json)
    (earlier later : list TranslationItem) (item e0 : TranslationItem)
    (c : string) (doc : TranslationObject) :
  or_empty (optional_translations (Some j)) = JArr (earlier ++ item :: later) ->
  outcome (Merge.main localeCompare opts (before ++ (path, Parsed j) :: after))
  = inr doc ->
  inherited (key item) = false ->
  first_seen_as (input_items before ++ earlier) (key item) e0 ->
  value e0 = value item ->
  Forall (fun e => key e = key item -> value e = value item ->
                   truthy_string (context e) = false)
         (input_items before ++ earlier) ->
  context item = Some c -> c <> "" ->
  exists y, In y (translations doc) /\ key y = key item /\
            value y = value item /\
            context y = if mergeContext opts then Some c else context e0.
Proof.
  intros Hj Hdoc Hni He0 Hv Hempty Hc Hne.
  destruct (completed_run_arrives _ _ _ _ _ _ _ _ _ _ Hj Hdoc) as (allItems & Harr).
  pose proof Harr as (_ & s0 & H0 & H1).
  pose proof (files_collects _ _ _ _ _ (collects_nil opts) H0) as Hc0.
  cbn [app] in Hc0.
  pose proof (items_collects _ _ _ _ _ _ Hc0 H1) as [HQ HR].
  pose proof (files_contexts_from _ _ _ _ _ contexts_from_nil H0) as HJ0.
  cbn [app] in HJ0.
  pose proof (items_contexts_from _ _ _ _ _ _ HJ0 H1) as HJ.
  pose proof He0 as (l1 & l2 & Hsplit & Hk0 & _).
  assert (Hin0 : In e0 (input_items before ++ earlier)).
  { rewrite Hsplit. apply in_or_app. right. now left. }
  assert (Hstored : In (key item) (map fst allItems)).
  { rewrite <- Hk0. apply HR; [exact Hin0 | now rewrite Hk0]. }
  destruct (getOwn allItems (key item)) as [x |] eqn:Hx;
    [| apply getOwn_None in Hx; contradiction].
  destruct (HQ _ _ Hx) as (e0' & He0' & Hkx & Hvx & Hcx).
  assert (e0' = e0) by (eapply first_seen_as_unique; eassumption). subst e0'.
  assert (Hfalsy : truthy_string (context x) = false).
  { destruct (truthy_string (context x)) eqn:E; [| reflexivity].
    destruct (HJ _ _ Hx E) as (e & He & Hke & Hve & Hce).
    rewrite Forall_forall in Hempty.
    assert (Hf : truthy_string (context e) = false)
      by (apply Hempty; [exact He | exact Hke | congruence]).
    congruence. }
  assert (HG : Get allItems (key item) = Own x) by (now apply Get_Own).
  pose proof (backfill_at_stored_duplicate localeCompare opts before after path j
                earlier later item x allItems Harr HG) as Hpair.
  cbv zeta in Hpair. destruct Hpair as (Hpair & _ & _).
  destruct (Hpair c) as (_ & Hon & Hoff);
    [congruence | exact Hfalsy | exact Hc | exact Hne |].
  destruct (mergeContext opts) eqn:Hm.
  - destruct (Hon eq_refl) as (_ & Hout).
    destruct (Hout doc Hdoc) as (y & Hy & Hky & Hvy & Hcy).
    exists y. repeat split; try assumption. congruence.
  - destruct (Hoff eq_refl) as (_ & Hout).
    destruct (Hout doc Hdoc) as (y & Hy & Hky & Hvy & Hcy).
    exists y. repeat split; try assumption; [congruence |].
    rewrite Hcy. destruct Hcx as [Hcx | (Hm' & _)]; [exact Hcx | congruence].
Qed.

Lemma X19_first_non_empty_context_is_backfilled_witness :
  exists y, In y (translations (mkObject "EN" [mkItem "k1" "Hello" (Some "greeting")])) /\
            key y = "k1" /\ value y = "Hello" /\ context y = Some "greeting".
Proof.
  apply (X19_first_non_empty_context_is_backfilled codeUnitCompare strict
           [("A.json", document [mkItem "k1" "Hello" (Some "")])] []
           "B.json"
           (JObj [("translations", JArr [mkItem "k1" "Hello" (Some "greeting")])])
           [] [] (mkItem "k1" "Hello" (Some "greeting"))
           (mkItem "k1" "Hello" (Some "")) "greeting"
           (mkObject "EN" [mkItem "k1" "Hello" (Some "greeting")])).
  - reflexivity.
  - reflexivity.
  - reflexivity.
  - exists [], []. repeat split. constructor.
  - reflexivity.
  - repeat constructor.
  - reflexivity.
  - discriminate.
Defined.

(** ** Input of the declared interface, unchecked *)

Lemma unchecked_JObj (fields : list (string * json)) :
  unchecked (JObj fields)
  = Unchecked.VObj (map (fun nv => (fst nv, unchecked (snd nv))) fields).
Proof.
  cbn [unchecked]. f_equal.
  induction fields as [| [n v] l IH]; cbn [map fst snd]; [reflexivity |].
  now rewrite IH.
Qed.

Lemma field_unchecked (name : string) (fields : list (string * json)) :
  Unchecked.field name (map (fun nv => (fst nv, unchecked (snd nv))) fields)
  = option_map unchecked (field name fields).
Proof.
  induction fields as [| [n v] l IH]; cbn [map fst snd Unchecked.field field];
    [reflexivity |].
  destruct (n =? name); [reflexivity | exact IH].
Qed.

Lemma truthy_unchecked (j : json) : Unchecked.truthy (unchecked j) = truthy j.
Proof. destruct j; reflexivity. Qed.

Lemma or_empty_unchecked (j : json) :
  Unchecked.or_empty (Unchecked.optional_translations (Some (unchecked j)))
  = unchecked (or_empty (optional_translations (Some j))).
Proof.
  destruct j as [| b | n | l | fields]; try reflexivity.
  rewrite unchecked_JObj.
  cbn [Unchecked.optional_translations optional_translations].
  rewrite field_unchecked.
  destruct (field "translations" fields) as [t |]; [| reflexivity].
  cbn [option_map Unchecked.or_empty or_empty]. rewrite truthy_unchecked.
  now destruct (truthy t).
Qed.

(** On an array the two builds and the statement as written agree; on any
    other value the statement as written is the iterator protocol. *)
Lemma iterate_unchecked (build : Unchecked.Build) (t : json) :
  build = Unchecked.IteratorProtocol \/ (exists l, t = JArr l) ->
  Unchecked.iterate build (unchecked t)
  = M_map (map Unchecked.Entry) (iterate t).
Proof.
  intros [-> | (l & ->)]; [| reflexivity].
  destruct t as [| b | n | l | fields]; try reflexivity.
Qed.

Lemma getOwn_unchecked (s : ItemRecord) (k : string) :
  Unchecked.getOwn (unchecked_collection s) k
  = option_map Unchecked.Entry (getOwn s k).
Proof.
  induction s as [| [k' it] s IH]; cbn [unchecked_collection map fst snd
                                           Unchecked.getOwn getOwn];
    [reflexivity |].
  destruct (k' =? k); [reflexivity | exact IH].
Qed.

Lemma Get_unchecked (s : ItemRecord) (k : string) :
  Unchecked.Get (unchecked_collection s) k
  = match Get s k with
    | Own x => Unchecked.Own (Unchecked.Entry x)
    | Inherited => Unchecked.Inherited
    | Undefined => Unchecked.Undefined
    end.
Proof.
  unfold Unchecked.Get, Get. rewrite getOwn_unchecked.
  destruct (getOwn s k); cbn [option_map]; [reflexivity |].
  now destruct (inherited k).
Qed.

Lemma Set_unchecked (s : ItemRecord) (k : string) (it : TranslationItem) :
  Unchecked.Set_ (unchecked_collection s) k (Unchecked.Entry it)
  = unchecked_collection (Set_ s k it).
Proof.
  induction s as [| [k' x] s IH]; cbn [unchecked_collection map fst snd
                                          Unchecked.Set_ Set_];
    [reflexivity |].
  destruct (k' =? k); cbn [map fst snd]; [reflexivity |].
  f_equal. exact IH.
Qed.

Lemma setContext_unchecked (s : ItemRecord) (k : string) (c : option string) :
  Unchecked.setContext (unchecked_collection s) k c
  = unchecked_collection (setContext s k c).
Proof.
  induction s as [| [k' x] s IH]; cbn [unchecked_collection map fst snd
                                          Unchecked.setContext setContext];
    [reflexivity |].
  destruct (k' =? k); cbn [map fst snd]; [reflexivity |].
  f_equal. exact IH.
Qed.

Lemma assignContext_unchecked (s : ItemRecord) (k : string) (c : option string) :
  Unchecked.assignContext (unchecked_collection s) k c
  = ret (unchecked_collection (setContext s k c)).
Proof.
  unfold Unchecked.assignContext. rewrite getOwn_unchecked, setContext_unchecked.
  now destruct (getOwn s k).
Qed.

Lemma mergeItem_unchecked (opts : Options) (path : string) (s : ItemRecord)
    (it : TranslationItem) :
  Unchecked.Merge.mergeItem opts path (unchecked_collection s) (Unchecked.Entry it)
  = M_map unchecked_collection (Merge.mergeItem opts path s it).
Proof.
  unfold Unchecked.Merge.mergeItem, Merge.mergeItem.
  cbn [Unchecked.Element_key Unchecked.Element_value Unchecked.Element_context
       interpolate].
  rewrite Get_unchecked.
  destruct (Get s (key it)) as [x | |];
    cbn [Unchecked.Property_value Unchecked.Property_context
         Unchecked.Element_value Unchecked.Element_context
         Property_value Property_context].
  - destruct (strict_eq (Some (value x)) (Some (value it))).
    + destruct (mergeContext opts && negb (truthy_string (context x))
                && truthy_string (context it)).
      * rewrite assignContext_unchecked, bind_ret. reflexivity.
      * reflexivity.
    + destruct (negb (ignoreErrors opts)); reflexivity.
  - cbn [strict_eq]. destruct (negb (ignoreErrors opts)); reflexivity.
  - now rewrite Set_unchecked.
Qed.

Lemma Index_mergeItem_unchecked (s : ItemRecord) (it : TranslationItem) :
  Unchecked.Index.mergeItem (unchecked_collection s) (Unchecked.Entry it)
  = M_map unchecked_collection (Index.mergeItem s it).
Proof.
  unfold Unchecked.Index.mergeItem, Index.mergeItem.
  cbn [Unchecked.Element_key Unchecked.Element_value interpolate].
  rewrite Get_unchecked.
  destruct (Get s (key it)) as [x | |];
    cbn [Unchecked.Property_value Unchecked.Element_value Property_value].
  - destruct (strict_eq (Some (value x)) (Some (value it))); reflexivity.
  - reflexivity.
  - now rewrite Set_unchecked.
Qed.

(** What the hypothesis of the agreement gives for one file. *)
Lemma interface_value (build : Unchecked.Build) (j : json) :
  build = Unchecked.IteratorProtocol \/ truthy_non_array (Parsed j) = false ->
  build = Unchecked.IteratorProtocol \/
  (exists l, or_empty (optional_translations (Some j)) = JArr l).
Proof.
  intros [H | H]; [now left | right]. cbn [truthy_non_array] in H.
  destruct (or_empty (optional_translations (Some j))); try discriminate.
  now eexists.
Qed.

Lemma mergeFile_unchecked (build : Unchecked.Build) (opts : Options)
    (s : ItemRecord) (f : string * Loaded) :
  build = Unchecked.IteratorProtocol \/ truthy_non_array (snd f) = false ->
  Unchecked.Merge.mergeFile build opts (unchecked_collection s) (unchecked_file f)
  = M_map unchecked_collection (Merge.mergeFile opts s f).
Proof.
  destruct f as [path [message | j]]; cbn [snd]; intros Hf.
  - unfold Unchecked.Merge.mergeFile, Merge.mergeFile, unchecked_file,
      Unchecked.Merge.loadAndParse, Merge.loadAndParse. cbn [fst snd].
    destruct (negb (ignoreErrors opts)); reflexivity.
  - unfold unchecked_file. cbn [fst snd].
    rewrite Unchecked_mergeFile_Content, mergeFile_Parsed, or_empty_unchecked.
    rewrite (iterate_unchecked build _ (interface_value build j Hf)).
    rewrite bind_M_map, M_map_bind. apply bind_ext. intros items.
    apply (for_of_M_map Unchecked.Entry unchecked_collection).
    intros s0 x. apply mergeItem_unchecked.
Qed.

Lemma Index_mergeFile_unchecked (build : Unchecked.Build)
    (s : ItemRecord) (f : string * Loaded) :
  build = Unchecked.IteratorProtocol \/ truthy_non_array (snd f) = false ->
  Unchecked.Index.mergeFile build (unchecked_collection s) (unchecked_file f)
  = M_map unchecked_collection (Index.mergeFile s f).
Proof.
  destruct f as [path [message | j]]; cbn [snd]; intros Hf.
  - reflexivity.
  - unfold unchecked_file. cbn [fst snd].
    rewrite Unchecked_Index_mergeFile_Content.
    unfold Index.mergeFile, Index.loadAndParse. cbn [fst snd].
    rewrite bind_ret, or_empty_unchecked.
    rewrite (iterate_unchecked build _ (interface_value build j Hf)).
    rewrite bind_M_map, M_map_bind. apply bind_ext. intros items.
    apply (for_of_M_map Unchecked.Entry unchecked_collection).
    intros s0 x. apply Index_mergeItem_unchecked.
Qed.

Lemma for_of_unchecked {S S' : Type} (g : S -> S')
    (body : S -> string * Loaded -> M S)
    (body' : S' -> string * Unchecked.File -> M S')
    (files : list (string * Loaded)) :
  (forall s f, In f files -> body' (g s) (unchecked_file f) = M_map g (body s f)) ->
  forall s, for_of (map unchecked_file files) body' (g s)
            = M_map g (for_of files body s).
Proof.
  induction files as [| f files IH]; intros Hb s; cbn [map for_of].
  - reflexivity.
  - rewrite (Hb s f (or_introl eq_refl)), bind_M_map, M_map_bind.
    apply bind_ext. intros s1. apply IH. intros s0 f0 Hf0. apply Hb. now right.
Qed.

Lemma filter_unchecked (P : string -> bool) (s : ItemRecord) :
  filter (fun p => P (fst p)) (unchecked_collection s)
  = unchecked_collection (filter (fun p => P (fst p)) s).
Proof.
  induction s as [| [k it] s IH]; cbn [unchecked_collection map filter fst snd];
    [reflexivity |].
  destruct (P k); cbn [map fst snd]; [f_equal |]; exact IH.
Qed.

Lemma Object_values_unchecked (s : ItemRecord) :
  Unchecked.Object_values (unchecked_collection s)
  = map Unchecked.Entry (Object_values s).
Proof.
  unfold Unchecked.Object_values, Object_values.
  rewrite (filter_unchecked is_array_index),
    (filter_unchecked (fun k => negb (is_array_index k))).
  unfold unchecked_collection at 1.
  rewrite (Array_sort_map (fun p => (fst p, Unchecked.Entry (snd p)))
             compare_index Unchecked.compare_index)
    by (intros a b; reflexivity).
  unfold unchecked_collection. rewrite map_app, !map_map. reflexivity.
Qed.

Lemma entries_Entry (l : list TranslationItem) :
  Unchecked.entries (map Unchecked.Entry l) = Some l.
Proof.
  induction l as [| it l IH]; cbn [map Unchecked.entries]; [reflexivity |].
  now rewrite IH.
Qed.

Lemma finish_unchecked (localeCompare : string -> string -> Z)
    (sort_with_character : list Unchecked.Element -> M (list Unchecked.Element))
    (opts : Options) (s : ItemRecord) :
  Unchecked.Merge.finish localeCompare sort_with_character opts
    (unchecked_collection s)
  = ret (map Unchecked.Entry (Merge.finish localeCompare opts s)).
Proof.
  unfold Unchecked.Merge.finish, Merge.finish, Unchecked.Merge.sortTranslations,
    Merge.sortTranslations.
  rewrite Object_values_unchecked. destruct (sort opts); [| reflexivity].
  now rewrite entries_Entry.
Qed.

(** X20: on input of the declared interface the run over unchecked values
    is the run of the modules [Merge] and [Index]: the same diagnostics in
    the same order, the same exception or the same document.  This holds
    for the build with the iterator protocol on every input those modules
    take, and for the build with the index loop on files each of which
    fails to load or loads to a value whose [translations] is missing, falsy
    or an array. *)
Theorem X20_unchecked_run_agrees_on_interface_input
    (localeCompare : string -> string -> Z) (build : Unchecked.Build)
    (sort_with_character : list Unchecked.Element -> M (list Unchecked.Element))
    (opts : Options) (files : list (string * Loaded)) :
  build = Unchecked.IteratorProtocol \/
  Forall (fun f => truthy_non_array (snd f) = false) files ->
  Unchecked.Merge.main localeCompare build sort_with_character opts
    (map unchecked_file files)
  = M_map unchecked_document (Merge.main localeCompare opts files)
  /\
  Unchecked.Index.main build (map unchecked_file files)
  = M_map unchecked_document (Index.main files).
Proof.
  intros Hfiles.
  assert (Heach : forall f, In f files ->
             build = Unchecked.IteratorProtocol \/ truthy_non_array (snd f) = false).
  { intros f Hf. destruct Hfiles as [H | H]; [now left | right].
    rewrite Forall_forall in H. now apply H. }
  split.
  - unfold Unchecked.Merge.main, Merge.main.
    change (@nil (string * Unchecked.Element)) with (unchecked_collection []).
    rewrite (for_of_unchecked unchecked_collection (Merge.mergeFile opts)
               (Unchecked.Merge.mergeFile build opts) files).
    + rewrite bind_M_map, M_map_bind. apply bind_ext. intros s.
      now rewrite finish_unchecked, bind_ret.
    + intros s f Hf. apply mergeFile_unchecked. now apply Heach.
  - unfold Unchecked.Index.main, Index.main.
    change (@nil (string * Unchecked.Element)) with (unchecked_collection []).
    rewrite (for_of_unchecked unchecked_collection Index.mergeFile
               (Unchecked.Index.mergeFile build) files).
    + rewrite bind_M_map, M_map_bind. apply bind_ext. intros s.
      now rewrite Object_values_unchecked.
    + intros s f Hf. apply Index_mergeFile_unchecked. now apply Heach.
Qed.

Lemma X20_unchecked_run_agrees_on_interface_input_witness :
  Unchecked.Merge.main codeUnitCompare (Unchecked.IndexLoop (fun _ => ret []))
    (fun l => ret l) strict
    (map unchecked_file
       [("a.json", document [mkItem "k1" "Hello" None]);
        ("b.json", document [mkItem "k1" "Hello" (Some "greeting")])])
  = M_map unchecked_document
      (Merge.main codeUnitCompare strict
         [("a.json", document [mkItem "k1" "Hello" None]);
          ("b.json", document [mkItem "k1" "Hello" (Some "greeting")])]).
Proof.
  apply (X20_unchecked_run_agrees_on_interface_input codeUnitCompare
           (Unchecked.IndexLoop (fun _ => ret [])) (fun l => ret l) strict
           [("a.json", document [mkItem "k1" "Hello" None]);
            ("b.json", document [mkItem "k1" "Hello" (Some "greeting")])]).
  right. repeat constructor.
Defined.

(** ** Files the index loop passes over *)

Lemma or_empty_truthy (o : option json) : truthy (or_empty o) = true.
Proof.
  destruct o as [j |]; cbn [or_empty]; [| reflexivity].
  destruct (truthy j) eqn:E; [exact E | reflexivity].
Qed.

Lemma index_loop_passes_over (array_like : list (string * Unchecked.JsonValue) ->
                                           M (list Unchecked.Element))
    (opts : Options) (s : Unchecked.Collection) (f : string * Loaded) :
  truthy_non_array (snd f) = true -> no_own_length (snd f) = true ->
  Unchecked.Merge.mergeFile (Unchecked.IndexLoop array_like) opts s
    (unchecked_file f) = ret s
  /\
  Unchecked.Index.mergeFile (Unchecked.IndexLoop array_like) s
    (unchecked_file f) = ret s.
Proof.
  destruct f as [path [message | j]]; cbn [snd truthy_non_array no_own_length];
    [discriminate |].
  intros Ht Hl. unfold unchecked_file. cbn [fst snd].
  rewrite Unchecked_mergeFile_Content, Unchecked_Index_mergeFile_Content,
    or_empty_unchecked.
  pose proof (or_empty_truthy (optional_translations (Some j))) as Htruthy.
  destruct (or_empty (optional_translations (Some j))) as [| b | n | l | fields];
    try discriminate.
  - cbn [unchecked Unchecked.iterate]. now rewrite !bind_ret.
  - cbn [unchecked Unchecked.iterate]. now rewrite !bind_ret.
  - rewrite unchecked_JObj. cbn [Unchecked.iterate]. rewrite field_unchecked.
    destruct (field "length" fields); [discriminate |].
    cbn [option_map]. now rewrite !bind_ret.
Qed.

(** X21: in the build with the index loop, a file of typed input whose
    [translations] is a number other than zero, [true], or an object without
    an own [length] is passed over without a diagnostic: the run is the run
    of [Merge], or of [Index], over the other files. *)
Theorem X21_index_loop_passes_over_what_is_no_array
    (localeCompare : string -> string -> Z)
    (array_like : list (string * Unchecked.JsonValue) -> M (list Unchecked.Element))
    (sort_with_character : list Unchecked.Element -> M (list Unchecked.Element))
    (opts : Options) (files : list (string * Loaded)) :
  Forall (fun f => no_own_length (snd f) = true) files ->
  Unchecked.Merge.main localeCompare (Unchecked.IndexLoop array_like)
    sort_with_character opts (map unchecked_file files)
  = M_map unchecked_document
      (Merge.main localeCompare opts
         (filter (fun f => negb (truthy_non_array (snd f))) files))
  /\
  Unchecked.Index.main (Unchecked.IndexLoop array_like) (map unchecked_file files)
  = M_map unchecked_document
      (Index.main (filter (fun f => negb (truthy_non_array (snd f))) files)).
Proof.
  intros Hfiles.
  assert (Hloops : forall s,
             for_of (map unchecked_file files)
               (Unchecked.Merge.mergeFile (Unchecked.IndexLoop array_like) opts)
               (unchecked_collection s)
             = M_map unchecked_collection
                 (for_of (filter (fun f => negb (truthy_non_array (snd f))) files)
                    (Merge.mergeFile opts) s)
             /\
             for_of (map unchecked_file files)
               (Unchecked.Index.mergeFile (Unchecked.IndexLoop array_like))
               (unchecked_collection s)
             = M_map unchecked_collection
                 (for_of (filter (fun f => negb (truthy_non_array (snd f))) files)
                    Index.mergeFile s)).
  { induction Hfiles as [| f files Hf _ IH]; intros s; cbn [map filter for_of];
      [split; reflexivity |].
    destruct (truthy_non_array (snd f)) eqn:Ef; cbn [negb for_of].
    - destruct (index_loop_passes_over array_like opts (unchecked_collection s)
                  f Ef Hf) as [HM HI].
      rewrite HM, HI, !bind_ret. apply IH.
    - rewrite mergeFile_unchecked, Index_mergeFile_unchecked by now right.
      rewrite !bind_M_map, !M_map_bind.
      split; apply bind_ext; intros s1; apply IH. }
  assert (HM := fun s => proj1 (Hloops s)).
  assert (HI := fun s => proj2 (Hloops s)).
  split.
  - unfold Unchecked.Merge.main, Merge.main.
    change (@nil (string * Unchecked.Element)) with (unchecked_collection []).
    rewrite HM, bind_M_map, M_map_bind. apply bind_ext. intros s.
    now rewrite finish_unchecked, bind_ret.
  - unfold Unchecked.Index.main, Index.main.
    change (@nil (string * Unchecked.Element)) with (unchecked_collection []).
    rewrite HI, bind_M_map, M_map_bind. apply bind_ext. intros s.
    now rewrite Object_values_unchecked.
Qed.

Lemma X21_index_loop_passes_over_what_is_no_array_witness :
  Unchecked.Merge.main codeUnitCompare (Unchecked.IndexLoop (fun _ => ret []))
    (fun l => ret l) strict
    (map unchecked_file
       [("a.json", document [mkItem "k1" "Hello" None]);
        ("five.json", Parsed (JObj [("translations", JNum 5)]));
        ("b.json", document [mkItem "k1" "Hello" (Some "greeting")])])
  = M_map unchecked_document
      (Merge.main codeUnitCompare strict
         (filter (fun f => negb (truthy_non_array (snd f)))
            [("a.json", document [mkItem "k1" "Hello" None]);
             ("five.json", Parsed (JObj [("translations", JNum 5)]));
             ("b.json", document [mkItem "k1" "Hello" (Some "greeting")])])).
Proof.
  apply (X21_index_loop_passes_over_what_is_no_array codeUnitCompare
           (fun _ => ret []) (fun l => ret l) strict
           [("a.json", document [mkItem "k1" "Hello" None]);
            ("five.json", Parsed (JObj [("translations", JNum 5)]));
            ("b.json", document [mkItem "k1" "Hello" (Some "greeting")])]).
  repeat constructor.
Defined.
